(** * Radios de curva: curve radii and clustered curve centres

    A shallow embedding of [Radios_curva.py] (the QGIS processing algorithm
    [ExtraerCurvasYCentroides]) and the verification of its specification.

    The numeric code of the script runs on Python floats.  The embedding is
    written once over an interface [PyNum] of the float operations the script
    uses and is instantiated twice:
    - [PyFloat64]: IEEE 754 binary64 ([PrimFloat]), the arithmetic the script
      really runs on; every definition evaluates there with [vm_compute];
    - [PyReal]: the real numbers, the exact arithmetic that the formulas of the
      script are meant to approximate.

    Python exceptions are explicit: a computation returns [Ok v] or
    [Raise e]. *)

From Stdlib Require Import ZArith List Bool Lia Floats.
From Stdlib Require Import Reals Lra.
From Stdlib Require Import Ascii String.
From stdpp Require Import base option list gmap strings.

Set Default Proof Using "Type".

(* ================================================================== *)
(** ** Python results: values and raised exceptions *)

Inductive exn : Type :=
| ValueError
| ZeroDivisionError
| IndexError
| AttributeError
| QgsProcessingException.

Inductive result (A : Type) : Type :=
| Ok (a : A)
| Raise (e : exn).

Arguments Ok {A} a.
Arguments Raise {A} e.

Definition bind {A B : Type} (m : result A) (k : A -> result B) : result B :=
  match m with
  | Ok a => k a
  | Raise e => Raise e
  end.

(** The notation [x ← m; k] of the script's sequencing. *)
#[export] Instance result_bind : MBind result := fun A B k m => bind m k.

Declare Scope py_scope.
Delimit Scope py_scope with py.

(** [try: body / except: handler] with a bare [except]. *)
Definition try_except {A : Type} (body : result A) (handler : exn -> result A)
  : result A :=
  match body with
  | Ok a => Ok a
  | Raise e => handler e
  end.

(** A [for] loop whose body threads the state [s] and may raise. *)
Fixpoint for_each {A S : Type} (xs : list A) (body : A -> S -> result S) (s : S)
  : result S :=
  match xs with
  | [] => Ok s
  | x :: rest => bind (body x s) (for_each rest body)
  end.

(** [[f(x) for x in xs]] where [f] may raise. *)
Fixpoint comprehension {A B : Type} (f : A -> result B) (xs : list A)
  : result (list B) :=
  match xs with
  | [] => Ok []
  | x :: rest =>
      bind (f x) (fun b => bind (comprehension f rest) (fun bs => Ok (b :: bs)))
  end.

(** [range(n)]: empty when [n <= 0]. *)
Definition py_range (n : Z) : list nat := seq 0 (Z.to_nat n).

(** [l[i]] for a non-negative index. *)
Definition py_index {A : Type} (l : list A) (i : nat) : result A :=
  match l !! i with
  | Some v => Ok v
  | None => Raise IndexError
  end.

(* ================================================================== *)
(** ** The float operations used by the script *)

Class PyNum (F : Type) : Type := {
  of_int : Z -> F;          (* conversion of a Python int in mixed arithmetic *)
  lit_1e_9 : F;             (* the literal 1e-9 *)
  fadd : F -> F -> F;
  fsub : F -> F -> F;
  fmul : F -> F -> F;
  fquot : F -> F -> F;      (* x / y for a divisor that is not zero *)
  fsqrt : F -> F;           (* the C library sqrt, which never raises *)
  fabs : F -> F;
  feqb : F -> F -> bool;
  fltb : F -> F -> bool;
  fleb : F -> F -> bool
}.

Infix "+" := fadd : py_scope.
Infix "-" := fsub : py_scope.
Infix "*" := fmul : py_scope.
Infix "==" := feqb (at level 70, no associativity) : py_scope.
Infix "<" := fltb : py_scope.
Infix "<=" := fleb : py_scope.

(** Binary64.  [of_int] is exact below 2^53 and rounds to nearest up to
    2^63, which covers the literals of the script and every [len]. *)
#[export] Instance PyFloat64 : PyNum float := {|
  of_int := fun z =>
    if (z <? 0)%Z then PrimFloat.opp (PrimFloat.of_uint63 (Uint63.of_Z (- z)))
    else PrimFloat.of_uint63 (Uint63.of_Z z);
  lit_1e_9 := 0x1.12e0be826d695p-30%float;
  fadd := PrimFloat.add;
  fsub := PrimFloat.sub;
  fmul := PrimFloat.mul;
  fquot := PrimFloat.div;
  fsqrt := PrimFloat.sqrt;
  fabs := PrimFloat.abs;
  feqb := PrimFloat.eqb;
  fltb := PrimFloat.ltb;
  fleb := PrimFloat.leb
|}.

Definition Reqb (x y : R) : bool := if Req_dec_T x y then true else false.
Definition Rltb (x y : R) : bool := if Rlt_dec x y then true else false.
Definition Rleb (x y : R) : bool := if Rle_dec x y then true else false.

(** Exact real arithmetic. *)
#[export] Instance PyReal : PyNum R := {|
  of_int := IZR;
  lit_1e_9 := (/ 10 ^ 9)%R;
  fadd := Rplus;
  fsub := Rminus;
  fmul := Rmult;
  fquot := Rdiv;
  fsqrt := sqrt;
  fabs := Rabs;
  feqb := Reqb;
  fltb := Rltb;
  fleb := Rleb
|}.

Section Script.

Context {F : Type} `{PyNum F}.

Local Open Scope py_scope.

(** [x / y]: raises [ZeroDivisionError] when the divisor is zero. *)
Definition py_div (x y : F) : result F :=
  if y == of_int 0 then Raise ZeroDivisionError else Ok (fquot x y).

(** [x / n] for a float [x] and an int [n].  The int is converted to a
    float, and an int that is not zero does not convert to zero, so the
    division raises exactly when [n] is 0. *)
Definition py_div_int (x : F) (n : Z) : result F :=
  if (n =? 0)%Z then Raise ZeroDivisionError else Ok (fquot x (of_int n)).

(** [math.sqrt(x)]: raises [ValueError] on a negative argument. *)
Definition math_sqrt (x : F) : result F :=
  if x < of_int 0 then Raise ValueError else Ok (fsqrt x).

(** Truth value of a float: zero is false. *)
Definition truthy (x : F) : bool := negb (x == of_int 0).

(** [sum(xs)]: a left fold from the int 0.  (CPython 3.12 and later add
    a compensation term when summing floats; it vanishes in exact
    arithmetic, and for a single summand.) *)
Definition py_sum (xs : list F) : F := fold_left fadd xs (of_int 0).

(* ------------------------------------------------------------------ *)
(** *** Points *)

Record Point : Type := QgsPointXY { x : F; y : F }.

(** Modelled from the spec: [QgsPointXY.distance] belongs to the host
    library; the spec gives it as the Euclidean distance of two points. *)
Definition distance (p q : Point) : F :=
  fsqrt ((x p - x q) * (x p - x q) + (y p - y q) * (y p - y q)).

(* ------------------------------------------------------------------ *)
(** *** circle_radius, circle_center *)

(** The argument of the square root in Heron's formula. *)
Definition heron_arg (a b c : F) : F :=
  let s := fquot (a + b + c) (of_int 2) in
  s * (s - a) * (s - b) * (s - c).

(** [circle_radius(p1, p2, p3)].  The division by the literal 2 stands
    outside the [try] and cannot raise. *)
Definition circle_radius (p1 p2 p3 : Point) : result (option F) :=
  let a := distance p1 p2 in
  let b := distance p2 p3 in
  let c := distance p3 p1 in
  try_except
    (area ← math_sqrt (heron_arg a b c);
     r ← py_div (a * b * c) (of_int 4 * area);
     Ok (Some r))
    (fun _ => Ok None).

(** The determinant [d] of [circle_center]. *)
Definition center_det (p1 p2 p3 : Point) : F :=
  let '(ax, ay) := (x p1, y p1) in
  let '(bx, by_) := (x p2, y p2) in
  let '(cx, cy) := (x p3, y p3) in
  of_int 2 * (ax * (by_ - cy) + bx * (cy - ay) + cx * (ay - by_)).

(** [circle_center(p1, p2, p3)]. *)
Definition circle_center (p1 p2 p3 : Point) : result (option Point) :=
  let '(ax, ay) := (x p1, y p1) in
  let '(bx, by_) := (x p2, y p2) in
  let '(cx, cy) := (x p3, y p3) in
  let d := center_det p1 p2 p3 in
  if fabs d < lit_1e_9 then Ok None
  else
    ux ← py_div ((ax * ax + ay * ay) * (by_ - cy) +
                  (bx * bx + by_ * by_) * (cy - ay) +
                  (cx * cx + cy * cy) * (ay - by_)) d;
    uy ← py_div ((ax * ax + ay * ay) * (cx - bx) +
                  (bx * bx + by_ * by_) * (ax - cx) +
                  (cx * cx + cy * cy) * (bx - ax)) d;
    Ok (Some (QgsPointXY ux uy)).

(* ------------------------------------------------------------------ *)
(** *** processAlgorithm: parameters and data *)

(** The parameters read in step 1 of [processAlgorithm]. *)
Record Parametros : Type := {
  intervalo : F;
  rmin : F;
  rmax : F;
  md : F;
  incluir_ctr : bool;
  dist_agrup : F
}.

(** A line geometry of the host: single part or multi part. *)
Inductive QgsGeometry : Type :=
| Polyline (line : list Point)
| MultiPolyline (lines : list (list Point)).

(** [asMultiPolyline() if isMultipart() else [asPolyline()]]. *)
Definition partes (g : QgsGeometry) : list (list Point) :=
  match g with
  | MultiPolyline lines => lines
  | Polyline line => [line]
  end.

(** An entry of [segmentos] (a dict in the script). *)
Record Segmento : Type := {
  geom : list Point;
  radio : F;
  long : F;
  centro : option Point
}.

(** An entry of [clusters] (a dict in the script). *)
Record Cluster : Type := {
  centroid : Point;
  indices : list nat;
  sum_r : F
}.

(** [feedback.isCanceled()]: the answer at the poll of record [i]; the
    extraction loop polls once at the start of each record. *)
Definition Feedback : Type := nat -> bool.

(* ------------------------------------------------------------------ *)
(** *** Step 3: extraction of curve segments *)

Section Proceso.

Variable prm : Parametros.

(** Modelled from the spec: [QgsGeometry.length] belongs to the host
    library; for the three-point line [p1, p2, p3] the spec gives it as the
    sum of the two edge lengths. *)
Definition polyline_length (p1 p2 p3 : Point) : F :=
  distance p1 p2 + distance p2 p3.

(** The body of the loop over [j], for the points of one triplet.  In
    [if r and rmin < r < rmax] a radius is false when it is [None] or
    zero. *)
Definition procesar_tripleta (p1 p2 p3 : Point) (segmentos : list Segmento)
  : result (list Segmento) :=
  if (distance p1 p2 < md prm) || (distance p2 p3 < md prm) then Ok segmentos
  else
    r ← circle_radius p1 p2 p3;
    match r with
    | Some r =>
        if truthy r && (rmin prm < r) && (r < rmax prm) then
          let length := polyline_length p1 p2 p3 in
          center ← (if incluir_ctr prm then circle_center p1 p2 p3 else Ok None);
          Ok (segmentos ++ [ {| geom := [p1; p2; p3]; radio := r;
                                long := length; centro := center |} ])
        else Ok segmentos
    | None => Ok segmentos
    end.

(** [for j in range(len(line) - 2)]. *)
Definition procesar_linea (line : list Point) (segmentos : list Segmento)
  : result (list Segmento) :=
  for_each (py_range (Z.of_nat (length line) - 2))
    (fun j segmentos =>
       p1 ← py_index line j;
       p2 ← py_index line (j + 1);
       p3 ← py_index line (j + 2);
       procesar_tripleta p1 p2 p3 segmentos)
    segmentos.

(** [for line in parts]. *)
Definition procesar_feature (feat : QgsGeometry) (segmentos : list Segmento)
  : result (list Segmento) :=
  for_each (partes feat) procesar_linea segmentos.

(** [for i, feat in enumerate(dens.getFeatures())], with the cancellation
    poll at the head of each iteration.  [setProgress(int(100 * i /
    total_f))] only reports and is left out: [total_f] counts the records
    of the memory layer [dens] and is positive inside the loop. *)
Fixpoint extraer_desde (canceled : Feedback) (i : nat) (feats : list QgsGeometry)
  (segmentos : list Segmento) : result (list Segmento) :=
  match feats with
  | [] => Ok segmentos
  | feat :: rest =>
      if canceled i then Ok segmentos
      else
        segmentos ← procesar_feature feat segmentos;
        extraer_desde canceled (S i) rest segmentos
  end.

Definition extraer (canceled : Feedback) (dens : list QgsGeometry)
  : result (list Segmento) :=
  extraer_desde canceled 0 dens [].

(* ------------------------------------------------------------------ *)
(** *** Step 4: grouping of nearby centres *)

(** [segmentos[k]['centro']] used as a point: [None] has no [x()]. *)
Definition centro_de (segmentos : list Segmento) (k : nat) : result Point :=
  seg ← py_index segmentos k;
  match centro seg with
  | Some c => Ok c
  | None => Raise AttributeError
  end.

(** The body of [if pt.distance(cl['centroid']) <= dist_agrup]: the
    updates of [cl]. *)
Definition agregar (segmentos : list Segmento) (idx : nat) (seg : Segmento)
  (cl : Cluster) : result Cluster :=
  let indices' := indices cl ++ [idx] in
  let sum_r' := sum_r cl + radio seg in
  xs ← comprehension (fun k => c ← centro_de segmentos k; Ok (x c)) indices';
  ys ← comprehension (fun k => c ← centro_de segmentos k; Ok (y c)) indices';
  cx ← py_div_int (py_sum xs) (Z.of_nat (length xs));
  cy ← py_div_int (py_sum ys) (Z.of_nat (length ys));
  Ok {| centroid := QgsPointXY cx cy; indices := indices'; sum_r := sum_r' |}.

(** [for cid, cl in enumerate(clusters)] up to its [break]: [Some] of the
    updated list and the chosen [cid], or [None] when the loop ends with
    [asignado] still false. *)
Fixpoint asignar (segmentos : list Segmento) (idx : nat) (seg : Segmento)
  (pt : Point) (cid : nat) (clusters : list Cluster)
  : result (option (list Cluster * nat)) :=
  match clusters with
  | [] => Ok None
  | cl :: rest =>
      if distance pt (centroid cl) <= dist_agrup prm then
        cl' ← agregar segmentos idx seg cl;
        Ok (Some (cl' :: rest, cid))
      else
        r ← asignar segmentos idx seg pt (S cid) rest;
        Ok (match r with
            | Some (rest', c) => Some (cl :: rest', c)
            | None => None
            end)
  end.

(** The state of the grouping loop: [clusters] and [mapa_cluster]. *)
Definition Agrupacion : Type := (list Cluster * gmap nat nat)%type.

(** The body of [for idx, seg in enumerate(segmentos)].  In [if not pt] a
    point is always true: only [None] is skipped. *)
Definition agrupar_paso (segmentos : list Segmento) (idx_seg : nat * Segmento)
  (st : Agrupacion) : result Agrupacion :=
  let '(idx, seg) := idx_seg in
  let '(clusters, mapa_cluster) := st in
  match centro seg with
  | None => Ok st
  | Some pt =>
      r ← asignar segmentos idx seg pt 0 clusters;
      match r with
      | Some (clusters, cid) => Ok (clusters, <[idx := cid]> mapa_cluster)
      | None =>
          let clusters :=
            clusters ++ [ {| centroid := pt; indices := [idx];
                             sum_r := radio seg |} ] in
          Ok (clusters, <[idx := (length clusters - 1)%nat]> mapa_cluster)
      end
  end.

(** [enumerate(xs)]. *)
Definition enumerate {A : Type} (xs : list A) : list (nat * A) :=
  zip (seq 0 (length xs)) xs.

Definition agrupar (segmentos : list Segmento) : result Agrupacion :=
  if incluir_ctr prm then
    for_each (enumerate segmentos) (agrupar_paso segmentos) ([], ∅)
  else Ok ([], ∅).

(* ------------------------------------------------------------------ *)
(** *** Steps 5 and 6: the two output layers *)

Record Curva : Type := {
  ID_Curva : Z;
  ID_Centroide : Z;
  Radio : F;
  Longitud : F;
  curva_geom : list Point
}.

Record Centroide : Type := {
  ctr_ID_Centroide : Z;
  Radio_medio : F;
  Conteo : Z;
  ctr_geom : Point
}.

(** [mapa_cluster.get(idx, -1)]. *)
Definition get_cluster (mapa_cluster : gmap nat nat) (idx : nat) : Z :=
  match mapa_cluster !! idx with
  | Some cid => Z.of_nat cid
  | None => (-1)%Z
  end.

Definition capa_curvas (segmentos : list Segmento) (mapa_cluster : gmap nat nat)
  : list Curva :=
  map (fun '(idx, seg) =>
         {| ID_Curva := Z.of_nat idx;
            ID_Centroide := get_cluster mapa_cluster idx;
            Radio := radio seg;
            Longitud := long seg;
            curva_geom := geom seg |})
      (enumerate segmentos).

Definition capa_centroides (clusters : list Cluster) : result (list Centroide) :=
  comprehension
    (fun '(cid, cl) =>
       let cnt := length (indices cl) in
       avg ← (if (cnt =? 0)%nat then Ok (of_int 0)
              else py_div_int (sum_r cl) (Z.of_nat cnt));
       Ok {| ctr_ID_Centroide := Z.of_nat cid;
             Radio_medio := avg;
             Conteo := Z.of_nat cnt;
             ctr_geom := centroid cl |})
    (enumerate clusters).

Record Resultado : Type := {
  OUTPUT_CURVES : list Curva;
  OUTPUT_CENTERS : option (list Centroide)
}.

(** [processAlgorithm].  [layer] is the input layer ([None] when the
    parameter does not resolve to one) and [densificar] the host's
    "densify by interval" algorithm. *)
Definition processAlgorithm
  (densificar : F -> list QgsGeometry -> list QgsGeometry)
  (layer : option (list QgsGeometry)) (canceled : Feedback) : result Resultado :=
  match layer with
  | None => Raise QgsProcessingException
  | Some layer =>
      let dens := densificar (intervalo prm) layer in
      segmentos ← extraer canceled dens;
      '(clusters, mapa_cluster) ← agrupar segmentos;
      let curvas := capa_curvas segmentos mapa_cluster in
      if incluir_ctr prm then
        centros ← capa_centroides clusters;
        Ok {| OUTPUT_CURVES := curvas; OUTPUT_CENTERS := Some centros |}
      else Ok {| OUTPUT_CURVES := curvas; OUTPUT_CENTERS := None |}
  end.

End Proceso.

End Script.

Arguments Point F : clear implicits.
Arguments QgsPointXY {F} x y.

Arguments Parametros F : clear implicits.
Arguments QgsGeometry F : clear implicits.
Arguments Segmento F : clear implicits.
Arguments Cluster F : clear implicits.
Arguments Agrupacion F : clear implicits.
Arguments Curva F : clear implicits.
Arguments Centroide F : clear implicits.
Arguments Resultado F : clear implicits.
Arguments Polyline {F} line.
Arguments MultiPolyline {F} lines.


(* ================================================================== *)
(** ** checkParameterValues *)

(** The result of code that indexes a dict: a value, or the [KeyError] of
    the first key that is missing. *)
Inductive dict_result (A : Type) : Type :=
| Found (a : A)
| KeyError (key : string).

Arguments Found {A} a.
Arguments KeyError {A} key.

#[export] Instance dict_result_bind : MBind dict_result :=
  fun A B k m => match m with Found a => k a | KeyError key => KeyError key end.

(** [sep.join(parts)]. *)
Fixpoint join (sep : string) (parts : list string) : string :=
  match parts with
  | [] => ""
  | [s] => s
  | s :: rest => s ++ sep ++ join sep rest
  end.

(** The line feed of ['\n']. *)
Definition salto : string := String (ascii_of_nat 10) "".

(** The names of the parameters. *)
Definition INTERVAL : string := "INTERVAL".
Definition MIN_RADIUS : string := "MIN_RADIUS".
Definition MAX_RADIUS : string := "MAX_RADIUS".
Definition MIN_DIST : string := "MIN_DIST".
Definition CLUSTER_DISTANCE : string := "CLUSTER_DISTANCE".

(** The four messages of [checkParameterValues]. *)
Definition msg_intervalo : string :=
  "• Intervalo de densificación debe ser > 0".
Definition msg_distancia : string :=
  "• Distancia mínima entre vértices no puede ser negativa".
Definition msg_radios : string :=
  "• Radio mínimo debe ser menor que radio máximo".
Definition msg_agrupacion : string :=
  "• Distancia de agrupación debe ser ≥ 0".

Section Validacion.

Context {F : Type} `{PyNum F}.

(** [parameters[key]]: the value of a parameter is a number or [None]. *)
Definition dict_get (parameters : gmap string (option F)) (key : string)
  : dict_result (option F) :=
  match parameters !! key with
  | Some v => Found v
  | None => KeyError key
  end.

(** The list [errores] that [checkParameterValues] builds. *)
Definition errores_de (parameters : gmap string (option F))
  : dict_result (list string) :=
  intervalo ← dict_get parameters INTERVAL;
  md ← dict_get parameters MIN_DIST;
  rmin ← dict_get parameters MIN_RADIUS;
  rmax ← dict_get parameters MAX_RADIUS;
  cd ← dict_get parameters CLUSTER_DISTANCE;
  let errores := [] in
  let errores :=
    if match intervalo with Some v => fleb v (of_int 0) | None => true end
    then errores ++ [msg_intervalo] else errores in
  let errores :=
    if match md with Some v => fltb v (of_int 0) | None => true end
    then errores ++ [msg_distancia] else errores in
  let errores :=
    if match rmin, rmax with
       | Some a, Some b => fleb b a
       | _, _ => true
       end
    then errores ++ [msg_radios] else errores in
  let errores :=
    if match cd with Some v => fltb v (of_int 0) | None => true end
    then errores ++ [msg_agrupacion] else errores in
  Found errores.

(** [checkParameterValues(parameters, context)]. *)
Definition checkParameterValues (parameters : gmap string (option F))
  : dict_result (bool * string) :=
  errores ← errores_de parameters;
  Found (match errores with
         | [] => (true, "")
         | _ => (false, join salto errores)
         end).

End Validacion.

(* ================================================================== *)
(** ** Laws of the arithmetic *)

(** The few facts about the float operations that the proofs rest on, each
    stated over [PyNum].  All are proved for the reals and, from the
    specification of the primitive floats, for binary64. *)

(** Equal numbers are not ordered strictly. *)
Definition ley_igual_no_menor (F : Type) `{PyNum F} : Prop :=
  forall a b : F, feqb a b = true -> fltb a b = false /\ fltb b a = false.

(** A number that is not below the tolerance in absolute value is not zero. *)
Definition ley_tolerancia (F : Type) `{PyNum F} : Prop :=
  forall d : F, fltb (fabs d) lit_1e_9 = false -> feqb d (of_int 0) = false.

(** Four times zero is zero. *)
Definition ley_cuatro_por_cero (F : Type) `{PyNum F} : Prop :=
  forall a : F, feqb a (of_int 0) = true ->
                feqb (fmul (of_int 4) a) (of_int 0) = true.

(** Two numbers are the same number when they are equal or both zero:
    binary64 has two zeros, [0.0] and [-0.0], and they compare equal.
    (Equal is the same value; the binary64 of the embedding has one
    NaN.) *)
Definition mismo_numero {F : Type} `{PyNum F} (a b : F) : Prop :=
  a = b \/ (feqb a (of_int 0) = true /\ feqb b (of_int 0) = true).

(** The mean of one number is that number: [sum([a]) / 1] is [a], up to
    the sign of zero ([sum([-0.0]) / 1] is [0.0]). *)
Definition ley_media_de_uno (F : Type) `{PyNum F} : Prop :=
  forall a : F, mismo_numero (fquot (fadd (of_int 0) a) (of_int 1)) a.

(** A number strictly above [a] is not strictly below a number that is at
    most [a]: from [c <= a] and [a < b], not [b < c]. *)
Definition ley_orden (F : Type) `{PyNum F} : Prop :=
  forall a b c : F, fleb c a = true -> fltb a b = true -> fltb b c = false.

(* ================================================================== *)
(** ** Definitions of the specification *)

(** *** Geometry over the reals *)

Section GeometriaReal.

Local Open Scope R_scope.

(** The squared Euclidean distance. *)
Definition sq_dist (p q : Point R) : R :=
  (x p - x q) * (x p - x q) + (y p - y q) * (y p - y q).

(** The centre computed by [circle_center] when the determinant passes the
    tolerance test. *)
Definition centro_real (p1 p2 p3 : Point R) : Point R :=
  let d := center_det p1 p2 p3 in
  QgsPointXY
    (((x p1 * x p1 + y p1 * y p1) * (y p2 - y p3) +
      (x p2 * x p2 + y p2 * y p2) * (y p3 - y p1) +
      (x p3 * x p3 + y p3 * y p3) * (y p1 - y p2)) / d)
    (((x p1 * x p1 + y p1 * y p1) * (x p3 - x p2) +
      (x p2 * x p2 + y p2 * y p2) * (x p1 - x p3) +
      (x p3 * x p3 + y p3 * y p3) * (x p2 - x p1)) / d).

(** Three points are collinear when the cross product of [p2 - p1] and
    [p3 - p1] vanishes. *)
Definition collinear (p1 p2 p3 : Point R) : Prop :=
  (x p2 - x p1) * (y p3 - y p1) = (x p3 - x p1) * (y p2 - y p1).

(** The value returned by [circle_radius] over the reals. *)
Definition radio_real (p1 p2 p3 : Point R) : R :=
  distance p1 p2 * distance p2 p3 * distance p3 p1 /
  (4 * (Rabs (center_det p1 p2 p3) / 4)).

End GeometriaReal.

(** *** Triplets, clusters and their invariants *)

Section Especificacion.

Context {F : Type} `{PyNum F}.

(** The consecutive triplets of a vertex sequence, as the spec lists them:
    [0,1,2], [1,2,3], [2,3,4], ... *)
Fixpoint tripletas (line : list (Point F)) : list (Point F * Point F * Point F) :=
  match line with
  | p1 :: rest =>
      match rest with
      | p2 :: p3 :: _ => (p1, p2, p3) :: tripletas rest
      | _ => []
      end
  | [] => []
  end.


(** The arithmetic mean of a list of points, coordinate by coordinate:
    [sum / len]. *)
Definition media (cs : list (Point F)) : Point F :=
  QgsPointXY (fquot (py_sum (map x cs)) (of_int (Z.of_nat (length cs))))
             (fquot (py_sum (map y cs)) (of_int (Z.of_nat (length cs)))).

Variable prm : Parametros F.

(** [seg] is the segment that the accepted triplet [(p1, p2, p3)] adds. *)
Definition aceptada (t : Point F * Point F * Point F) (seg : Segmento F) : Prop :=
  let '(p1, p2, p3) := t in
  geom seg = [p1; p2; p3] /\
  fltb (distance p1 p2) (md prm) = false /\
  fltb (distance p2 p3) (md prm) = false /\
  circle_radius p1 p2 p3 = Ok (Some (radio seg)) /\
  fltb (rmin prm) (radio seg) = true /\ fltb (radio seg) (rmax prm) = true.

(** The centre [pt] is within [dist_agrup] of the centroid of [cl]. *)
Definition en_rango (pt : Point F) (cl : Cluster F) : bool :=
  fleb (distance pt (centroid cl)) (dist_agrup prm).

Variable segmentos : list (Segmento F).

(** [c] is the centre of segment number [k]. *)
Definition es_centro (k : nat) (c : Point F) : Prop :=
  exists seg, segmentos !! k = Some seg /\ centro seg = Some c.

(** Two points with the same coordinates, as numbers. *)
Definition mismo_punto (p q : Point F) : Prop :=
  mismo_numero (x p) (x q) /\ mismo_numero (y p) (y q).

(** Every member of the cluster is a segment with a centre. *)
Definition miembros_validos (cl : Cluster F) : Prop :=
  exists cs, Forall2 es_centro (indices cl) cs.

(** The invariant of the spec: the centroid is the mean of the centres of
    the members, coordinate by coordinate and as numbers. *)
Definition centroide_es_media (cl : Cluster F) : Prop :=
  exists cs, Forall2 es_centro (indices cl) cs /\
             mismo_punto (centroid cl) (media cs).

(** The invariant of the grouping loop before the step of index [n]:
    members are segments with a centre and an index below [n], no member
    list repeats an index, and [mapa_cluster] sends an index to a cluster
    exactly when that cluster lists it. *)
Definition inv_asignacion (n : nat) (st : Agrupacion F) : Prop :=
  Forall miembros_validos st.1 /\
  Forall (fun cl => NoDup (indices cl) /\
                    Forall (fun k => (k < n)%nat) (indices cl)) st.1 /\
  (forall idx cid,
      st.2 !! idx = Some cid <->
      exists cl, st.1 !! cid = Some cl /\ idx ∈ indices cl).

End Especificacion.

(** *** The validation of the parameters *)

Section ValidacionSpec.

Context {F : Type} `{PyNum F}.

(** The interval is a number above zero. *)
Definition intervalo_valido (v : option F) : Prop :=
  exists i, v = Some i /\ fleb i (of_int 0) = false.

(** A distance is a number that is not below zero. *)
Definition distancia_valida (v : option F) : Prop :=
  exists m, v = Some m /\ fltb m (of_int 0) = false.

(** The two radii are numbers and it is not so that [rmin >= rmax]. *)
Definition radios_validos (vmin vmax : option F) : Prop :=
  exists a b, vmin = Some a /\ vmax = Some b /\ fleb b a = false.

End ValidacionSpec.

(** The keys that [checkParameterValues] reads, in the order of the
    reads. *)
Definition claves_leidas : list string :=
  [INTERVAL; MIN_DIST; MIN_RADIUS; MAX_RADIUS; CLUSTER_DISTANCE].

(** The default values that [initAlgorithm] declares for the five
    numbers. *)
Definition valores_por_defecto : gmap string (option float) :=
  <[INTERVAL := Some 15.0%float]>
  (<[MIN_RADIUS := Some 2.0%float]>
  (<[MAX_RADIUS := Some 50.0%float]>
  (<[MIN_DIST := Some 0.5%float]>
  (<[CLUSTER_DISTANCE := Some 10.0%float]> ∅)))).

(** *** The clusters as the grouping keeps them *)

Section GruposSpec.

Context {F : Type} `{PyNum F}.

(** The radius sum as the grouping builds it: the radius of the first
    member, then [+=] the radius of each later one. *)
Definition suma_en_orden (rs : list F) : option F :=
  match rs with
  | [] => None
  | r :: rest => Some (fold_left fadd rest r)
  end.

(** A strictly increasing list of indices. *)
Definition creciente (ks : list nat) : Prop :=
  forall i j a b,
    (i < j)%nat -> ks !! i = Some a -> ks !! j = Some b -> (a < b)%nat.

(** The number of segments with a centre. *)
Definition con_centro (segmentos : list (Segmento F)) : nat :=
  length (filter (fun seg => is_Some (centro seg)) segmentos).

Variable segmentos : list (Segmento F).

(** [r] is the radius of segment number [k]. *)
Definition es_radio (k : nat) (r : F) : Prop :=
  exists seg, segmentos !! k = Some seg /\ radio seg = r.

(** A cluster as the grouping keeps it: at least one member, members in
    increasing order, and [sum_r] the sum of their radii. *)
Definition grupo_bien_formado (cl : Cluster F) : Prop :=
  indices cl <> [] /\ creciente (indices cl) /\
  exists rs, Forall2 es_radio (indices cl) rs /\
             suma_en_orden rs = Some (sum_r cl).

(** The second invariant of the grouping loop before the step of index
    [n]: clusters are well formed, their sizes add up to the number of
    centres met, and every segment with a centre met so far is in
    [mapa_cluster]. *)
Definition inv_grupos (n : nat) (st : Agrupacion F) : Prop :=
  Forall grupo_bien_formado st.1 /\
  sum_list_with (fun cl => length (indices cl)) st.1 =
    con_centro (take n segmentos) /\
  (forall idx seg,
      (idx < n)%nat -> segmentos !! idx = Some seg ->
      is_Some (centro seg) -> is_Some (st.2 !! idx)).

End GruposSpec.

(** *** The extraction and the two layers *)

Section ExtraccionSpec.

Context {F : Type} `{PyNum F}.

(** The records that the extraction loop works on: those before the first
    poll of the cancellation that answers true. *)
Fixpoint vistos (canceled : Feedback) (i : nat) (feats : list (QgsGeometry F))
  : list (QgsGeometry F) :=
  match feats with
  | [] => []
  | feat :: rest =>
      if canceled i then [] else feat :: vistos canceled (S i) rest
  end.

(** All the parts of a list of records, in order. *)
Definition todas_las_partes (feats : list (QgsGeometry F))
  : list (list (Point F)) :=
  concat (map partes feats).

Variable prm : Parametros F.

(** [seg] is the segment that the extraction makes of the triplet [t]:
    accepted by the filters, with a radius that is not zero, the length of
    the two edges, and the centre that [circle_center] gives when centres
    are asked for. *)
Definition segmento_de (t : Point F * Point F * Point F) (seg : Segmento F)
  : Prop :=
  let '(p1, p2, p3) := t in
  aceptada prm t seg /\
  feqb (radio seg) (of_int 0) = false /\
  long seg = polyline_length p1 p2 p3 /\
  if incluir_ctr prm then circle_center p1 p2 p3 = Ok (centro seg)
  else centro seg = None.

(** The parameters with the centres switched off. *)
Definition sin_centros : Parametros F :=
  {| intervalo := intervalo prm; rmin := rmin prm; rmax := rmax prm;
     md := md prm; incluir_ctr := false; dist_agrup := dist_agrup prm |}.

(** A curve record with no cluster. *)
Definition sin_centroide (c : Curva F) : Curva F :=
  {| ID_Curva := ID_Curva c; ID_Centroide := (-1)%Z; Radio := Radio c;
     Longitud := Longitud c; curva_geom := curva_geom c |}.

(** A segment without its centre. *)
Definition sin_centro (seg : Segmento F) : Segmento F :=
  {| geom := geom seg; radio := radio seg; long := long seg; centro := None |}.

End ExtraccionSpec.

(* ================================================================== *)
(** ** Binary64 numbers by class and magnitude *)

(** The proofs that bound the results of the binary64 operations look at
    a number through its class, its sign and, when it is finite and not
    zero, its magnitude: the integer [M] with [2^(M-1) <= |x| < 2^M]. *)

Section Vistas.

Local Open Scope Z_scope.

Inductive vista : Type :=
| VNan
| VInf (s : bool)
| VZero (s : bool)
| VFin (s : bool) (M : Z).

(** A number with mantissa [m] and exponent [e] has the magnitude
    [Zdigits2 m + e]. *)
Definition ver_sf (v : spec_float) : vista :=
  match v with
  | S754_nan => VNan
  | S754_infinity s => VInf s
  | S754_zero s => VZero s
  | S754_finite s m e => VFin s (Zdigits2 (Zpos m) + e)
  end.

Definition ver (v : float) : vista := ver_sf (Prim2SF v).

(** What the view of a product can be, given the views of the factors. *)
Definition mul_vista (vx vy vr : vista) : Prop :=
  match vx, vy with
  | VNan, _ => vr = VNan
  | _, VNan => vr = VNan
  | VInf sx, VInf sy => vr = VInf (xorb sx sy)
  | VInf sx, VFin sy _ => vr = VInf (xorb sx sy)
  | VFin sx _, VInf sy => vr = VInf (xorb sx sy)
  | VInf _, VZero _ => vr = VNan
  | VZero _, VInf _ => vr = VNan
  | VFin sx _, VZero sy => vr = VZero (xorb sx sy)
  | VZero sx, VFin sy _ => vr = VZero (xorb sx sy)
  | VZero sx, VZero sy => vr = VZero (xorb sx sy)
  | VFin sx Mx, VFin sy My =>
      vr = VZero (xorb sx sy) \/
      (vr = VInf (xorb sx sy) /\ 1024 <= Mx + My) \/
      exists M, vr = VFin (xorb sx sy) M /\
                Mx + My - 1 <= M <= Z.max (Mx + My) (-1074) + 1
  end.

(** What the view of a quotient can be. *)
Definition div_vista (vx vy vr : vista) : Prop :=
  match vx, vy with
  | VNan, _ => vr = VNan
  | _, VNan => vr = VNan
  | VInf _, VInf _ => vr = VNan
  | VInf sx, VFin sy _ => vr = VInf (xorb sx sy)
  | VFin sx _, VInf sy => vr = VZero (xorb sx sy)
  | VInf sx, VZero sy => vr = VInf (xorb sx sy)
  | VZero sx, VInf sy => vr = VZero (xorb sx sy)
  | VFin sx _, VZero sy => vr = VInf (xorb sx sy)
  | VZero sx, VFin sy _ => vr = VZero (xorb sx sy)
  | VZero _, VZero _ => vr = VNan
  | VFin sx Mx, VFin sy My =>
      vr = VZero (xorb sx sy) \/
      (vr = VInf (xorb sx sy) /\ 1023 <= Mx - My) \/
      exists M, vr = VFin (xorb sx sy) M /\
                Mx - My <= M <= Z.max (Mx - My + 1) (-1074) + 1
  end.

(** What the view of a square root can be. *)
Definition sqrt_vista (vx vr : vista) : Prop :=
  match vx with
  | VNan => vr = VNan
  | VInf false => vr = VInf false
  | VInf true => vr = VNan
  | VZero s => vr = VZero s
  | VFin true _ => vr = VNan
  | VFin false M =>
      vr = VZero false \/ vr = VInf false \/
      exists M', vr = VFin false M' /\ M <= 2 * M'
  end.

(** A number that is not below zero: a zero, a positive finite number or
    the positive infinity. *)
Definition no_neg (v : vista) : Prop :=
  match v with
  | VNan => False
  | VInf s => s = false
  | VZero _ => True
  | VFin s _ => s = false
  end.

(** The same, or not a number. *)
Definition no_neg_o_nan (v : vista) : Prop :=
  match v with
  | VNan => True
  | VInf s => s = false
  | VZero _ => True
  | VFin s _ => s = false
  end.

(** Infinite, or finite and not zero. *)
Definition inf_o_fin (v : vista) : Prop :=
  match v with
  | VInf _ | VFin _ _ => True
  | _ => False
  end.

(** Not a number, a zero, or a positive finite number: never an infinity,
    never below zero. *)
Definition bien (v : vista) : Prop :=
  match v with
  | VInf _ => False
  | VFin s _ => s = false
  | _ => True
  end.

(** A zero, or a finite number of magnitude at most [K]. *)
Definition acotada (K : Z) (v : vista) : Prop :=
  match v with
  | VZero _ => True
  | VFin _ M => M <= K
  | _ => False
  end.

(** A finite number that is not below zero. *)
Definition finita_no_neg (v : vista) : Prop :=
  match v with
  | VZero _ => True
  | VFin s _ => s = false
  | _ => False
  end.

(** The coordinates of the point are below 2^200 in absolute value. *)
Definition moderado (p : Point float) : bool :=
  PrimFloat.ltb (PrimFloat.abs (x p)) 0x1p200%float &&
  PrimFloat.ltb (PrimFloat.abs (y p)) 0x1p200%float.

(** *** Exact values *)




End Vistas.

(* ================================================================== *)
(** ** The laws hold *)

(** Reduces the binds whose left side is a value or a raise. *)
Tactic Notation "py_bind" := cbn [mbind result_bind bind].
Tactic Notation "py_bind" "in" hyp(H) := cbn [mbind result_bind bind] in H.

(* ------------------------------------------------------------------ *)
(** *** Binary64 *)

Lemma SFcompare_Eq_sym (f g : spec_float) :
  SFcompare f g = Some Eq -> SFcompare g f = Some Eq.
Proof.
  assert (Hpos : forall m1 m2, Pos.compare_cont Eq m1 m2 = Eq -> m1 = m2)
    by (intros m1 m2; apply Pos.compare_eq).
  destruct f as [s1|s1| |s1 m1 e1], g as [s2|s2| |s2 m2 e2]; simpl;
    try discriminate; try reflexivity;
    try (destruct s1; discriminate); try (destruct s2; discriminate);
    try (destruct s1, s2; (discriminate || reflexivity)).
  destruct s1, s2; try discriminate;
    destruct (Z.compare e1 e2) eqn:He; try discriminate;
    apply Z.compare_eq in He; subst e2; rewrite Z.compare_refl;
    destruct (Pos.compare_cont Eq m1 m2) eqn:Hm; try discriminate;
    apply Hpos in Hm; subst m2; intros _;
    change (Pos.compare_cont Eq m1 m1) with (Pos.compare m1 m1);
    now rewrite Pos.compare_refl.
Qed.

Lemma float64_igual_no_menor : ley_igual_no_menor float.
Proof.
  intros a b. cbn [feqb fltb PyFloat64].
  rewrite FloatAxioms.eqb_spec, !FloatAxioms.ltb_spec. unfold SFeqb, SFltb.
  destruct (SFcompare (Prim2SF a) (Prim2SF b)) as [[| |]|] eqn:Hab;
    try discriminate.
  intros _. now rewrite (SFcompare_Eq_sym _ _ Hab).
Qed.

Lemma SFeqb_zero_inv (f : spec_float) :
  SFeqb f (S754_zero false) = true -> exists s, f = S754_zero s.
Proof.
  destruct f as [s|s| |s m e]; unfold SFeqb; simpl; try discriminate.
  - now exists s.
  - destruct s; discriminate.
  - destruct s; discriminate.
Qed.

Lemma Prim2SF_cero : Prim2SF (of_int 0) = S754_zero false.
Proof. reflexivity. Qed.

Lemma float64_tolerancia : ley_tolerancia float.
Proof.
  intros d. cbn [fltb feqb fabs PyFloat64].
  rewrite FloatAxioms.eqb_spec, FloatAxioms.ltb_spec, FloatAxioms.abs_spec,
    Prim2SF_cero.
  destruct (SFeqb (Prim2SF d) (S754_zero false)) eqn:Hz; [|reflexivity].
  apply SFeqb_zero_inv in Hz. destruct Hz as [s ->].
  vm_compute. discriminate.
Qed.

Lemma float64_cuatro_por_cero : ley_cuatro_por_cero float.
Proof.
  intros a. cbn [fmul feqb PyFloat64].
  rewrite !FloatAxioms.eqb_spec, FloatAxioms.mul_spec, Prim2SF_cero.
  intros Hz. apply SFeqb_zero_inv in Hz. destruct Hz as [s ->].
  destruct s; reflexivity.
Qed.

(* ------------------------------------------------------------------ *)
(** *** Binary64 by magnitude *)

(** Bounds on the magnitude of the results of the binary64 operations,
    from the specification of the primitive floats ([SpecFloat]): enough
    to follow overflow and underflow through the formulas of the
    script. *)

Section Binary64.

Local Open Scope Z_scope.

(** *** Binary digits *)

Lemma digits2_size (p : positive) : digits2_pos p = Pos.size p.
Proof. induction p; cbn; congruence. Qed.

Lemma Zdigits2_log2 (p : positive) : Zdigits2 (Zpos p) = Z.log2 (Zpos p) + 1.
Proof.
  cbn [Zdigits2]. rewrite digits2_size.
  destruct p; cbn [Pos.size Z.log2]; lia.
Qed.

Lemma Zdigits2_0 : Zdigits2 0 = 0.
Proof. reflexivity. Qed.

Lemma Zdigits2_nonneg (m : Z) : 0 <= Zdigits2 m.
Proof. destruct m; cbn; lia. Qed.

Lemma Zdigits2_pos (m : Z) : 0 < m -> 0 < Zdigits2 m.
Proof. destruct m; cbn; lia. Qed.

(** [2^(d-1) <= m < 2^d] for [d = Zdigits2 m] and [m > 0]. *)
Lemma Zdigits2_spec (m : Z) :
  0 < m -> 2 ^ (Zdigits2 m - 1) <= m < 2 ^ Zdigits2 m.
Proof.
  intros Hm. destruct m as [|p|p]; try lia.
  rewrite Zdigits2_log2.
  replace (Z.log2 (Z.pos p) + 1 - 1) with (Z.log2 (Z.pos p)) by lia.
  replace (Z.log2 (Z.pos p) + 1) with (Z.succ (Z.log2 (Z.pos p))) by lia.
  apply Z.log2_spec. lia.
Qed.

Lemma Zdigits2_unique (m d : Z) :
  0 < m -> 2 ^ (d - 1) <= m < 2 ^ d -> Zdigits2 m = d.
Proof.
  intros Hm [Hlo Hhi]. destruct m as [|p|p]; try lia.
  rewrite Zdigits2_log2.
  assert (Hd : 0 < d).
  { destruct (Z.le_gt_cases d 0) as [Hd|Hd]; [|exact Hd].
    exfalso. assert (2 ^ d <= 1); [|lia].
    destruct (Z.eq_dec d 0) as [->|]; [cbn; lia|].
    rewrite Z.pow_neg_r by lia. lia. }
  assert (Z.log2 (Z.pos p) = d - 1); [|lia].
  apply Z.log2_unique; [lia|]. replace (Z.succ (d - 1)) with d by lia. lia.
Qed.

Lemma Zdigits2_le (m k : Z) : 0 < m -> m < 2 ^ k -> Zdigits2 m <= k.
Proof.
  intros Hm Hk. destruct (Zdigits2_spec m Hm) as [Hlo _].
  destruct (Z.le_gt_cases (Zdigits2 m) k) as [|Hgt]; [assumption|exfalso].
  assert (2 ^ k <= 2 ^ (Zdigits2 m - 1)); [|lia].
  apply Z.pow_le_mono_r; lia.
Qed.

Lemma Zdigits2_ge (m k : Z) : 0 <= k -> 2 ^ k <= m -> k + 1 <= Zdigits2 m.
Proof.
  intros Hk Hm.
  assert (Hpos : 0 < m) by (pose proof (Z.pow_pos_nonneg 2 k); lia).
  destruct (Zdigits2_spec m Hpos) as [_ Hhi].
  destruct (Z.le_gt_cases (k + 1) (Zdigits2 m)) as [|Hlt]; [assumption|exfalso].
  assert (2 ^ Zdigits2 m <= 2 ^ k); [|lia].
  apply Z.pow_le_mono_r; lia.
Qed.

Lemma Zdigits2_mono (m n : Z) : 0 < m -> m <= n -> Zdigits2 m <= Zdigits2 n.
Proof.
  intros Hm Hmn. apply Zdigits2_le; [exact Hm|].
  destruct (Zdigits2_spec n) as [_ Hhi]; lia.
Qed.

(** Digits of a quotient by a power of two. *)
Lemma Zdigits2_shiftr (m n : Z) :
  0 < m -> 0 <= n -> n < Zdigits2 m ->
  0 < m / 2 ^ n /\ Zdigits2 (m / 2 ^ n) = Zdigits2 m - n.
Proof.
  intros Hm Hn Hlt. destruct (Zdigits2_spec m Hm) as [Hlo Hhi].
  assert (H2 : 0 < 2 ^ n) by (apply Z.pow_pos_nonneg; lia).
  assert (Hq : 2 ^ (Zdigits2 m - n - 1) <= m / 2 ^ n < 2 ^ (Zdigits2 m - n)).
  { split.
    - apply Z.div_le_lower_bound; [lia|].
      rewrite <- Z.pow_add_r by lia.
      replace (n + (Zdigits2 m - n - 1)) with (Zdigits2 m - 1) by lia. lia.
    - apply Z.div_lt_upper_bound; [lia|].
      rewrite <- Z.pow_add_r by lia.
      replace (n + (Zdigits2 m - n)) with (Zdigits2 m) by lia. lia. }
  assert (Hpos : 0 < m / 2 ^ n).
  { pose proof (Z.pow_pos_nonneg 2 (Zdigits2 m - n - 1)). lia. }
  split; [exact Hpos|]. now apply Zdigits2_unique.
Qed.

Lemma Zdigits2_shiftr_0 (m n : Z) :
  0 <= m -> Zdigits2 m <= n -> m / 2 ^ n = 0.
Proof.
  intros Hm Hn. destruct (Z.eq_dec m 0) as [->|Hne].
  - apply Z.div_0_l. pose proof (Zdigits2_nonneg 0).
    assert (0 < 2 ^ n); [apply Z.pow_pos_nonneg|]; lia.
  - apply Z.div_small. destruct (Zdigits2_spec m) as [_ Hhi]; [lia|].
    split; [lia|]. eapply Z.lt_le_trans; [exact Hhi|].
    pose proof (Zdigits2_nonneg m). apply Z.pow_le_mono_r; lia.
Qed.

Lemma Zdigits2_succ (m : Z) :
  0 <= m -> Zdigits2 m <= Zdigits2 (m + 1) <= Zdigits2 m + 1.
Proof.
  intros Hm. destruct (Z.eq_dec m 0) as [->|Hne]; [vm_compute; split; discriminate|].
  split.
  - apply Zdigits2_mono; lia.
  - apply Zdigits2_le; [lia|]. destruct (Zdigits2_spec m) as [_ Hhi]; [lia|].
    rewrite Z.pow_add_r by (pose proof (Zdigits2_nonneg m); lia). lia.
Qed.

Lemma Zdigits2_mul (m n : Z) :
  0 < m -> 0 < n ->
  Zdigits2 m + Zdigits2 n - 1 <= Zdigits2 (m * n) <= Zdigits2 m + Zdigits2 n.
Proof.
  intros Hm Hn.
  destruct (Zdigits2_spec m Hm) as [Hml Hmh].
  destruct (Zdigits2_spec n Hn) as [Hnl Hnh].
  pose proof (Zdigits2_pos m Hm). pose proof (Zdigits2_pos n Hn).
  split.
  - assert (Zdigits2 m + Zdigits2 n - 2 + 1 <= Zdigits2 (m * n)); [|lia].
    apply Zdigits2_ge; [lia|].
    replace (Zdigits2 m + Zdigits2 n - 2)
      with ((Zdigits2 m - 1) + (Zdigits2 n - 1)) by lia.
    rewrite Z.pow_add_r by lia. apply Z.mul_le_mono_nonneg; try lia;
      apply Z.pow_nonneg; lia.
  - apply Zdigits2_le; [lia|]. rewrite Z.pow_add_r by lia.
    apply Z.mul_lt_mono_nonneg; lia.
Qed.

(** *** Rounding: the shift and its mantissa *)

Ltac pow_side :=
  first [ lia
        | apply Z.pow_pos_nonneg; lia
        | apply Z.pow_nonzero; lia
        | apply Z.lt_le_incl, Z.pow_pos_nonneg; lia ].

Lemma shr_1_m (mrs : shr_record) :
  0 <= shr_m mrs -> shr_m (shr_1 mrs) = shr_m mrs / 2.
Proof.
  destruct mrs as [m r s]. cbn [shr_m shr_1]. intros Hm.
  destruct m as [|[p|p|]|p]; cbn [shr_m]; try lia.
  - reflexivity.
  - rewrite Pos2Z.inj_xI. apply Z.div_unique with 1; lia.
  - rewrite Pos2Z.inj_xO. apply Z.div_unique with 0; lia.
  - reflexivity.
Qed.

Lemma shr_1_nonneg (mrs : shr_record) : 0 <= shr_m mrs -> 0 <= shr_m (shr_1 mrs).
Proof.
  intros Hm. rewrite shr_1_m by exact Hm. apply Z.div_pos; lia.
Qed.

Lemma iter_shr_1_m (p : positive) (mrs : shr_record) :
  0 <= shr_m mrs ->
  shr_m (SpecFloat.iter_pos shr_1 p mrs) = shr_m mrs / 2 ^ Zpos p.
Proof.
  revert mrs. induction p as [p IH|p IH|]; intros mrs Hm; cbn [SpecFloat.iter_pos].
  - assert (H1 : 0 <= shr_m (shr_1 mrs)) by now apply shr_1_nonneg.
    assert (H2 : 0 <= shr_m (SpecFloat.iter_pos shr_1 p (shr_1 mrs))).
    { rewrite IH by exact H1. apply Z.div_pos; [lia|].
      apply Z.pow_pos_nonneg; lia. }
    rewrite IH by exact H2. rewrite IH by exact H1. rewrite shr_1_m by exact Hm.
    rewrite !Z.div_div by pow_side.
    f_equal. rewrite Pos2Z.inj_xI.
    replace (2 * Z.pos p + 1) with (1 + (Z.pos p + Z.pos p)) by lia.
    rewrite !Z.pow_add_r by lia. rewrite Z.pow_1_r. reflexivity.
  - assert (H2 : 0 <= shr_m (SpecFloat.iter_pos shr_1 p mrs)).
    { rewrite IH by exact Hm. apply Z.div_pos; [lia|].
      apply Z.pow_pos_nonneg; lia. }
    rewrite IH by exact H2. rewrite IH by exact Hm.
    rewrite Z.div_div by pow_side.
    f_equal. change (Z.pos p~0) with (2 * Z.pos p).
    replace (2 * Z.pos p) with (Z.pos p + Z.pos p) by lia.
    rewrite Z.pow_add_r by lia. reflexivity.
  - rewrite shr_1_m by exact Hm. reflexivity.
Qed.

Lemma shr_record_of_loc_m (m : Z) (l : location) :
  shr_m (shr_record_of_loc m l) = m.
Proof. destruct l as [|[]]; reflexivity. Qed.

(** The mantissa and the exponent after [shr_fexp]. *)
Lemma shr_fexp_spec (m e : Z) (l : location) :
  0 <= m ->
  let n := fexp prec emax (Zdigits2 m + e) - e in
  let '(mrs, e') := shr_fexp prec emax m e l in
  (0 < n -> shr_m mrs = m / 2 ^ n /\ e' = e + n) /\
  (n <= 0 -> shr_m mrs = m /\ e' = e).
Proof.
  intros Hm n. unfold shr_fexp, shr. fold n.
  destruct n as [|p|p] eqn:Hn.
  - split; [lia|]. intros _. now rewrite shr_record_of_loc_m.
  - split; [|lia]. intros _. rewrite iter_shr_1_m
      by (rewrite shr_record_of_loc_m; exact Hm).
    now rewrite shr_record_of_loc_m.
  - split; [lia|]. intros _. now rewrite shr_record_of_loc_m.
Qed.

Lemma round_nearest_even_cases (m : Z) (l : location) :
  round_nearest_even m l = m \/ round_nearest_even m l = m + 1.
Proof.
  destruct l as [|[]]; cbn; auto. destruct (Z.even m); auto.
Qed.

Lemma fexp_mono (a b : Z) : a <= b -> fexp prec emax a <= fexp prec emax b.
Proof. unfold fexp, emin. cbn. lia. Qed.

Lemma fexp_eq (a : Z) : fexp prec emax a = Z.max (a - 53) (-1074).
Proof. reflexivity. Qed.

(** What [binary_round_aux] returns on a mantissa [m >= 0] with exponent
    [e]: a zero, an infinity or a finite number of the given sign, whose
    magnitude [Zdigits2 m' + e'] is that of the input or one more. *)
Lemma binary_round_aux_bounds (sx : bool) (m e : Z) (l : location) :
  0 <= m ->
  let M := Zdigits2 m + e in
  match binary_round_aux prec emax sx m e l with
  | S754_zero s => s = sx
  | S754_infinity s =>
      s = sx /\ (e <= fexp prec emax M -> 1024 <= M)
  | S754_nan => False
  | S754_finite s m' e' =>
      s = sx /\
      (0 < m -> M <= Zdigits2 (Zpos m') + e') /\
      Zdigits2 (Zpos m') + e' <= Z.max M (-1074) + 1
  end.
Proof.
  intros Hm M. unfold binary_round_aux.
  pose proof (shr_fexp_spec m e l Hm) as H1. cbv zeta in H1.
  destruct (shr_fexp prec emax m e l) as [mrs1 e1].
  set (n1 := fexp prec emax (Zdigits2 m + e) - e) in *.
  set (r1 := round_nearest_even (shr_m mrs1) (loc_of_shr_record mrs1)).
  assert (Hm1 : 0 <= shr_m mrs1).
  { destruct (Z.lt_ge_cases 0 n1) as [Hn|Hn].
    - destruct H1 as [H1 _]. destruct (H1 Hn) as [-> _].
      apply Z.div_pos; [lia|]. apply Z.pow_pos_nonneg; lia.
    - destruct H1 as [_ H1]. destruct (H1 Hn) as [-> _]. lia. }
  assert (Hr1 : r1 = shr_m mrs1 \/ r1 = shr_m mrs1 + 1)
    by apply round_nearest_even_cases.
  assert (Hr1pos : 0 <= r1) by lia.
  pose proof (shr_fexp_spec r1 e1 loc_Exact Hr1pos) as H2. cbv zeta in H2.
  destruct (shr_fexp prec emax r1 e1 loc_Exact) as [mrs2 e2].
  set (n2 := fexp prec emax (Zdigits2 r1 + e1) - e1) in *.
  (* the magnitude after the first shift *)
  assert (HM1 : 0 < m ->
                (0 < shr_m mrs1 /\ Zdigits2 (shr_m mrs1) + e1 = M) \/
                (shr_m mrs1 = 0 /\ e1 = -1074 /\ M <= -1074)).
  { intros Hpos. destruct (Z.lt_ge_cases 0 n1) as [Hn|Hn].
    - destruct H1 as [H1 _]. destruct (H1 Hn) as [Hm1eq ->].
      destruct (Z.lt_ge_cases n1 (Zdigits2 m)) as [Hlt|Hge].
      + left. rewrite Hm1eq.
        destruct (Zdigits2_shiftr m n1 Hpos ltac:(lia) Hlt) as [Hq ->].
        split; [exact Hq|]. unfold M. lia.
      + right. rewrite Hm1eq.
        rewrite Zdigits2_shiftr_0 by lia.
        unfold n1 in *. rewrite fexp_eq in *. fold M in Hge, Hn |- *.
        split; [reflexivity|]. unfold M in *. lia.
    - destruct H1 as [_ H1]. destruct (H1 Hn) as [-> ->].
      left. split; [exact Hpos|reflexivity]. }
  assert (He1 : e1 = Z.max e (fexp prec emax M)).
  { destruct (Z.lt_ge_cases 0 n1) as [Hn|Hn].
    - destruct H1 as [H1 _]. destruct (H1 Hn) as [_ ->]. unfold n1 in *.
      fold M in Hn |- *. lia.
    - destruct H1 as [_ H1]. destruct (H1 Hn) as [_ ->]. unfold n1 in *.
      fold M in Hn |- *. lia. }
  (* the final mantissa *)
  assert (Hfin : forall p, shr_m mrs2 = Zpos p ->
                 0 < r1 /\ Zdigits2 (Zpos p) + e2 = Zdigits2 r1 + e1 /\
                 e2 = Z.max e1 (fexp prec emax (Zdigits2 r1 + e1))).
  { intros p Hp. destruct (Z.lt_ge_cases 0 n2) as [Hn|Hn].
    - destruct H2 as [H2 _]. destruct (H2 Hn) as [Hm2 ->].
      assert (Hr : 0 < r1).
      { destruct (Z.eq_dec r1 0) as [Hz|]; [|lia].
        rewrite Hz, Z.div_0_l in Hm2 by
          (assert (0 < 2 ^ n2); [apply Z.pow_pos_nonneg|]; lia). lia. }
      destruct (Z.lt_ge_cases n2 (Zdigits2 r1)) as [Hlt|Hge].
      + destruct (Zdigits2_shiftr r1 n2 Hr ltac:(lia) Hlt) as [_ Hd].
        rewrite <- Hp, Hm2, Hd. unfold n2 in *. repeat split; lia.
      + rewrite Zdigits2_shiftr_0 in Hm2 by lia. lia.
    - destruct H2 as [_ H2]. destruct (H2 Hn) as [Hm2 ->].
      rewrite <- Hp, Hm2. unfold n2 in *. repeat split; lia. }
  destruct (shr_m mrs2) as [|p|p] eqn:Hm2.
  - reflexivity.
  - destruct (Hfin p eq_refl) as (Hr & HM2 & He2).
    assert (Hlow : 0 < m -> M <= Zdigits2 (Z.pos p) + e2).
    { intros Hpos. rewrite HM2. destruct (HM1 Hpos) as [[Hq HM]|(Hz & -> & HM)].
      - rewrite <- HM.
        assert (Zdigits2 (shr_m mrs1) <= Zdigits2 r1); [|lia].
        apply Zdigits2_mono; lia.
      - pose proof (Zdigits2_pos r1 Hr). lia. }
    assert (Hup : Zdigits2 (Z.pos p) + e2 <= Z.max M (-1074) + 1).
    { rewrite HM2. destruct (Z.eq_dec m 0) as [Hz|Hnz].
      - (* m = 0: the mantissa after the shift is 0 *)
        assert (Hs0 : shr_m mrs1 = 0).
        { destruct (Z.lt_ge_cases 0 n1) as [Hn|Hn].
          - destruct H1 as [H1 _]. destruct (H1 Hn) as [-> _]. subst m.
            apply Z.div_0_l.
            assert (0 < 2 ^ n1); [apply Z.pow_pos_nonneg|]; lia.
          - destruct H1 as [_ H1]. destruct (H1 Hn) as [-> _]. exact Hz. }
        assert (r1 = 1) as -> by lia. cbn [Zdigits2 digits2_pos].
        subst m. unfold M in *. cbn [Zdigits2] in *. rewrite fexp_eq in He1.
        lia.
      - destruct (HM1 ltac:(lia)) as [[Hq HM]|(Hz & -> & HM)].
        + rewrite <- HM.
          assert (Zdigits2 r1 <= Zdigits2 (shr_m mrs1) + 1); [|lia].
          destruct Hr1 as [->| ->]; [lia|]. apply Zdigits2_succ. lia.
        + assert (r1 = 1) as -> by lia. cbn [Zdigits2 digits2_pos]. lia. }
    destruct (e2 <=? emax - prec) eqn:Hle.
    + split; [reflexivity|]. split; [exact Hlow|exact Hup].
    + split; [reflexivity|]. intros Hcanon.
      apply Z.leb_gt in Hle. change (emax - prec) with 971 in Hle.
      assert (He1' : e1 = fexp prec emax M) by lia.
      pose proof (Zdigits2_pos (Z.pos p) ltac:(lia)) as Hdp.
      rewrite fexp_eq in *. 
      destruct (Z.eq_dec m 0) as [Hz|Hnz].
      * subst m. unfold M in *. cbn [Zdigits2] in *. lia.
      * lia.
  - exfalso. destruct (Z.lt_ge_cases 0 n2) as [Hn|Hn].
    + destruct H2 as [H2 _]. destruct (H2 Hn) as [Hm2' _].
      assert (0 <= r1 / 2 ^ n2); [|lia].
      apply Z.div_pos; [lia|]. apply Z.pow_pos_nonneg; lia.
    + destruct H2 as [_ H2]. destruct (H2 Hn) as [Hm2' _]. lia.
Qed.

(** Finite results carry more than the exponent they were given. *)
Lemma binary_round_aux_exp (sx : bool) (m e : Z) (l : location) :
  0 <= m ->
  match binary_round_aux prec emax sx m e l with
  | S754_finite _ m' e' => e < Zdigits2 (Zpos m') + e'
  | _ => True
  end.
Proof.
  intros Hm. unfold binary_round_aux.
  pose proof (shr_fexp_spec m e l Hm) as H1. cbv zeta in H1.
  destruct (shr_fexp prec emax m e l) as [mrs1 e1].
  set (n1 := fexp prec emax (Zdigits2 m + e) - e) in *.
  set (r1 := round_nearest_even (shr_m mrs1) (loc_of_shr_record mrs1)).
  assert (Hm1 : 0 <= shr_m mrs1 /\ e <= e1).
  { destruct (Z.lt_ge_cases 0 n1) as [Hn|Hn].
    - destruct H1 as [H1 _]. destruct (H1 Hn) as [-> ->].
      split; [|lia]. apply Z.div_pos; pow_side.
    - destruct H1 as [_ H1]. destruct (H1 Hn) as [-> ->]. lia. }
  assert (Hr1 : r1 = shr_m mrs1 \/ r1 = shr_m mrs1 + 1)
    by apply round_nearest_even_cases.
  assert (Hr1pos : 0 <= r1) by lia.
  pose proof (shr_fexp_spec r1 e1 loc_Exact Hr1pos) as H2. cbv zeta in H2.
  destruct (shr_fexp prec emax r1 e1 loc_Exact) as [mrs2 e2].
  set (n2 := fexp prec emax (Zdigits2 r1 + e1) - e1) in *.
  destruct (shr_m mrs2) as [|p|p] eqn:Hm2; [exact I| |exact I].
  destruct (e2 <=? emax - prec); [|exact I].
  pose proof (Zdigits2_pos (Z.pos p) ltac:(lia)) as Hdp.
  destruct (Z.lt_ge_cases 0 n2) as [Hn|Hn].
  - destruct H2 as [H2 _]. destruct (H2 Hn) as [_ ->]. lia.
  - destruct H2 as [_ H2]. destruct (H2 Hn) as [_ ->]. lia.
Qed.

(** *** Valid numbers *)

(** A finite number has a canonical mantissa and an exponent within range. *)
Lemma valid_finite (x : float) (s : bool) (m : positive) (e : Z) :
  Prim2SF x = S754_finite s m e ->
  e = fexp prec emax (Zdigits2 (Zpos m) + e) /\ e <= 971.
Proof.
  intros Hx. pose proof (FloatAxioms.Prim2SF_valid x) as Hv. rewrite Hx in Hv.
  cbn [valid_binary] in Hv. unfold bounded, canonical_mantissa in Hv.
  apply andb_prop in Hv. destruct Hv as [Hc Hb].
  apply Z.eqb_eq in Hc. apply Z.leb_le in Hb.
  change (emax - prec) with 971 in Hb.
  split; [|exact Hb]. symmetry. exact Hc.
Qed.

Lemma ver_fin_inv (x : float) (s : bool) (M : Z) :
  ver x = VFin s M ->
  exists m e, Prim2SF x = S754_finite s m e /\ M = Zdigits2 (Zpos m) + e.
Proof.
  unfold ver, ver_sf.
  destruct (Prim2SF x) as [| | |s' m e]; try discriminate.
  intros Heq. injection Heq as Hs HM. subst s'. exists m, e. now split.
Qed.

Lemma ver_fin (x : float) (s : bool) (m : positive) (e : Z) :
  Prim2SF x = S754_finite s m e -> ver x = VFin s (Zdigits2 (Zpos m) + e).
Proof. unfold ver. now intros ->. Qed.

(** Magnitudes lie between -1073 and 1024. *)
Lemma ver_fin_range (x : float) (s : bool) (M : Z) :
  ver x = VFin s M -> -1073 <= M <= 1024.
Proof.
  intros Hv. destruct (ver_fin_inv x s M Hv) as (m & e & Hx & ->).
  destruct (valid_finite x s m e Hx) as [He Hb].
  rewrite fexp_eq in He. pose proof (Zdigits2_pos (Z.pos m) ltac:(lia)).
  lia.
Qed.

(** *** Left shifts *)

Lemma iter_xO (d m : positive) :
  Zpos (Pos.iter xO m d) = Zpos m * 2 ^ Zpos d.
Proof.
  induction d as [|d IH] using Pos.peano_ind.
  - cbn. lia.
  - rewrite Pos.iter_succ, Pos2Z.inj_xO, IH, Pos2Z.inj_succ, Z.pow_succ_r by lia.
    lia.
Qed.

Lemma shl_align_spec (m : positive) (e e' : Z) :
  let '(m', e'') := shl_align m e e' in
  (e' < e -> e'' = e' /\ Zpos m' = Zpos m * 2 ^ (e - e')) /\
  (e <= e' -> e'' = e /\ m' = m).
Proof.
  unfold shl_align. destruct (e' - e) as [|d|d] eqn:Hd.
  - split; [lia|]. now intros _.
  - split; [lia|]. now intros _.
  - split; [|lia]. intros _. split; [reflexivity|].
    rewrite iter_xO. f_equal. f_equal. lia.
Qed.

Lemma Zdigits2_shiftl (m k : Z) :
  0 < m -> 0 <= k -> Zdigits2 (m * 2 ^ k) = Zdigits2 m + k.
Proof.
  intros Hm Hk. destruct (Zdigits2_spec m Hm) as [Hlo Hhi].
  pose proof (Zdigits2_pos m Hm) as Hd.
  assert (H2 : 0 < 2 ^ k) by pow_side.
  apply Zdigits2_unique; [nia|].
  replace (Zdigits2 m + k - 1) with ((Zdigits2 m - 1) + k) by lia.
  rewrite !Z.pow_add_r by lia. nia.
Qed.

(** [binary_round] keeps the magnitude of what it is given. *)
Lemma binary_round_bounds (sx : bool) (m : positive) (e : Z) :
  let M := Zdigits2 (Zpos m) + e in
  match binary_round prec emax sx m e with
  | S754_zero s => s = sx
  | S754_infinity s => s = sx /\ 1024 <= M
  | S754_nan => False
  | S754_finite s m' e' =>
      s = sx /\ M <= Zdigits2 (Zpos m') + e' <= Z.max M (-1074) + 1
  end.
Proof.
  intros M. unfold binary_round.
  pose proof (shl_align_spec m e (fexp prec emax (Zpos (digits2_pos m) + e)))
    as Hal.
  destruct (shl_align m e _) as [mz ez].
  change (Zpos (digits2_pos m)) with (Zdigits2 (Zpos m)) in Hal.
  fold M in Hal.
  assert (HM : Zdigits2 (Zpos mz) + ez = M /\ ez <= fexp prec emax M).
  { destruct (Z.lt_ge_cases (fexp prec emax M) e) as [Hlt|Hge].
    - destruct Hal as [Hal _]. destruct (Hal Hlt) as [-> ->].
      rewrite Zdigits2_shiftl by lia. split; [subst M; lia|lia].
    - destruct Hal as [_ Hal]. destruct (Hal Hge) as [-> ->].
      split; [reflexivity|exact Hge]. }
  destruct HM as [HM Hcanon].
  pose proof (binary_round_aux_bounds sx (Zpos mz) ez loc_Exact ltac:(lia))
    as Hb. cbv zeta in Hb. rewrite HM in Hb.
  destruct (binary_round_aux prec emax sx (Z.pos mz) ez loc_Exact)
    as [s|s| |s m' e']; try exact Hb.
  - destruct Hb as [Hs Hinf]. split; [exact Hs|]. apply Hinf. exact Hcanon.
  - destruct Hb as (Hs & Hlo & Hhi). split; [exact Hs|]. split; [|exact Hhi].
    apply Hlo. lia.
Qed.

(** *** The operations on views *)

(** The view of a product. *)
Lemma ver_mul (x y : float) : mul_vista (ver x) (ver y) (ver (x * y)).
Proof.
  unfold ver at 3. rewrite FloatAxioms.mul_spec. unfold SF64mul.
  destruct (Prim2SF x) as [sx|sx| |sx mx ex] eqn:Hx;
    destruct (Prim2SF y) as [sy|sy| |sy my ey] eqn:Hy;
    unfold ver; rewrite Hx, Hy; cbn [ver_sf mul_vista SFmul]; try reflexivity.
  destruct (valid_finite x sx mx ex Hx) as [Hex _].
  destruct (valid_finite y sy my ey Hy) as [Hey _].
  rewrite fexp_eq in Hex, Hey.
  pose proof (Zdigits2_mul (Zpos mx) (Zpos my) ltac:(lia) ltac:(lia)) as Hd.
  pose proof (Zdigits2_pos (Zpos mx) ltac:(lia)) as Hdx.
  pose proof (Zdigits2_pos (Zpos my) ltac:(lia)) as Hdy.
  pose proof (binary_round_aux_bounds (xorb sx sy) (Zpos (mx * my)) (ex + ey)
                loc_Exact ltac:(lia)) as Hb. cbv zeta in Hb.
  rewrite Pos2Z.inj_mul in Hb.
  change (Z.pos (mx * my)) with (Z.pos mx * Z.pos my).
  destruct (binary_round_aux prec emax (xorb sx sy) (Z.pos mx * Z.pos my)
              (ex + ey) loc_Exact) as [s|s| |s m' e']; cbn [ver_sf].
  - left. now subst s.
  - right; left. destruct Hb as [-> Hinf]. split; [reflexivity|].
    rewrite fexp_eq in Hinf. lia.
  - contradiction.
  - right; right. destruct Hb as (-> & Hlo & Hhi). eexists. split; [reflexivity|].
    specialize (Hlo ltac:(lia)). lia.
Qed.

(** The view of a sum of finite numbers. *)
Lemma ver_add_fin (x y : float) (Mx My : Z) :
  ver x = VFin false Mx -> ver y = VFin false My ->
  (exists s, ver (x + y) = VZero s) \/ ver (x + y) = VInf false \/
  exists M, ver (x + y) = VFin false M /\ Z.max Mx My <= M.
Proof.
  intros Hvx Hvy.
  destruct (ver_fin_inv x _ _ Hvx) as (mx & ex & Hx & ->).
  destruct (ver_fin_inv y _ _ Hvy) as (my & ey & Hy & ->).
  unfold ver. rewrite FloatAxioms.add_spec. unfold SF64add. rewrite Hx, Hy.
  cbn [SFadd cond_Zopp].
  pose proof (shl_align_spec mx ex (Z.min ex ey)) as Hax.
  pose proof (shl_align_spec my ey (Z.min ex ey)) as Hay.
  destruct (shl_align mx ex (Z.min ex ey)) as [mx' ex'].
  destruct (shl_align my ey (Z.min ex ey)) as [my' ey'].
  cbn [fst].
  assert (Hx' : Zpos mx' = Zpos mx * 2 ^ (ex - Z.min ex ey)).
  { destruct (Z.lt_ge_cases (Z.min ex ey) ex) as [Hlt|Hge].
    - now destruct Hax as [Hax _]; destruct (Hax Hlt).
    - destruct Hax as [_ Hax]; destruct (Hax Hge) as [_ ->].
      replace (ex - Z.min ex ey) with 0 by lia. cbn. lia. }
  assert (Hy' : Zpos my' = Zpos my * 2 ^ (ey - Z.min ex ey)).
  { destruct (Z.lt_ge_cases (Z.min ex ey) ey) as [Hlt|Hge].
    - now destruct Hay as [Hay _]; destruct (Hay Hlt).
    - destruct Hay as [_ Hay]; destruct (Hay Hge) as [_ ->].
      replace (ey - Z.min ex ey) with 0 by lia. cbn. lia. }
  change (Z.pos mx' + Z.pos my') with (Z.pos (mx' + my')).
  cbn [binary_normalize].
  pose proof (binary_round_bounds false (mx' + my') (Z.min ex ey)) as Hb.
  cbv zeta in Hb.
  assert (Hdx : Zdigits2 (Zpos mx) + ex <=
                Zdigits2 (Zpos (mx' + my')) + Z.min ex ey).
  { assert (Zdigits2 (Zpos mx') <= Zdigits2 (Zpos (mx' + my'))).
    { apply Zdigits2_mono; lia. }
    rewrite Hx', Zdigits2_shiftl in H by lia. lia. }
  assert (Hdy : Zdigits2 (Zpos my) + ey <=
                Zdigits2 (Zpos (mx' + my')) + Z.min ex ey).
  { assert (Zdigits2 (Zpos my') <= Zdigits2 (Zpos (mx' + my'))).
    { apply Zdigits2_mono; lia. }
    rewrite Hy', Zdigits2_shiftl in H by lia. lia. }
  destruct (binary_round prec emax false (mx' + my') (Z.min ex ey))
    as [s|s| |s m' e']; cbn [ver_sf].
  - left. now exists s.
  - right; left. now destruct Hb as [-> _].
  - contradiction.
  - right; right. destruct Hb as (-> & Hlo & _). eexists.
    split; [reflexivity|]. lia.
Qed.

(** Sums of numbers that are not below zero. *)
Lemma ver_add_no_neg (x y : float) :
  no_neg (ver x) -> no_neg (ver y) -> no_neg (ver (x + y)).
Proof.
  intros Hnx Hny.
  destruct (ver x) as [|sx|sx|sx Mx] eqn:Hvx; cbn [no_neg] in Hnx;
    try contradiction;
    destruct (ver y) as [|sy|sy|sy My] eqn:Hvy; cbn [no_neg] in Hny;
    try contradiction; subst;
    try (destruct (ver_add_fin x y Mx My Hvx Hvy)
          as [[s ->]|[->|(M & -> & _)]]; cbn; auto; fail);
    revert Hvx Hvy; unfold ver; rewrite FloatAxioms.add_spec; unfold SF64add;
    destruct (Prim2SF x) as [sx'|sx'| |sx' mx ex];
    destruct (Prim2SF y) as [sy'|sy'| |sy' my ey]; cbn [ver_sf];
    try discriminate; intros Hvx Hvy;
    injection Hvx as Hvx; injection Hvy as Hvy; subst;
    cbn [SFadd ver_sf no_neg]; auto;
    repeat match goal with
           | |- context [match ?b with true => _ | false => _ end] =>
               destruct b
           end; cbn [ver_sf no_neg]; auto.
Qed.

Lemma ver_add_inf (x y : float) :
  no_neg (ver x) -> no_neg (ver y) ->
  ver x = VInf false \/ ver y = VInf false -> ver (x + y) = VInf false.
Proof.
  intros Hnx Hny Hinf. revert Hnx Hny Hinf.
  unfold ver. rewrite FloatAxioms.add_spec. unfold SF64add.
  destruct (Prim2SF x) as [sx|sx| |sx mx ex];
    destruct (Prim2SF y) as [sy|sy| |sy my ey]; cbn [ver_sf no_neg];
    intros Hnx Hny [Hinf|Hinf]; try discriminate; try contradiction;
    subst; cbn [SFadd ver_sf]; reflexivity.
Qed.

(** Differences. *)
Lemma ver_sub_fin (s x : float) (Ms Mx : Z) :
  ver s = VFin false Ms -> ver x = VFin false Mx ->
  (exists z, ver (s - x) = VZero z) \/ (exists z, ver (s - x) = VInf z) \/
  exists z M, ver (s - x) = VFin z M /\ Ms - 53 <= M.
Proof.
  intros Hvs Hvx.
  destruct (ver_fin_inv s _ _ Hvs) as (ms & es & Hs & ->).
  destruct (ver_fin_inv x _ _ Hvx) as (mx & ex & Hx & ->).
  destruct (valid_finite s _ _ _ Hs) as [Hes _].
  destruct (valid_finite x _ _ _ Hx) as [Hex _].
  rewrite fexp_eq in Hes, Hex.
  unfold ver. rewrite FloatAxioms.sub_spec. unfold SF64sub. rewrite Hs, Hx.
  cbn [SFsub cond_Zopp].
  set (ez := Z.min es ex).
  pose proof (shl_align_spec ms es ez) as Has.
  pose proof (shl_align_spec mx ex ez) as Hax.
  destruct (shl_align ms es ez) as [ms' es'].
  destruct (shl_align mx ex ez) as [mx' ex'].
  cbn [fst].
  assert (Hs' : Zpos ms' = Zpos ms * 2 ^ (es - ez)).
  { destruct (Z.lt_ge_cases ez es) as [Hlt|Hge].
    - now destruct Has as [Has _]; destruct (Has Hlt).
    - destruct Has as [_ Has]; destruct (Has Hge) as [_ ->].
      replace (es - ez) with 0 by lia. cbn. lia. }
  assert (Hx' : Zpos mx' = Zpos mx * 2 ^ (ex - ez)).
  { destruct (Z.lt_ge_cases ez ex) as [Hlt|Hge].
    - now destruct Hax as [Hax _]; destruct (Hax Hlt).
    - destruct Hax as [_ Hax]; destruct (Hax Hge) as [_ ->].
      replace (ex - ez) with 0 by lia. cbn. lia. }
  pose proof (Zdigits2_pos (Zpos ms) ltac:(lia)) as Hds.
  pose proof (Zdigits2_pos (Zpos mx) ltac:(lia)) as Hdx.
  set (Ms := Zdigits2 (Zpos ms) + es) in *.
  set (Mx := Zdigits2 (Zpos mx) + ex) in *.
  (* the magnitude of a difference that is not zero *)
  assert (Hmag : forall p, Z.abs (Zpos ms' - Zpos mx') = Zpos p ->
                           Ms - 53 <= Zdigits2 (Zpos p) + ez).
  { intros p Hp.
    pose proof (Zdigits2_pos (Zpos p) ltac:(lia)) as Hdp.
    destruct (Z.le_gt_cases (Ms - 1) Mx) as [Hnear|Hfar]; [unfold ez; lia|].
    assert (Hk : 0 <= Ms - 2 - ez) by (unfold ez, Mx, Ms in *; lia).
    assert (Hlo : 2 ^ (Ms - 1 - ez) <= Zpos ms').
    { rewrite Hs'. destruct (Zdigits2_spec (Zpos ms) ltac:(lia)) as [Hl _].
      replace (Ms - 1 - ez) with ((Zdigits2 (Zpos ms) - 1) + (es - ez))
        by (unfold Ms; lia).
      rewrite Z.pow_add_r by (unfold ez; lia).
      apply Z.mul_le_mono_nonneg_r; [pow_side|exact Hl]. }
    assert (Hhi : Zpos mx' < 2 ^ (Ms - 2 - ez)).
    { rewrite Hx'. destruct (Zdigits2_spec (Zpos mx) ltac:(lia)) as [_ Hh].
      eapply Z.lt_le_trans with (2 ^ (Zdigits2 (Zpos mx) + (ex - ez))).
      - rewrite Z.pow_add_r by (unfold ez; lia).
        apply Z.mul_lt_mono_pos_r; [pow_side|exact Hh].
      - apply Z.pow_le_mono_r; [lia|]. unfold Mx in *. lia. }
    replace (Ms - 1 - ez) with (Z.succ (Ms - 2 - ez)) in Hlo by lia.
    rewrite Z.pow_succ_r in Hlo by lia.
    assert (2 ^ (Ms - 2 - ez) <= Zpos p) by lia.
    pose proof (Zdigits2_ge (Zpos p) (Ms - 2 - ez) Hk H). lia. }
  destruct (Z.pos ms' - Z.pos mx') as [|p|p] eqn:Hz; cbn [binary_normalize].
  - left. now exists false.
  - pose proof (binary_round_bounds false p ez) as Hb. cbv zeta in Hb.
    specialize (Hmag p eq_refl).
    destruct (binary_round prec emax false p ez) as [z|z| |z m' e'];
      cbn [ver_sf]; [left; eauto|right; left; eauto|contradiction|].
    right; right. destruct Hb as (_ & Hlo & _). exists z. eexists.
    split; [reflexivity|]. lia.
  - pose proof (binary_round_bounds true p ez) as Hb. cbv zeta in Hb.
    specialize (Hmag p eq_refl).
    destruct (binary_round prec emax true p ez) as [z|z| |z m' e'];
      cbn [ver_sf]; [left; eauto|right; left; eauto|contradiction|].
    right; right. destruct Hb as (_ & Hlo & _). exists z. eexists.
    split; [reflexivity|]. lia.
Qed.

Lemma ver_sub_inf_inf (s x : float) :
  ver s = VInf false -> ver x = VInf false -> ver (s - x) = VNan.
Proof.
  unfold ver. rewrite FloatAxioms.sub_spec. unfold SF64sub.
  destruct (Prim2SF s) as [| | |]; cbn [ver_sf]; try discriminate.
  destruct (Prim2SF x) as [| | |]; cbn [ver_sf]; try discriminate.
  intros [= ->] [= ->]. reflexivity.
Qed.

Lemma ver_sub_inf_fin (s x : float) (Mx : Z) :
  ver s = VInf false -> ver x = VFin false Mx -> ver (s - x) = VInf false.
Proof.
  unfold ver. rewrite FloatAxioms.sub_spec. unfold SF64sub.
  destruct (Prim2SF s) as [| | |]; cbn [ver_sf]; try discriminate.
  destruct (Prim2SF x) as [| | |]; cbn [ver_sf]; try discriminate.
  intros [= ->] _. reflexivity.
Qed.

Lemma ver_sub_zero_fin (s x : float) (z : bool) (Mx : Z) :
  ver s = VZero z -> ver x = VFin false Mx -> ver (s - x) = VFin true Mx.
Proof.
  unfold ver. rewrite FloatAxioms.sub_spec. unfold SF64sub.
  destruct (Prim2SF s) as [| | |]; cbn [ver_sf]; try discriminate.
  destruct (Prim2SF x) as [| | |sx mx ex]; cbn [ver_sf]; try discriminate.
  intros _ Hx. injection Hx as -> <-. reflexivity.
Qed.

(** *** Quotients *)

(** The quotient of the mantissas before rounding. *)
Lemma div_core_bounds (m1 m2 : positive) (e1 e2 : Z) :
  let D := (Zdigits2 (Zpos m1) + e1) - (Zdigits2 (Zpos m2) + e2) in
  let '(q, e', l) := SFdiv_core_binary prec emax (Zpos m1) e1 (Zpos m2) e2 in
  0 <= q /\
  Zdigits2 q + e' <= Z.max (D + 1) (-1074) /\
  (0 < q -> D <= Zdigits2 q + e') /\
  (q = 0 -> D <= e') /\
  e' <= fexp prec emax (Zdigits2 q + e').
Proof.
  intros D. unfold SFdiv_core_binary.
  set (d1 := Zdigits2 (Zpos m1)) in *. set (d2 := Zdigits2 (Zpos m2)) in *.
  fold D.
  set (e' := Z.min (fexp prec emax D) (e1 - e2)).
  set (s := e1 - e2 - e').
  assert (Hs : 0 <= s) by (unfold s, e'; lia).
  set (m' := match s with
             | 0 => Z.pos m1
             | Z.pos _ => Z.shiftl (Z.pos m1) s
             | Z.neg _ => 0
             end).
  assert (Hm' : m' = Zpos m1 * 2 ^ s).
  { unfold m'. destruct s as [|p|p] eqn:Hsp; [cbn; lia| |lia].
    now rewrite Z.shiftl_mul_pow2 by lia. }
  pose proof (Z.div_eucl_eq m' (Zpos m2) ltac:(lia)) as Heq.
  pose proof (Z.mod_pos_bound m' (Zpos m2) ltac:(lia)) as Hmod.
  unfold Z.modulo in Hmod.
  destruct (Z.div_eucl m' (Z.pos m2)) as [q r].
  destruct (Zdigits2_spec (Zpos m1) ltac:(lia)) as [H1l H1h].
  destruct (Zdigits2_spec (Zpos m2) ltac:(lia)) as [H2l H2h].
  fold d1 in H1l, H1h. fold d2 in H2l, H2h.
  pose proof (Zdigits2_pos (Zpos m1) ltac:(lia)) as Hd1. fold d1 in Hd1.
  pose proof (Zdigits2_pos (Zpos m2) ltac:(lia)) as Hd2. fold d2 in Hd2.
  assert (Hml : 2 ^ (d1 + s - 1) <= m').
  { rewrite Hm'. replace (d1 + s - 1) with ((d1 - 1) + s) by lia.
    rewrite Z.pow_add_r by lia.
    apply Z.mul_le_mono_nonneg_r; [pow_side|exact H1l]. }
  assert (Hmh : m' < 2 ^ (d1 + s)).
  { rewrite Hm'. rewrite Z.pow_add_r by lia.
    apply Z.mul_lt_mono_pos_r; [pow_side|exact H1h]. }
  assert (Hq : 0 <= q) by nia.
  assert (Hq0 : q = 0 -> d1 + s <= d2).
  { intros ->. destruct (Z.le_gt_cases (d1 + s) d2) as [|Hgt]; [assumption|].
    exfalso. assert (2 ^ d2 <= 2 ^ (d1 + s - 1)) by
      (apply Z.pow_le_mono_r; lia). lia. }
  assert (Hup : 0 < q -> Zdigits2 q <= d1 + s - d2 + 1).
  { intros Hpos. apply Zdigits2_le; [exact Hpos|].
    destruct (Z.le_gt_cases 0 (d1 + s - d2 + 1)) as [Hk|Hk].
    - assert (q * 2 ^ (d2 - 1) < 2 ^ (d1 + s - d2 + 1) * 2 ^ (d2 - 1)).
      { rewrite <- Z.pow_add_r by lia.
        replace (d1 + s - d2 + 1 + (d2 - 1)) with (d1 + s) by lia. nia. }
      eapply Z.mul_lt_mono_pos_r; [|exact H]. pow_side.
    - exfalso.
      assert (2 ^ (d1 + s) <= 2 ^ (d2 - 1 - 1)) by
        (apply Z.pow_le_mono_r; lia).
      assert (2 ^ (d2 - 1 - 1) <= 2 ^ (d2 - 1)) by
        (apply Z.pow_le_mono_r; lia).
      nia. }
  assert (Hlow : 0 < q -> D <= Zdigits2 q + e').
  { intros Hpos. pose proof (Zdigits2_pos q Hpos) as Hdq.
    destruct (Z.le_gt_cases d2 (d1 + s - 1)) as [Hk|Hk].
    - assert (2 ^ (d1 + s - 1 - d2) <= q).
      { assert (2 ^ (d1 + s - 1 - d2) * 2 ^ d2 <= m').
        { rewrite <- Z.pow_add_r by lia.
          now replace (d1 + s - 1 - d2 + d2) with (d1 + s - 1) by lia. }
        assert (0 < 2 ^ (d1 + s - 1 - d2)) by pow_side.
        nia. }
      pose proof (Zdigits2_ge q (d1 + s - 1 - d2) ltac:(lia) H).
      unfold D, s in *. lia.
    - unfold D, s in *. lia. }
  assert (He1 : e' <= Z.max (D - 53) (-1074)).
  { unfold e'. rewrite fexp_eq. lia. }
  assert (HD : D = d1 - d2 + s + e') by (unfold D, s; lia).
  split; [exact Hq|]. split; [|split; [exact Hlow|split]].
  - destruct (Z.eq_dec q 0) as [->|Hne].
    + cbn [Zdigits2]. lia.
    + specialize (Hup ltac:(lia)). lia.
  - intros Hz. specialize (Hq0 Hz). lia.
  - rewrite fexp_eq. destruct (Z.eq_dec q 0) as [->|Hne].
    + specialize (Hq0 eq_refl). cbn [Zdigits2]. lia.
    + specialize (Hlow ltac:(lia)). lia.
Qed.

(** The view of a quotient. *)
Lemma ver_div (x y : float) : div_vista (ver x) (ver y) (ver (x / y)).
Proof.
  unfold ver at 3. rewrite FloatAxioms.div_spec. unfold SF64div.
  destruct (Prim2SF x) as [sx|sx| |sx mx ex] eqn:Hx;
    destruct (Prim2SF y) as [sy|sy| |sy my ey] eqn:Hy;
    unfold ver; rewrite Hx, Hy; cbn [ver_sf div_vista SFdiv]; try reflexivity.
  pose proof (div_core_bounds mx my ex ey) as Hc. cbv zeta in Hc.
  destruct (SFdiv_core_binary prec emax (Z.pos mx) ex (Z.pos my) ey)
    as [[q e'] l].
  destruct Hc as (Hq & Hup & Hlow & Hq0 & Hcanon).
  pose proof (binary_round_aux_bounds (xorb sx sy) q e' l Hq) as Hb.
  pose proof (binary_round_aux_exp (xorb sx sy) q e' l Hq) as He.
  cbv zeta in Hb.
  destruct (binary_round_aux prec emax (xorb sx sy) q e' l)
    as [s|s| |s m' e'']; cbn [ver_sf].
  - left. now subst s.
  - right; left. destruct Hb as [-> Hinf]. split; [reflexivity|].
    specialize (Hinf Hcanon). lia.
  - contradiction.
  - right; right. destruct Hb as (-> & Hlo & Hhi). eexists.
    split; [reflexivity|]. split; [|lia].
    destruct (Z.eq_dec q 0) as [Hz|Hnz].
    + specialize (Hq0 Hz). lia.
    + specialize (Hlo ltac:(lia)). specialize (Hlow ltac:(lia)). lia.
Qed.

(** *** Square roots *)

(** The root of the mantissa before rounding. *)
Lemma sqrt_core_bounds (m : positive) (e : Z) :
  let '(q, e', l) := SFsqrt_core_binary prec emax (Zpos m) e in
  0 < q /\ Zdigits2 (Zpos m) + e <= 2 * (Zdigits2 q + e').
Proof.
  unfold SFsqrt_core_binary.
  set (d := Zdigits2 (Zpos m)).
  set (e' := Z.min (fexp prec emax (Z.div2 (d + e + 1))) (Z.div2 e)).
  set (s := e - 2 * e').
  assert (He2 : 2 * Z.div2 e <= e).
  { rewrite Z.div2_div. pose proof (Z.mul_div_le e 2 ltac:(lia)). lia. }
  assert (Hs : 0 <= s) by (unfold s, e'; lia).
  set (m' := match s with
             | 0 => Z.pos m
             | Z.pos _ => Z.shiftl (Z.pos m) s
             | Z.neg _ => 0
             end).
  assert (Hm' : m' = Zpos m * 2 ^ s).
  { unfold m'. destruct s as [|p|p] eqn:Hsp; [cbn; lia| |lia].
    now rewrite Z.shiftl_mul_pow2 by lia. }
  pose proof (Zdigits2_pos (Zpos m) ltac:(lia)) as Hd. fold d in Hd.
  destruct (Zdigits2_spec (Zpos m) ltac:(lia)) as [Hl _]. fold d in Hl.
  assert (Hml : 2 ^ (d + s - 1) <= m').
  { rewrite Hm'. replace (d + s - 1) with ((d - 1) + s) by lia.
    rewrite Z.pow_add_r by lia.
    apply Z.mul_le_mono_nonneg_r; [pow_side|exact Hl]. }
  assert (Hm0 : 0 <= m') by (assert (0 < 2 ^ (d + s - 1)); [pow_side|lia]).
  pose proof (Z.sqrtrem_spec m' Hm0) as Hsq.
  destruct (Z.sqrtrem m') as [q r]. destruct Hsq as [Hsq Hr].
  set (k := (d + s - 1) / 2).
  assert (Hk : 0 <= k) by (apply Z.div_pos; lia).
  assert (Hk2 : 2 * k <= d + s - 1 < 2 * k + 2).
  { unfold k. pose proof (Z.mul_div_le (d + s - 1) 2 ltac:(lia)).
    pose proof (Z.mul_succ_div_gt (d + s - 1) 2 ltac:(lia)). lia. }
  assert (Hq0 : 0 <= q) by nia.
  assert (Hqk : 2 ^ k <= q).
  { destruct (Z.le_gt_cases (2 ^ k) q) as [|Hlt]; [assumption|exfalso].
    assert (Hkk : 2 ^ k * 2 ^ k <= m').
    { rewrite <- Z.pow_add_r by lia. eapply Z.le_trans; [|exact Hml].
      apply Z.pow_le_mono_r; lia. }
    assert (0 < 2 ^ k) by pow_side. nia. }
  assert (Hqpos : 0 < q) by (assert (0 < 2 ^ k); [pow_side|lia]).
  split; [exact Hqpos|].
  pose proof (Zdigits2_ge q k Hk Hqk). unfold s in *. lia.
Qed.

(** The view of a square root. *)
Lemma ver_sqrt (x : float) : sqrt_vista (ver x) (ver (PrimFloat.sqrt x)).
Proof.
  unfold ver at 2. rewrite FloatAxioms.sqrt_spec. unfold SF64sqrt, ver.
  destruct (Prim2SF x) as [sx|sx| |sx mx ex] eqn:Hx;
    cbn [ver_sf sqrt_vista SFsqrt]; try reflexivity.
  - destruct sx; reflexivity.
  - destruct sx; [reflexivity|].
    pose proof (sqrt_core_bounds mx ex) as Hc.
    destruct (SFsqrt_core_binary prec emax (Z.pos mx) ex) as [[q e'] l].
    destruct Hc as [Hq Hlow].
    pose proof (binary_round_aux_bounds false q e' l ltac:(lia)) as Hb.
    cbv zeta in Hb.
    destruct (binary_round_aux prec emax false q e' l) as [s|s| |s m' e''];
      cbn [ver_sf].
    + left. now subst s.
    + right; left. now destruct Hb as [-> _].
    + contradiction.
    + right; right. destruct Hb as (-> & Hlo & _). eexists.
      split; [reflexivity|]. specialize (Hlo Hq). lia.
Qed.

(** *** Comparisons with zero *)

Lemma Prim2SF_zero : Prim2SF 0%float = S754_zero false.
Proof. reflexivity. Qed.

Lemma ltb_zero (x : float) :
  (x <? 0)%float = true ->
  ver x = VInf true \/ exists M, ver x = VFin true M.
Proof.
  rewrite FloatAxioms.ltb_spec, Prim2SF_zero. unfold ver, SFltb.
  destruct (Prim2SF x) as [s|s| |s m e]; cbn [SFcompare ver_sf];
    try discriminate; destruct s; try discriminate; eauto.
Qed.

Lemma ltb_zero_false (x : float) :
  (x <? 0)%float = false ->
  match ver x with
  | VInf s | VFin s _ => s = false
  | _ => True
  end.
Proof.
  rewrite FloatAxioms.ltb_spec, Prim2SF_zero. unfold ver, SFltb.
  destruct (Prim2SF x) as [s|s| |s m e]; cbn [SFcompare ver_sf];
    try (intros _; exact I); destruct s; try discriminate; reflexivity.
Qed.

Lemma eqb_zero_false (x : float) :
  (x =? 0)%float = false -> forall s, ver x <> VZero s.
Proof.
  rewrite FloatAxioms.eqb_spec, Prim2SF_zero. unfold ver, SFeqb.
  destruct (Prim2SF x) as [s|s| |s m e]; cbn [SFcompare ver_sf];
    try discriminate; intros; discriminate.
Qed.

(** *** Zero results *)

(** A mantissa that is not zero rounds to zero only below the least
    positive number. *)
Lemma binary_round_aux_zero (sx : bool) (m e : Z) (l : location) :
  0 < m ->
  match binary_round_aux prec emax sx m e l with
  | S754_zero _ => Zdigits2 m + e <= -1074
  | _ => True
  end.
Proof.
  intros Hm. unfold binary_round_aux.
  pose proof (shr_fexp_spec m e l ltac:(lia)) as H1. cbv zeta in H1.
  destruct (shr_fexp prec emax m e l) as [mrs1 e1].
  set (M := Zdigits2 m + e) in *.
  set (n1 := fexp prec emax M - e) in *.
  set (r1 := round_nearest_even (shr_m mrs1) (loc_of_shr_record mrs1)).
  assert (Hr1 : r1 = shr_m mrs1 \/ r1 = shr_m mrs1 + 1)
    by apply round_nearest_even_cases.
  assert (HM1 : (0 < shr_m mrs1 /\ Zdigits2 (shr_m mrs1) + e1 = M /\
                 fexp prec emax M <= e1) \/
                (shr_m mrs1 = 0 /\ M <= -1074)).
  { destruct (Z.lt_ge_cases 0 n1) as [Hn|Hn].
    - destruct H1 as [H1 _]. destruct (H1 Hn) as [Hm1eq ->].
      destruct (Z.lt_ge_cases n1 (Zdigits2 m)) as [Hlt|Hge].
      + left. rewrite Hm1eq.
        destruct (Zdigits2_shiftr m n1 Hm ltac:(lia) Hlt) as [Hq ->].
        split; [exact Hq|]. unfold n1, M in *. lia.
      + right. rewrite Hm1eq. rewrite Zdigits2_shiftr_0 by lia.
        split; [reflexivity|]. unfold n1 in *. rewrite fexp_eq in *.
        unfold M in *. lia.
    - destruct H1 as [_ H1]. destruct (H1 Hn) as [-> ->].
      left. split; [exact Hm|]. unfold n1 in *. split; [reflexivity|lia]. }
  destruct HM1 as [(Hq & HM & He1)|[Hz HM]].
  2:{ destruct (shr_fexp prec emax r1 e1 loc_Exact) as [mrs2 e2].
      destruct (shr_m mrs2) as [|p|p]; [exact HM| |exact I].
      destruct (e2 <=? emax - prec); exact I. }
  assert (Hr1pos : 0 < r1) by lia.
  pose proof (shr_fexp_spec r1 e1 loc_Exact ltac:(lia)) as H2. cbv zeta in H2.
  destruct (shr_fexp prec emax r1 e1 loc_Exact) as [mrs2 e2].
  set (n2 := fexp prec emax (Zdigits2 r1 + e1) - e1) in *.
  assert (Hd : Zdigits2 (shr_m mrs1) <= Zdigits2 r1 <= Zdigits2 (shr_m mrs1) + 1).
  { destruct Hr1 as [->| ->]; [lia|]. apply Zdigits2_succ. lia. }
  pose proof (Zdigits2_pos r1 Hr1pos) as Hdr.
  assert (Hn2 : n2 < Zdigits2 r1).
  { unfold n2. rewrite fexp_eq in *. lia. }
  assert (Hpos : 0 < shr_m mrs2).
  { destruct (Z.lt_ge_cases 0 n2) as [Hn|Hn].
    - destruct H2 as [H2 _]. destruct (H2 Hn) as [-> _].
      now destruct (Zdigits2_shiftr r1 n2 Hr1pos ltac:(lia) Hn2).
    - destruct H2 as [_ H2]. destruct (H2 Hn) as [-> _]. exact Hr1pos. }
  destruct (shr_m mrs2) as [|p|p]; [lia| |exact I].
  destruct (e2 <=? emax - prec); exact I.
Qed.

Lemma binary_round_zero (sx : bool) (m : positive) (e : Z) :
  match binary_round prec emax sx m e with
  | S754_zero _ => Zdigits2 (Zpos m) + e <= -1074
  | _ => True
  end.
Proof.
  unfold binary_round.
  pose proof (shl_align_spec m e (fexp prec emax (Zpos (digits2_pos m) + e)))
    as Hal.
  destruct (shl_align m e _) as [mz ez].
  change (Zpos (digits2_pos m)) with (Zdigits2 (Zpos m)) in Hal.
  set (M := Zdigits2 (Zpos m) + e) in *.
  assert (HM : Zdigits2 (Zpos mz) + ez = M).
  { destruct (Z.lt_ge_cases (fexp prec emax M) e) as [Hlt|Hge].
    - destruct Hal as [Hal _]. destruct (Hal Hlt) as [-> ->].
      rewrite Zdigits2_shiftl by lia. unfold M. lia.
    - destruct Hal as [_ Hal]. destruct (Hal Hge) as [-> ->]. reflexivity. }
  pose proof (binary_round_aux_zero sx (Zpos mz) ez loc_Exact ltac:(lia)) as Hz.
  rewrite HM in Hz. exact Hz.
Qed.

(** The sum of two positive numbers is positive. *)
Lemma ver_add_fin_pos (x y : float) (Mx My : Z) :
  ver x = VFin false Mx -> ver y = VFin false My ->
  ver (x + y) = VInf false \/
  exists M, ver (x + y) = VFin false M /\ Z.max Mx My <= M.
Proof.
  intros Hvx Hvy.
  destruct (ver_add_fin x y Mx My Hvx Hvy) as [[s Hz]|H]; [exfalso|exact H].
  pose proof (ver_fin_range x _ _ Hvx) as Hrx.
  destruct (ver_fin_inv x _ _ Hvx) as (mx & ex & Hx & ->).
  destruct (ver_fin_inv y _ _ Hvy) as (my & ey & Hy & ->).
  revert Hz. unfold ver. rewrite FloatAxioms.add_spec. unfold SF64add. rewrite Hx, Hy.
  cbn [SFadd cond_Zopp].
  pose proof (shl_align_spec mx ex (Z.min ex ey)) as Hax.
  destruct (shl_align mx ex (Z.min ex ey)) as [mx' ex'].
  destruct (shl_align my ey (Z.min ex ey)) as [my' ey'].
  cbn [fst].
  assert (Hx' : Zpos mx' = Zpos mx * 2 ^ (ex - Z.min ex ey)).
  { destruct (Z.lt_ge_cases (Z.min ex ey) ex) as [Hlt|Hge].
    - now destruct Hax as [Hax _]; destruct (Hax Hlt).
    - destruct Hax as [_ Hax]; destruct (Hax Hge) as [_ ->].
      replace (ex - Z.min ex ey) with 0 by lia. cbn. lia. }
  change (Z.pos mx' + Z.pos my') with (Z.pos (mx' + my')).
  cbn [binary_normalize].
  pose proof (binary_round_zero false (mx' + my') (Z.min ex ey)) as Hb.
  assert (Hdx : Zdigits2 (Zpos mx) + ex <=
                Zdigits2 (Zpos (mx' + my')) + Z.min ex ey).
  { assert (Zdigits2 (Zpos mx') <= Zdigits2 (Zpos (mx' + my'))).
    { apply Zdigits2_mono; lia. }
    rewrite Hx', Zdigits2_shiftl in H by lia. lia. }
  destruct (binary_round prec emax false (mx' + my') (Z.min ex ey));
    cbn [ver_sf]; try discriminate.
  intros _. lia.
Qed.

Lemma ver_add_zero_l (x y : float) (z : bool) (My : Z) :
  ver x = VZero z -> ver y = VFin false My -> ver (x + y) = VFin false My.
Proof.
  unfold ver. rewrite FloatAxioms.add_spec. unfold SF64add.
  destruct (Prim2SF x) as [| | |]; cbn [ver_sf]; try discriminate.
  destruct (Prim2SF y) as [| | |sy my ey]; cbn [ver_sf]; try discriminate.
  intros _ Hy. cbn [SFadd ver_sf]. exact Hy.
Qed.

(** *** Closure of the numbers that are not negative *)

Ltac abrir :=
  repeat match goal with
         | H : _ \/ _ |- _ => destruct H as [H|H]
         | H : _ /\ _ |- _ => destruct H
         | H : exists _, _ |- _ => destruct H
         end.

Lemma no_neg_o_nan_mul (x y : float) :
  no_neg_o_nan (ver x) -> no_neg_o_nan (ver y) -> no_neg_o_nan (ver (x * y)).
Proof.
  intros Hx Hy. pose proof (ver_mul x y) as Hm.
  destruct (ver x) as [|sx|sx|sx Mx], (ver y) as [|sy|sy|sy My];
    cbn [mul_vista no_neg_o_nan] in *; subst; abrir;
    match goal with H : ver _ = _ |- _ => rewrite H end; cbn; auto.
Qed.

Lemma no_neg_o_nan_sqrt (x : float) : no_neg_o_nan (ver (PrimFloat.sqrt x)).
Proof.
  pose proof (ver_sqrt x) as Hs.
  destruct (ver x) as [|[]|s|[] M]; cbn [sqrt_vista] in Hs; abrir;
    match goal with H : ver _ = _ |- _ => rewrite H end; cbn; auto.
Qed.

(** *** Inversions *)

(** A finite product has finite factors. *)
Lemma mul_fin_inv (x y : float) (s : bool) (M : Z) :
  ver (x * y) = VFin s M ->
  exists sx Mx sy My,
    ver x = VFin sx Mx /\ ver y = VFin sy My /\ s = xorb sx sy /\
    Mx + My - 1 <= M <= Z.max (Mx + My) (-1074) + 1.
Proof.
  intros Hr. pose proof (ver_mul x y) as Hm. rewrite Hr in Hm.
  destruct (ver x) as [|sx|sx|sx Mx], (ver y) as [|sy|sy|sy My];
    cbn [mul_vista] in Hm; try discriminate.
  destruct Hm as [Hm|[[Hm _]|(M' & Hm & Hb)]]; try discriminate.
  injection Hm as -> ->. exists sx, Mx, sy, My. auto.
Qed.

(** An infinite product has an infinite factor, or finite factors that
    overflow. *)
Lemma mul_inf_inv (x y : float) (s : bool) :
  ver (x * y) = VInf s ->
  (exists sx, ver x = VInf sx) \/ (exists sy, ver y = VInf sy) \/
  exists sx Mx sy My,
    ver x = VFin sx Mx /\ ver y = VFin sy My /\ 1024 <= Mx + My.
Proof.
  intros Hr. pose proof (ver_mul x y) as Hm. rewrite Hr in Hm.
  destruct (ver x) as [|sx|sx|sx Mx], (ver y) as [|sy|sy|sy My];
    cbn [mul_vista] in Hm; try discriminate; eauto.
  destruct Hm as [Hm|[[Hm Hb]|(M' & Hm & Hb)]]; try discriminate.
  right; right. exists sx, Mx, sy, My. auto.
Qed.

(** A product that is infinite or finite has no factor that is zero or
    not a number. *)
Lemma mul_inf_o_fin_inv (x y : float) :
  inf_o_fin (ver (x * y)) -> inf_o_fin (ver x) /\ inf_o_fin (ver y).
Proof.
  intros Hr. pose proof (ver_mul x y) as Hm.
  destruct (ver x) as [|sx|sx|sx Mx], (ver y) as [|sy|sy|sy My];
    cbn [mul_vista inf_o_fin] in *; auto;
    rewrite Hm in Hr; cbn [inf_o_fin] in Hr; contradiction.
Qed.

(** A finite square root is the root of a positive finite number. *)
Lemma sqrt_fin_inv (x : float) (s : bool) (M' : Z) :
  ver (PrimFloat.sqrt x) = VFin s M' ->
  s = false /\ exists M, ver x = VFin false M /\ M <= 2 * M'.
Proof.
  intros Hr. pose proof (ver_sqrt x) as Hs. rewrite Hr in Hs.
  destruct (ver x) as [|[]|z|[] M]; cbn [sqrt_vista] in Hs; try discriminate.
  destruct Hs as [Hs|[Hs|(M1 & Hs & Hb)]]; try discriminate.
  injection Hs as -> ->. split; [reflexivity|]. now exists M.
Qed.

Lemma ver_2 : ver 2 = VFin false 2.
Proof. reflexivity. Qed.

Lemma ver_4 : ver 4 = VFin false 3.
Proof. reflexivity. Qed.

(** *** The radius formula *)

Section RadioFormula.

Variables a b c : float.

Let s : float := ((a + b + c) / 2)%float.
Let H : float := (s * (s - a) * (s - b) * (s - c))%float.
Let D : float := (4 * PrimFloat.sqrt H)%float.
Let N : float := (a * b * c)%float.

(** A side that is infinite makes the half perimeter infinite. *)
Lemma semiperimetro_inf :
  no_neg (ver a) -> no_neg (ver b) -> no_neg (ver c) ->
  ver a = VInf false \/ ver b = VInf false \/ ver c = VInf false ->
  ver s = VInf false.
Proof.
  intros Hna Hnb Hnc Hinf.
  assert (Ht : ver (a + b + c) = VInf false).
  { pose proof (ver_add_no_neg a b Hna Hnb) as Hab.
    destruct Hinf as [Hi|[Hi|Hi]].
    - apply ver_add_inf; [exact Hab|exact Hnc|left].
      apply ver_add_inf; auto.
    - apply ver_add_inf; [exact Hab|exact Hnc|left].
      apply ver_add_inf; auto.
    - apply ver_add_inf; auto. }
  pose proof (ver_div (a + b + c) 2) as Hd. rewrite Ht, ver_2 in Hd.
  exact Hd.
Qed.

(** With a finite divisor, the sides and the half perimeter are finite,
    and their magnitudes are tied. *)
Lemma cadena (MD : Z) :
  ver D = VFin false MD -> inf_o_fin (ver N) ->
  no_neg_o_nan (ver a) -> no_neg_o_nan (ver b) -> no_neg_o_nan (ver c) ->
  exists Ma Mb Mc Ms MH,
    ver a = VFin false Ma /\ ver b = VFin false Mb /\ ver c = VFin false Mc /\
    Ma <= Ms + 2 /\ Mb <= Ms + 2 /\ Mc <= Ms + 2 /\
    4 * Ms - 162 <= MH /\ -1073 <= MH <= 1024 /\ MH + 4 <= 2 * MD.
Proof.
  intros HD HN Ha Hb Hc.
  (* the divisor *)
  destruct (mul_fin_inv 4 (PrimFloat.sqrt H) _ _ HD) as (s4 & M4 & sA & MA & H4 & HA & _ & HMD).
  rewrite ver_4 in H4. injection H4 as <- <-.
  destruct (sqrt_fin_inv H _ _ HA) as (_ & MH & HH & HMH).
  pose proof (ver_fin_range H _ _ HH) as HrH.
  (* the four factors *)
  destruct (mul_fin_inv _ _ _ _ HH) as (s2 & M2 & suc & Muc & HP2 & Huc & _ & HM2).
  destruct (mul_fin_inv _ _ _ _ HP2) as (s1 & M1 & sub & Mub & HP1 & Hub & _ & HM1).
  destruct (mul_fin_inv _ _ _ _ HP1) as (ss & Ms & sua & Mua & Hs & Hua & _ & HM0).
  (* the sides *)
  destruct (mul_inf_o_fin_inv _ _ HN) as [HNab HNc].
  destruct (mul_inf_o_fin_inv _ _ HNab) as [HNa HNb].
  assert (Hna : no_neg (ver a)).
  { destruct (ver a); cbn in *; auto. }
  assert (Hnb : no_neg (ver b)).
  { destruct (ver b); cbn in *; auto. }
  assert (Hnc : no_neg (ver c)).
  { destruct (ver c); cbn in *; auto. }
  pose proof (semiperimetro_inf Hna Hnb Hnc) as Hsinf.
  assert (Hfa : exists Ma, ver a = VFin false Ma).
  { destruct (ver a) as [|z|z|z Ma] eqn:Hva; cbn in HNa, Ha; try contradiction.
    - subst z. exfalso.
      rewrite Hsinf in Hs by (left; reflexivity). discriminate.
    - subst z. eauto. }
  assert (Hfb : exists Mb, ver b = VFin false Mb).
  { destruct (ver b) as [|z|z|z Mb] eqn:Hvb; cbn in HNb, Hb; try contradiction.
    - subst z. exfalso.
      rewrite Hsinf in Hs by (right; left; reflexivity). discriminate.
    - subst z. eauto. }
  assert (Hfc : exists Mc, ver c = VFin false Mc).
  { destruct (ver c) as [|z|z|z Mc] eqn:Hvc; cbn in HNc, Hc; try contradiction.
    - subst z. exfalso.
      rewrite Hsinf in Hs by (right; right; reflexivity). discriminate.
    - subst z. eauto. }
  destruct Hfa as [Ma Hva], Hfb as [Mb Hvb], Hfc as [Mc Hvc].
  (* the half perimeter *)
  assert (Hsum : ss = false /\ Z.max (Z.max Ma Mb) Mc - 2 <= Ms).
  { pose proof (ver_div (a + b + c) 2) as Hd. fold s in Hd.
    rewrite Hs, ver_2 in Hd.
    destruct (ver_add_fin_pos a b Ma Mb Hva Hvb) as [Hi|(Mab & Hab & HMab)].
    - assert (Ht : ver (a + b + c) = VInf false).
      { apply ver_add_inf; auto. rewrite Hi. reflexivity. }
      rewrite Ht in Hd. discriminate.
    - destruct (ver_add_fin_pos (a + b) c Mab Mc Hab Hvc)
        as [Hi|(Mt & Ht & HMt)]; rewrite ?Hi, ?Ht in Hd; [discriminate|].
      cbn [div_vista] in Hd.
      destruct Hd as [Hd|[[Hd _]|(M' & Hd & Hb')]]; try discriminate.
      injection Hd as -> ->. cbn. split; [reflexivity|lia]. }
  destruct Hsum as [-> HMs].
  (* the three differences *)
  assert (Hdif : forall x Mx Mu su,
             ver x = VFin false Mx -> ver (s - x) = VFin su Mu ->
             Ms - 53 <= Mu).
  { intros x Mx Mu su Hx Hu.
    destruct (ver_sub_fin s x Ms Mx Hs Hx) as [[z Hz]|[[z Hz]|(z & M & Hz & HM)]];
      rewrite Hz in Hu; try discriminate.
    injection Hu as -> ->. exact HM. }
  pose proof (Hdif a Ma Mua sua Hva Hua) as Hda.
  pose proof (Hdif b Mb Mub sub Hvb Hub) as Hdb.
  pose proof (Hdif c Mc Muc suc Hvc Huc) as Hdc.
  exists Ma, Mb, Mc, Ms, MH.
  repeat split; try assumption; lia.
Qed.

(** The quotient of the formula is not a number, or a finite number that
    is not negative; it is never infinite. *)
Lemma radio_bien :
  no_neg_o_nan (ver a) -> no_neg_o_nan (ver b) -> no_neg_o_nan (ver c) ->
  (D =? 0)%float = false -> bien (ver (N / D)).
Proof.
  intros Ha Hb Hc Hzero.
  assert (HNn : no_neg_o_nan (ver N)).
  { apply no_neg_o_nan_mul; [apply no_neg_o_nan_mul|]; assumption. }
  assert (HDn : no_neg_o_nan (ver D)).
  { apply no_neg_o_nan_mul; [rewrite ver_4; reflexivity|].
    apply no_neg_o_nan_sqrt. }
  pose proof (eqb_zero_false D Hzero) as HDz.
  pose proof (ver_div N D) as Hq.
  pose proof cadena as Hcad.
  destruct (ver D) as [|sD|sD|sD MD] eqn:HvD; cbn [no_neg_o_nan] in HDn.
  - destruct (ver N); cbn [div_vista] in Hq; rewrite Hq; exact I.
  - subst sD. destruct (ver N) as [|sN|sN|sN MN]; cbn [div_vista] in Hq;
      rewrite Hq; exact I.
  - exfalso. now apply (HDz sD).
  - subst sD. specialize (Hcad MD eq_refl).
    destruct (ver N) as [|sN|sN|sN MN] eqn:HvN; cbn [no_neg_o_nan] in HNn;
      cbn [div_vista] in Hq.
    + rewrite Hq. exact I.
    + (* an infinite product over a finite divisor *)
      exfalso. subst sN.
      destruct (Hcad I Ha Hb Hc) as (Ma & Mb & Mc & Ms & MH & Hva & Hvb & Hvc &
                            HMa & HMb & HMc & HH1 & HH2 & HH3).
      pose proof (ver_fin_range D _ _ HvD) as HrD.
      destruct (mul_inf_inv _ _ _ HvN) as [[z Hi]|[[z Hi]|Hff]].
      * destruct (mul_inf_inv _ _ _ Hi) as [[z' Hi']|[[z' Hi']|Hff]].
        -- rewrite Hva in Hi'. discriminate.
        -- rewrite Hvb in Hi'. discriminate.
        -- destruct Hff as (sx & Mx & sy & My & Hx & Hy & Hb').
           rewrite Hva in Hx. rewrite Hvb in Hy.
           injection Hx as <- <-. injection Hy as <- <-. lia.
      * rewrite Hvc in Hi. discriminate.
      * destruct Hff as (sx & Mx & sy & My & Hx & Hy & Hb').
        rewrite Hvc in Hy. injection Hy as <- <-.
        destruct (mul_fin_inv _ _ _ _ Hx)
          as (s1 & M1 & s2 & M2 & H1 & H2 & _ & HMab).
        rewrite Hva in H1. rewrite Hvb in H2.
        injection H1 as <- <-. injection H2 as <- <-. lia.
    + rewrite Hq. exact I.
    + subst sN.
      destruct Hq as [Hq|[[Hq Hbig]|(M & Hq & _)]]; rewrite Hq; cbn [bien xorb];
        try reflexivity.
      (* a finite product whose quotient overflows *)
      destruct (Hcad I Ha Hb Hc) as (Ma & Mb & Mc & Ms & MH & Hva & Hvb & Hvc &
                            HMa & HMb & HMc & HH1 & HH2 & HH3).
      pose proof (ver_fin_range N _ _ HvN) as HrN.
      destruct (mul_fin_inv _ _ _ _ HvN)
        as (sx & Mx & sy & My & Hx & Hy & _ & HMN).
      rewrite Hvc in Hy. injection Hy as <- <-.
      destruct (mul_fin_inv _ _ _ _ Hx)
        as (s1 & M1 & s2 & M2 & H1 & H2 & _ & HMab).
      rewrite Hva in H1. rewrite Hvb in H2.
      injection H1 as <- <-. injection H2 as <- <-. lia.
Qed.

End RadioFormula.

(** *** Reading a view back *)

(** What the tests of the primitive floats say of such a number. *)
Lemma bien_no_inf (x : float) : bien (ver x) -> is_infinity x = false.
Proof.
  unfold is_infinity. rewrite FloatAxioms.eqb_spec, FloatAxioms.abs_spec. unfold ver.
  destruct (Prim2SF x) as [s|s| |s m e]; cbn [ver_sf bien SFabs];
    try contradiction; intros _; reflexivity.
Qed.


(** *** Division by one *)

(** Rounding returns a number that needs no rounding. *)
Lemma binary_round_aux_exacto (sx : bool) (m : positive) (e : Z) :
  e = fexp prec emax (Zdigits2 (Zpos m) + e) -> e <= 971 ->
  binary_round_aux prec emax sx (Zpos m) e loc_Exact = S754_finite sx m e.
Proof.
  intros He Hb. unfold binary_round_aux, shr_fexp.
  rewrite <- He, Z.sub_diag.
  cbn [shr shr_record_of_loc shr_m loc_of_shr_record round_nearest_even].
  rewrite <- He, Z.sub_diag. cbn [shr shr_record_of_loc shr_m].
  replace (e <=? emax - prec) with true; [reflexivity|].
  symmetry. apply Z.leb_le. exact Hb.
Qed.

(** The same with one bit to spare. *)
Lemma binary_round_aux_doble (sx : bool) (m : positive) (e : Z) :
  e = fexp prec emax (Zdigits2 (Zpos m) + e) -> e <= 971 ->
  binary_round_aux prec emax sx (Zpos m~0) (e - 1) loc_Exact =
  S754_finite sx m e.
Proof.
  intros He Hb. unfold binary_round_aux, shr_fexp.
  assert (Hd : Zdigits2 (Zpos m~0) + (e - 1) = Zdigits2 (Zpos m) + e).
  { cbn [Zdigits2 digits2_pos]. rewrite Pos2Z.inj_succ. lia. }
  rewrite Hd, <- He.
  replace (e - (e - 1)) with 1 by lia.
  cbn [shr SpecFloat.iter_pos shr_1 shr_record_of_loc shr_m loc_of_shr_record
       round_nearest_even orb].
  replace (e - 1 + 1) with e by lia.
  rewrite <- He, Z.sub_diag. cbn [shr shr_record_of_loc shr_m].
  replace (e <=? emax - prec) with true; [reflexivity|].
  symmetry. apply Z.leb_le. exact Hb.
Qed.

(** Dividing a finite number by one is exact. *)
Lemma SFdiv_uno (sx : bool) (m : positive) (e : Z) :
  e = fexp prec emax (Zdigits2 (Zpos m) + e) -> e <= 971 ->
  SFdiv prec emax (S754_finite sx m e)
    (S754_finite false 4503599627370496 (-52)) = S754_finite sx m e.
Proof.
  intros He Hb. cbn [SFdiv]. unfold SFdiv_core_binary.
  change (Zdigits2 (Zpos 4503599627370496)) with 53.
  set (d := Zdigits2 (Zpos m)) in *.
  pose proof (Zdigits2_pos (Zpos m) ltac:(lia)) as Hdpos. fold d in Hdpos.
  rewrite fexp_eq in He.
  set (e' := Z.min (fexp prec emax (d + e - (53 + -52))) (e - -52)).
  assert (Hcases : e' = e \/ (e' = e - 1 /\ -1074 < e)).
  { unfold e'. rewrite fexp_eq. lia. }
  assert (Hsx : xorb sx false = sx) by (destruct sx; reflexivity).
  rewrite Hsx.
  destruct Hcases as [He'|[He' Hlow]]; rewrite He'.
  - replace (e - -52 - e) with 52 by lia.
    pose proof (Z.div_eucl_eq (Z.shiftl (Zpos m) 52) 4503599627370496
                  ltac:(lia)) as Heq.
    pose proof (Z.mod_pos_bound (Z.shiftl (Zpos m) 52) 4503599627370496
                  ltac:(lia)) as Hmod.
    unfold Z.modulo in Hmod.
    rewrite Z.shiftl_mul_pow2 in * by lia.
    change (2 ^ 52) with 4503599627370496 in *.
    destruct (Z.div_eucl (Zpos m * 4503599627370496) 4503599627370496)
      as [q r].
    assert (Hq : q = Zpos m) by lia.
    assert (Hr : r = 0) by lia.
    subst q r. change (new_location 4503599627370496 0) with loc_Exact.
    apply binary_round_aux_exacto; [rewrite fexp_eq; exact He|exact Hb].
  - replace (e - -52 - (e - 1)) with 53 by lia.
    pose proof (Z.div_eucl_eq (Z.shiftl (Zpos m) 53) 4503599627370496
                  ltac:(lia)) as Heq.
    pose proof (Z.mod_pos_bound (Z.shiftl (Zpos m) 53) 4503599627370496
                  ltac:(lia)) as Hmod.
    unfold Z.modulo in Hmod.
    rewrite Z.shiftl_mul_pow2 in * by lia.
    change (2 ^ 53) with 9007199254740992 in *.
    destruct (Z.div_eucl (Zpos m * 9007199254740992) 4503599627370496)
      as [q r].
    assert (Hq : q = Zpos m~0) by lia.
    assert (Hr : r = 0) by lia.
    subst q r. change (new_location 4503599627370496 0) with loc_Exact.
    apply binary_round_aux_doble; [rewrite fexp_eq; exact He|exact Hb].
Qed.

(** [sum([a]) / 1], that is [(0 + a) / 1], is [a], or both are zero. *)
Lemma suma_de_uno_entre_uno (a : float) :
  ((0 + a) / 1)%float = a \/
  (((0 + a) / 1 =? 0)%float = true /\ (a =? 0)%float = true).
Proof.
  destruct (Prim2SF a) as [s|s| |s m e] eqn:Ha.
  - right. rewrite !FloatAxioms.eqb_spec, FloatAxioms.div_spec, FloatAxioms.add_spec, Ha, Prim2SF_zero.
    destruct s; split; reflexivity.
  - left. apply FloatAxioms.Prim2SF_inj. rewrite FloatAxioms.div_spec, FloatAxioms.add_spec, Ha, Prim2SF_zero.
    destruct s; reflexivity.
  - left. apply FloatAxioms.Prim2SF_inj. rewrite FloatAxioms.div_spec, FloatAxioms.add_spec, Ha, Prim2SF_zero.
    reflexivity.
  - left. apply FloatAxioms.Prim2SF_inj. rewrite FloatAxioms.div_spec, FloatAxioms.add_spec, Ha, Prim2SF_zero.
    destruct (valid_finite a s m e Ha) as [He Hb].
    change (Prim2SF 1) with (S754_finite false 4503599627370496 (-52)).
    cbn [SF64add SFadd]. unfold SF64add, SF64div. cbn [SFadd].
    now apply SFdiv_uno.
Qed.

(** *** Numbers within a range *)

Lemma acotada_le (K K' : Z) (v : vista) :
  K <= K' -> acotada K v -> acotada K' v.
Proof. intros HK. destruct v; cbn [acotada]; auto. lia. Qed.

(** An integer below [2^(B - e)] in absolute value, with exponent [e],
    normalises to a number within [B + 1]. *)
Lemma binary_normalize_cota (S e B : Z) (szero : bool) :
  Z.abs S < 2 ^ (B - e) -> -1074 <= B <= 1023 ->
  acotada (B + 1) (ver_sf (binary_normalize prec emax S e szero)).
Proof.
  intros HS HB.
  assert (Hpos : forall (sx : bool) (p : positive),
             Zpos p < 2 ^ (B - e) ->
             acotada (B + 1) (ver_sf (binary_round prec emax sx p e))).
  { intros sx p Hp.
    pose proof (binary_round_bounds sx p e) as Hb. cbv zeta in Hb.
    pose proof (Zdigits2_le (Zpos p) (B - e) ltac:(lia) Hp) as Hd.
    destruct (binary_round prec emax sx p e) as [s|s| |s m' e'];
      cbn [ver_sf acotada]; [exact I|lia|contradiction|lia]. }
  destruct S as [|p|p]; cbn [binary_normalize ver_sf acotada].
  - exact I.
  - apply Hpos. lia.
  - apply Hpos. lia.
Qed.

(** The aligned mantissa of a number of magnitude [M]. *)
Lemma shl_align_cota (m : positive) (e ez : Z) :
  ez <= e ->
  Zpos (fst (shl_align m e ez)) < 2 ^ (Zdigits2 (Zpos m) + e - ez).
Proof.
  intros Hez. pose proof (shl_align_spec m e ez) as Ha.
  destruct (shl_align m e ez) as [m' e']. cbn [fst].
  destruct (Zdigits2_spec (Zpos m) ltac:(lia)) as [_ Hhi].
  pose proof (Zdigits2_pos (Zpos m) ltac:(lia)) as Hd.
  destruct (Z.lt_ge_cases ez e) as [Hlt|Hge].
  - destruct Ha as [Ha _]. destruct (Ha Hlt) as [_ ->].
    replace (Zdigits2 (Zpos m) + e - ez) with (Zdigits2 (Zpos m) + (e - ez))
      by lia.
    rewrite Z.pow_add_r by lia.
    apply Z.mul_lt_mono_pos_r; [pow_side|exact Hhi].
  - destruct Ha as [_ Ha]. destruct (Ha Hge) as [_ ->].
    replace (Zdigits2 (Zpos m) + e - ez) with (Zdigits2 (Zpos m)) by lia.
    exact Hhi.
Qed.

Lemma suma_alineada_cota (sx sy : bool) (mx my : positive) (ex ey K : Z)
  (op : Z -> Z -> Z) :
  (forall u v, Z.abs (op u v) <= Z.abs u + Z.abs v) ->
  Zdigits2 (Zpos mx) + ex <= K -> Zdigits2 (Zpos my) + ey <= K ->
  Z.abs (op (cond_Zopp sx (Zpos (fst (shl_align mx ex (Z.min ex ey)))))
            (cond_Zopp sy (Zpos (fst (shl_align my ey (Z.min ex ey))))))
  < 2 ^ (K + 1 - Z.min ex ey).
Proof.
  intros Hop Hx Hy.
  pose proof (shl_align_cota mx ex (Z.min ex ey) ltac:(lia)) as Hax.
  pose proof (shl_align_cota my ey (Z.min ex ey) ltac:(lia)) as Hay.
  set (ax := Zpos (fst (shl_align mx ex (Z.min ex ey)))) in *.
  set (ay := Zpos (fst (shl_align my ey (Z.min ex ey)))) in *.
  assert (Hpx : 0 < ax) by (unfold ax; lia).
  assert (Hpy : 0 < ay) by (unfold ay; lia).
  assert (Hx2 : ax < 2 ^ (K - Z.min ex ey)).
  { eapply Z.lt_le_trans; [exact Hax|]. apply Z.pow_le_mono_r; lia. }
  assert (Hy2 : ay < 2 ^ (K - Z.min ex ey)).
  { eapply Z.lt_le_trans; [exact Hay|]. apply Z.pow_le_mono_r; lia. }
  assert (Hk : 0 <= K - Z.min ex ey).
  { destruct (Z.le_gt_cases 0 (K - Z.min ex ey)) as [|Hneg]; [assumption|].
    rewrite Z.pow_neg_r in Hx2 by lia. lia. }
  replace (K + 1 - Z.min ex ey) with (1 + (K - Z.min ex ey)) by lia.
  rewrite Z.pow_add_r, Z.pow_1_r by lia.
  pose proof (Hop (cond_Zopp sx ax) (cond_Zopp sy ay)) as Habs.
  assert (Z.abs (cond_Zopp sx ax) = ax) by (destruct sx; cbn [cond_Zopp]; lia).
  assert (Z.abs (cond_Zopp sy ay) = ay) by (destruct sy; cbn [cond_Zopp]; lia).
  lia.
Qed.

(** Sums and differences of numbers within [K] are within [K + 2]. *)
Lemma ver_add_cota (x y : float) (K : Z) :
  -1075 <= K <= 1022 ->
  acotada K (ver x) -> acotada K (ver y) -> acotada (K + 2) (ver (x + y)).
Proof.
  intros HK. unfold ver. rewrite FloatAxioms.add_spec. unfold SF64add.
  destruct (Prim2SF x) as [sx|sx| |sx mx ex];
    destruct (Prim2SF y) as [sy|sy| |sy my ey]; cbn [ver_sf acotada];
    try contradiction; intros Hx Hy.
  - destruct sx, sy; exact I.
  - cbn [SFadd ver_sf acotada]. lia.
  - cbn [SFadd ver_sf acotada]. lia.
  - cbn [SFadd].
    replace (K + 2) with (K + 1 + 1) by lia.
    apply binary_normalize_cota; [|lia].
    apply (suma_alineada_cota sx sy mx my ex ey K Z.add); [intros; lia|lia|lia].
Qed.

Lemma ver_sub_cota (x y : float) (K : Z) :
  -1075 <= K <= 1022 ->
  acotada K (ver x) -> acotada K (ver y) -> acotada (K + 2) (ver (x - y)).
Proof.
  intros HK. unfold ver. rewrite FloatAxioms.sub_spec. unfold SF64sub.
  destruct (Prim2SF x) as [sx|sx| |sx mx ex];
    destruct (Prim2SF y) as [sy|sy| |sy my ey]; cbn [ver_sf acotada];
    try contradiction; intros Hx Hy.
  - destruct sx, sy; exact I.
  - cbn [SFsub ver_sf acotada]. lia.
  - cbn [SFsub ver_sf acotada]. lia.
  - cbn [SFsub].
    replace (K + 2) with (K + 1 + 1) by lia.
    apply binary_normalize_cota; [|lia].
    apply (suma_alineada_cota sx sy mx my ex ey K Z.sub); [intros; lia|lia|lia].
Qed.

(** Products. *)
Lemma ver_mul_cota (x y : float) (Kx Ky : Z) :
  -1074 <= Kx + Ky <= 1023 ->
  acotada Kx (ver x) -> acotada Ky (ver y) ->
  acotada (Kx + Ky + 1) (ver (x * y)).
Proof.
  intros HK Hx Hy. pose proof (ver_mul x y) as Hm.
  destruct (ver x) as [|sx|sx|sx Mx], (ver y) as [|sy|sy|sy My];
    cbn [acotada mul_vista] in *; try contradiction;
    try (rewrite Hm; exact I).
  destruct Hm as [->|[[-> Hbig]|(M & -> & HM)]]; cbn [acotada]; lia.
Qed.

(** The sign of a square. *)
Lemma ver_cuadrado_no_neg (x : float) (K : Z) :
  acotada K (ver x) -> no_neg (ver (x * x)).
Proof.
  intros Hx. pose proof (ver_mul x x) as Hm.
  destruct (ver x) as [|sx|sx|sx Mx]; cbn [acotada mul_vista] in *;
    try contradiction.
  - rewrite Hm. exact I.
  - assert (Hs : xorb sx sx = false) by (destruct sx; reflexivity).
    rewrite Hs in Hm.
    destruct Hm as [->|[[-> _]|(M & -> & _)]]; cbn [no_neg]; auto.
Qed.

(** Halves. *)
Lemma ver_mitad_cota (x : float) (K : Z) :
  -1073 <= K -> acotada K (ver x) -> acotada K (ver (x / 2)).
Proof.
  intros HK Hx. pose proof (ver_div x 2) as Hd. rewrite ver_2 in Hd.
  pose proof (ver_fin_range x) as Hr.
  destruct (ver x) as [|sx|sx|sx Mx]; cbn [acotada div_vista] in *;
    try contradiction.
  - rewrite Hd. exact I.
  - specialize (Hr sx Mx eq_refl).
    destruct Hd as [->|[[-> Hbig]|(M & -> & HM)]]; cbn [acotada]; lia.
Qed.

(** Square roots: the root of a positive finite number of magnitude [M]
    is a positive finite number of magnitude about [M / 2]. *)
Lemma sqrt_core_cota (m : positive) (e : Z) :
  let '(q, e', l) := SFsqrt_core_binary prec emax (Zpos m) e in
  0 < q /\
  Zdigits2 (Zpos m) + e <= 2 * (Zdigits2 q + e') /\
  2 * (Zdigits2 q + e') <= Zdigits2 (Zpos m) + e + 1 /\
  e' <= fexp prec emax (Zdigits2 q + e').
Proof.
  pose proof (sqrt_core_bounds m e) as Hold.
  unfold SFsqrt_core_binary in *.
  set (d := Zdigits2 (Zpos m)) in *.
  set (e' := Z.min (fexp prec emax (Z.div2 (d + e + 1))) (Z.div2 e)) in *.
  set (s := e - 2 * e') in *.
  assert (He2 : 2 * Z.div2 e <= e).
  { rewrite Z.div2_div. pose proof (Z.mul_div_le e 2 ltac:(lia)). lia. }
  assert (Hs : 0 <= s) by (unfold s, e'; lia).
  set (m' := match s with
             | 0 => Z.pos m
             | Z.pos _ => Z.shiftl (Z.pos m) s
             | Z.neg _ => 0
             end) in *.
  assert (Hm' : m' = Zpos m * 2 ^ s).
  { unfold m'. destruct s as [|p|p] eqn:Hsp; [rewrite Z.pow_0_r; lia| |lia].
    now rewrite Z.shiftl_mul_pow2 by lia. }
  pose proof (Zdigits2_pos (Zpos m) ltac:(lia)) as Hd. fold d in Hd.
  destruct (Zdigits2_spec (Zpos m) ltac:(lia)) as [_ Hh]. fold d in Hh.
  assert (Hmh : m' < 2 ^ (d + s)).
  { rewrite Hm'. rewrite Z.pow_add_r by lia.
    apply Z.mul_lt_mono_pos_r; [pow_side|exact Hh]. }
  assert (Hm0 : 0 <= m') by (rewrite Hm'; assert (0 < 2 ^ s) by pow_side; nia).
  pose proof (Z.sqrtrem_spec m' Hm0) as Hsq.
  destruct (Z.sqrtrem m') as [q r]. destruct Hsq as [Hsq Hr].
  destruct Hold as [Hq Hlow].
  split; [exact Hq|]. split; [exact Hlow|].
  set (k := (d + s + 1) / 2).
  assert (Hk2 : d + s <= 2 * k <= d + s + 1).
  { unfold k. pose proof (Z.mul_div_le (d + s + 1) 2 ltac:(lia)).
    pose proof (Z.mul_succ_div_gt (d + s + 1) 2 ltac:(lia)). lia. }
  assert (Hk : 0 <= k) by lia.
  assert (Hqk : q < 2 ^ k).
  { destruct (Z.lt_ge_cases q (2 ^ k)) as [|Hge]; [assumption|exfalso].
    assert (Hkk : 2 ^ (d + s) <= 2 ^ k * 2 ^ k).
    { rewrite <- Z.pow_add_r by lia. apply Z.pow_le_mono_r; lia. }
    assert (0 < 2 ^ k) by pow_side. nia. }
  pose proof (Zdigits2_le q k Hq Hqk) as Hdq.
  split; [unfold s in *; lia|].
  unfold e' at 1. rewrite !fexp_eq.
  assert (Hdiv : Z.div2 (d + e + 1) <= Zdigits2 q + e').
  { rewrite Z.div2_div.
    assert ((d + e + 1) / 2 < Zdigits2 q + e' + 1); [|lia].
    apply Z.div_lt_upper_bound; lia. }
  lia.
Qed.

Lemma ver_sqrt_cota (x : float) (K : Z) :
  acotada K (ver x) -> no_neg (ver x) ->
  no_neg (ver (PrimFloat.sqrt x)) /\
  acotada ((K + 1) / 2 + 1) (ver (PrimFloat.sqrt x)).
Proof.
  unfold ver. rewrite FloatAxioms.sqrt_spec. unfold SF64sqrt.
  destruct (Prim2SF x) as [sx|sx| |sx mx ex] eqn:Hx;
    cbn [ver_sf acotada no_neg SFsqrt]; try contradiction.
  - intros _ _. split; exact I.
  - intros HK ->.
    pose proof (sqrt_core_cota mx ex) as Hc.
    destruct (SFsqrt_core_binary prec emax (Z.pos mx) ex) as [[q e'] l].
    destruct Hc as (Hq & Hlow & Hup & Hcanon).
    pose proof (binary_round_aux_bounds false q e' l ltac:(lia)) as Hb.
    cbv zeta in Hb.
    destruct (valid_finite x false mx ex Hx) as [Hval Hex].
    rewrite fexp_eq in Hval.
    pose proof (Zdigits2_pos (Zpos mx) ltac:(lia)) as Hdx.
    assert (Hhalf : 2 * ((K + 1) / 2) <= K + 1 < 2 * ((K + 1) / 2) + 2).
    { pose proof (Z.mul_div_le (K + 1) 2 ltac:(lia)).
      pose proof (Z.mul_succ_div_gt (K + 1) 2 ltac:(lia)). lia. }
    destruct (binary_round_aux prec emax false q e' l) as [s|s| |s m' e''];
      cbn [ver_sf no_neg acotada].
    + split; exact I.
    + exfalso. destruct Hb as [_ Hinf]. specialize (Hinf Hcanon). lia.
    + contradiction.
    + destruct Hb as (-> & _ & Hhi). split; [reflexivity|]. lia.
Qed.

(** A number below 2^200 in absolute value. *)
Lemma cota_de_ltb (v : float) :
  (abs v <? 0x1p200)%float = true -> acotada 201 (ver v).
Proof.
  rewrite FloatAxioms.ltb_spec, FloatAxioms.abs_spec.
  change (Prim2SF 0x1p200) with (S754_finite false 4503599627370496 148).
  pose proof (valid_finite v) as Hval. unfold ver.
  destruct (Prim2SF v) as [s|s| |s m e]; cbn [SFabs ver_sf acotada];
    unfold SFltb; cbn [SFcompare]; try discriminate; [intros _; exact I|].
  destruct (Hval s m e eq_refl) as [He _]. rewrite fexp_eq in He.
  destruct (e ?= 148) eqn:Hc; try discriminate; intros _.
  - apply Z.compare_eq in Hc. lia.
  - rewrite Z.compare_lt_iff in Hc. lia.
Qed.

Lemma finita_no_neg_clases (x : float) :
  finita_no_neg (ver x) ->
  is_nan x = false /\ is_infinity x = false /\ (0 <=? x)%float = true.
Proof.
  unfold is_nan, is_infinity.
  rewrite !FloatAxioms.eqb_spec, FloatAxioms.leb_spec, FloatAxioms.abs_spec,
    Prim2SF_zero.
  unfold ver.
  destruct (Prim2SF x) as [s|s| |s m e]; cbn [ver_sf finita_no_neg SFabs];
    try contradiction.
  - intros _. destruct s; repeat split; reflexivity.
  - intros ->. unfold SFeqb, SFleb. cbn [SFcompare].
    rewrite Z.compare_refl.
    change (Pos.compare_cont Eq m m) with (Pos.compare m m).
    rewrite Pos.compare_refl. repeat split; reflexivity.
Qed.

Section RadioAcotado.

Variables a b c : float.

Let s : float := ((a + b + c) / 2)%float.
Let H : float := (s * (s - a) * (s - b) * (s - c))%float.
Let D : float := (4 * PrimFloat.sqrt H)%float.
Let N : float := (a * b * c)%float.

(** With sides that are finite, not below zero and of magnitude at most
    206, nothing in the formula overflows: the quotient is finite. *)
Lemma radio_finito :
  no_neg (ver a) -> no_neg (ver b) -> no_neg (ver c) ->
  acotada 206 (ver a) -> acotada 206 (ver b) -> acotada 206 (ver c) ->
  (H <? 0)%float = false -> (D =? 0)%float = false ->
  finita_no_neg (ver (N / D)).
Proof.
  intros Hna Hnb Hnc Ha Hb Hc Hneg Hzero.
  assert (Hs : acotada 210 (ver s)).
  { apply ver_mitad_cota; [lia|].
    apply (ver_add_cota _ _ 208); [lia| |apply (acotada_le 206); [lia|exact Hc]].
    apply (ver_add_cota _ _ 206); [lia|exact Ha|exact Hb]. }
  assert (Hdif : forall u, acotada 206 (ver u) -> acotada 212 (ver (s - u))).
  { intros u Hu. apply (ver_sub_cota _ _ 210); [lia|exact Hs|].
    apply (acotada_le 206); [lia|exact Hu]. }
  assert (HH : acotada 849 (ver H)).
  { apply (ver_mul_cota _ _ 636 212); [lia| |apply Hdif, Hc].
    apply (ver_mul_cota _ _ 423 212); [lia| |apply Hdif, Hb].
    apply (ver_mul_cota _ _ 210 212); [lia|exact Hs|apply Hdif, Ha]. }
  assert (HHn : no_neg (ver H)).
  { pose proof (ltb_zero_false H Hneg) as Hsg.
    destruct (ver H); cbn [acotada no_neg] in *; auto. }
  destruct (ver_sqrt_cota H 849 HH HHn) as [HAn HA].
  change ((849 + 1) / 2 + 1) with 426 in HA.
  assert (HD : acotada 430 (ver D)).
  { apply (ver_mul_cota _ _ 3 426); [lia| |exact HA].
    rewrite ver_4. cbn [acotada]. lia. }
  assert (HN : acotada 620 (ver N)).
  { apply (ver_mul_cota _ _ 413 206); [lia| |exact Hc].
    apply (ver_mul_cota _ _ 206 206); [lia|exact Ha|exact Hb]. }
  assert (Hbien : bien (ver (N / D))).
  { apply (radio_bien a b c); [| | |exact Hzero].
    - destruct (ver a); cbn [no_neg no_neg_o_nan] in *; auto.
    - destruct (ver b); cbn [no_neg no_neg_o_nan] in *; auto.
    - destruct (ver c); cbn [no_neg no_neg_o_nan] in *; auto. }
  pose proof (eqb_zero_false D Hzero) as HDz.
  pose proof (ver_div N D) as Hq.
  destruct (ver N) as [|sN|sN|sN MN], (ver D) as [|sD|sD|sD MD];
    cbn [acotada] in HN, HD; try contradiction;
    try (exfalso; now apply (HDz sD)); cbn [div_vista] in Hq.
  - rewrite Hq. exact I.
  - destruct Hq as [Hq|[[Hq _]|(M & Hq & _)]]; rewrite Hq in Hbien |- *;
      cbn [bien finita_no_neg] in *; auto.
Qed.

End RadioAcotado.

(** The distance of two points with coordinates within 201 is not below
    zero and within 206. *)
Lemma distancia_cota (px py qx qy : float) :
  acotada 201 (ver px) -> acotada 201 (ver py) ->
  acotada 201 (ver qx) -> acotada 201 (ver qy) ->
  no_neg (ver (PrimFloat.sqrt ((px - qx) * (px - qx) + (py - qy) * (py - qy)))) /\
  acotada 206
    (ver (PrimFloat.sqrt ((px - qx) * (px - qx) + (py - qy) * (py - qy)))).
Proof.
  intros Hpx Hpy Hqx Hqy.
  assert (Hdx : acotada 203 (ver (px - qx)))
    by (apply (ver_sub_cota _ _ 201); [lia|assumption|assumption]).
  assert (Hdy : acotada 203 (ver (py - qy)))
    by (apply (ver_sub_cota _ _ 201); [lia|assumption|assumption]).
  assert (Hx2 : acotada 407 (ver ((px - qx) * (px - qx))))
    by (apply (ver_mul_cota _ _ 203 203); [lia|assumption|assumption]).
  assert (Hy2 : acotada 407 (ver ((py - qy) * (py - qy))))
    by (apply (ver_mul_cota _ _ 203 203); [lia|assumption|assumption]).
  pose proof (ver_cuadrado_no_neg _ _ Hdx) as Hnx.
  pose proof (ver_cuadrado_no_neg _ _ Hdy) as Hny.
  pose proof (ver_add_no_neg _ _ Hnx Hny) as Hn.
  pose proof (ver_add_cota _ _ 407 ltac:(lia) Hx2 Hy2) as Hsum.
  destruct (ver_sqrt_cota _ 409 Hsum Hn) as [Hrn Hr].
  split; [exact Hrn|]. exact Hr.
Qed.

End Binary64.

(** [sum([a]) / 1] in binary64. *)
Lemma float64_media_de_uno : ley_media_de_uno float.
Proof. intros a. exact (suma_de_uno_entre_uno a). Qed.

(* ------------------------------------------------------------------ *)
(** *** Real numbers *)

Lemma Reqb_true (a b : R) : Reqb a b = true <-> a = b.
Proof. unfold Reqb. destruct (Req_dec_T a b); split; congruence. Qed.

Lemma Reqb_false (a b : R) : Reqb a b = false <-> a <> b.
Proof. unfold Reqb. destruct (Req_dec_T a b); split; congruence. Qed.

Lemma Rltb_true (a b : R) : Rltb a b = true <-> (a < b)%R.
Proof. unfold Rltb. destruct (Rlt_dec a b); split; (congruence || tauto). Qed.

Lemma Rltb_false (a b : R) : Rltb a b = false <-> (b <= a)%R.
Proof.
  unfold Rltb. destruct (Rlt_dec a b); split; try congruence; try lra.
Qed.

Lemma real_igual_no_menor : ley_igual_no_menor R.
Proof.
  intros a b. cbn [feqb fltb PyReal]. rewrite Reqb_true, !Rltb_false. lra.
Qed.

Lemma real_tolerancia : ley_tolerancia R.
Proof.
  intros d. cbn [feqb fltb fabs of_int lit_1e_9 PyReal].
  rewrite Rltb_false, Reqb_false. intros Hd ->.
  rewrite Rabs_R0 in Hd. lra.
Qed.

Lemma real_cuatro_por_cero : ley_cuatro_por_cero R.
Proof.
  intros a. cbn [feqb fmul of_int PyReal]. rewrite !Reqb_true. intros ->. lra.
Qed.

Lemma real_media_de_uno : ley_media_de_uno R.
Proof. intros a. left. cbn [fquot fadd of_int PyReal]. field. Qed.

(** Over the reals the same number is the equal number. *)
Lemma mismo_numero_real (a b : R) : mismo_numero a b -> a = b.
Proof.
  intros [Heq|[Ha Hb]]; [exact Heq|].
  cbn [feqb of_int PyReal] in Ha, Hb. apply Reqb_true in Ha, Hb. congruence.
Qed.

(* ================================================================== *)
(** ** The circumcircle solver *)

Section Solver.

Context {F : Type} `{PyNum F}.

(** [circle_radius] never propagates an exception: the bare [except]
    turns every one into [None]. *)
Lemma circle_radius_returns (p1 p2 p3 : Point F) :
  exists v, circle_radius p1 p2 p3 = Ok v.
Proof.
  unfold circle_radius.
  destruct (math_sqrt _) as [area|e]; cbn; [|eauto].
  destruct (py_div _ _) as [r|e]; cbn; eauto.
Qed.

(** A negative argument of the square root gives [None]. *)
Lemma circle_radius_negative (p1 p2 p3 : Point F) :
  fltb (heron_arg (distance p1 p2) (distance p2 p3) (distance p3 p1))
       (of_int 0) = true ->
  circle_radius p1 p2 p3 = Ok None.
Proof.
  intros Hneg. unfold circle_radius, math_sqrt. now rewrite Hneg.
Qed.

(** A zero area gives [None]. *)
Lemma circle_radius_zero_area (p1 p2 p3 : Point F) :
  ley_cuatro_por_cero F ->
  feqb (fsqrt (heron_arg (distance p1 p2) (distance p2 p3) (distance p3 p1)))
       (of_int 0) = true ->
  circle_radius p1 p2 p3 = Ok None.
Proof.
  intros Hlaw Hzero. unfold circle_radius, math_sqrt.
  destruct (fltb _ _); cbn; [reflexivity|].
  unfold py_div. now rewrite (Hlaw _ Hzero).
Qed.

(** A radius is returned exactly when no exception is raised: the
    argument of the square root is not negative and four times the area
    is not zero.  The radius is then the quotient of the formula. *)
Lemma circle_radius_some (p1 p2 p3 : Point F) (r : F) :
  circle_radius p1 p2 p3 = Ok (Some r) <->
  fltb (heron_arg (distance p1 p2) (distance p2 p3) (distance p3 p1))
       (of_int 0) = false /\
  feqb (fmul (of_int 4)
          (fsqrt (heron_arg (distance p1 p2) (distance p2 p3) (distance p3 p1))))
       (of_int 0) = false /\
  r = fquot (fmul (fmul (distance p1 p2) (distance p2 p3)) (distance p3 p1))
        (fmul (of_int 4)
           (fsqrt (heron_arg (distance p1 p2) (distance p2 p3)
                     (distance p3 p1)))).
Proof.
  unfold circle_radius, math_sqrt, py_div.
  destruct (fltb _ (of_int 0)); py_bind; cbn [try_except].
  - split; [discriminate|]. intros [Hf _]. discriminate.
  - destruct (feqb _ (of_int 0)); py_bind; cbn [try_except].
    + split; [discriminate|]. intros (_ & Hf & _). discriminate.
    + split.
      * intros [= <-]. repeat split.
      * intros (_ & _ & ->). reflexivity.
Qed.


End Solver.

(* ------------------------------------------------------------------ *)
(** *** The solver in exact arithmetic *)

Section RealGeometry.

Local Open Scope R_scope.

Lemma sq_dist_nonneg (p q : Point R) : 0 <= sq_dist p q.
Proof.
  unfold sq_dist. apply Rplus_le_le_0_compat; apply Rle_0_sqr.
Qed.

Lemma distance_real (p q : Point R) : distance p q = sqrt (sq_dist p q).
Proof. reflexivity. Qed.

Lemma distance_sqr (p q : Point R) : distance p q * distance p q = sq_dist p q.
Proof. rewrite distance_real. apply sqrt_sqrt, sq_dist_nonneg. Qed.

Lemma sq_dist_det (p1 p2 p3 : Point R) :
  let A := sq_dist p1 p2 in
  let B := sq_dist p2 p3 in
  let C := sq_dist p3 p1 in
  2 * A * B + 2 * B * C + 2 * C * A - A * A - B * B - C * C =
  center_det p1 p2 p3 * center_det p1 p2 p3.
Proof.
  destruct p1 as [ax ay], p2 as [bx by_], p3 as [cx cy].
  unfold sq_dist, center_det; cbn. ring.
Qed.

Lemma heron_real (p1 p2 p3 : Point R) :
  heron_arg (distance p1 p2) (distance p2 p3) (distance p3 p1) =
  center_det p1 p2 p3 * center_det p1 p2 p3 / 16.
Proof.
  rewrite <- sq_dist_det. cbv zeta.
  rewrite <- !distance_sqr.
  unfold heron_arg; cbn [fquot fadd fsub fmul of_int PyReal]. field.
Qed.

Lemma sqrt_heron_real (p1 p2 p3 : Point R) :
  sqrt (heron_arg (distance p1 p2) (distance p2 p3) (distance p3 p1)) =
  Rabs (center_det p1 p2 p3) / 4.
Proof.
  rewrite heron_real.
  set (d := center_det p1 p2 p3).
  replace (d * d / 16) with ((Rabs d / 4) * (Rabs d / 4)).
  - apply sqrt_square. pose proof (Rabs_pos d). lra.
  - replace (d * d) with (Rabs d * Rabs d); [field|].
    rewrite <- Rabs_mult. apply Rabs_right, Rle_ge, Rle_0_sqr.
Qed.


(** Over the reals [circle_radius] is [a*b*c / |d|], and [None] exactly
    when the points are collinear. *)
Lemma circle_radius_real (p1 p2 p3 : Point R) :
  circle_radius p1 p2 p3 =
  if Reqb (center_det p1 p2 p3) 0 then Ok None
  else Ok (Some (distance p1 p2 * distance p2 p3 * distance p3 p1 /
                 (4 * (Rabs (center_det p1 p2 p3) / 4)))).
Proof.
  unfold circle_radius, math_sqrt, py_div.
  cbn [fltb feqb fquot fmul fsqrt of_int PyReal].
  rewrite sqrt_heron_real, heron_real.
  set (d := center_det p1 p2 p3).
  replace (Rltb (d * d / 16) 0) with false.
  2:{ symmetry. apply Rltb_false. pose proof (Rle_0_sqr d) as Hd.
      unfold Rsqr in Hd. lra. }
  cbn [mbind result_bind bind].
  destruct (Reqb d 0) eqn:Hd0.
  - apply Reqb_true in Hd0. rewrite Hd0, Rabs_R0.
    replace (Reqb (4 * (0 / 4)) 0) with true; [reflexivity|].
    symmetry. apply Reqb_true. lra.
  - apply Reqb_false in Hd0.
    replace (Reqb (4 * (Rabs d / 4)) 0) with false; [reflexivity|].
    symmetry. apply Reqb_false. pose proof (Rabs_pos_lt d Hd0). lra.
Qed.

Lemma circle_center_real (p1 p2 p3 : Point R) :
  circle_center p1 p2 p3 =
  if Rltb (Rabs (center_det p1 p2 p3)) (/ 10 ^ 9) then Ok None
  else Ok (Some (centro_real p1 p2 p3)).
Proof.
  unfold circle_center, centro_real, py_div.
  destruct p1 as [ax ay], p2 as [bx by_], p3 as [cx cy].
  cbn [x y fltb fabs lit_1e_9 feqb fquot fadd fsub fmul of_int PyReal].
  set (d := center_det _ _ _).
  destruct (Rltb (Rabs d) (/ 10 ^ 9)) eqn:Htol; [reflexivity|].
  pose proof (real_tolerancia d Htol) as Hd0.
  cbn [feqb of_int PyReal] in Hd0. rewrite Hd0. reflexivity.
Qed.

(** The centre of the formula is at the same squared distance
    [A*B*C / d^2] from the three points. *)
Lemma centro_real_sq_dist (p1 p2 p3 : Point R) :
  center_det p1 p2 p3 <> 0 ->
  let c := centro_real p1 p2 p3 in
  let r2 := sq_dist p1 p2 * sq_dist p2 p3 * sq_dist p3 p1 /
            (center_det p1 p2 p3 * center_det p1 p2 p3) in
  sq_dist c p1 = r2 /\ sq_dist c p2 = r2 /\ sq_dist c p3 = r2.
Proof.
  destruct p1 as [ax ay], p2 as [bx by_], p3 as [cx cy].
  unfold centro_real, sq_dist, center_det.
  cbn [x y fadd fsub fmul of_int PyReal]. intros Hd.
  repeat split; field; intros Hz; apply Hd; rewrite Hz; ring.
Qed.


Lemma collinear_det (p1 p2 p3 : Point R) :
  collinear p1 p2 p3 <-> center_det p1 p2 p3 = 0.
Proof.
  destruct p1 as [ax ay], p2 as [bx by_], p3 as [cx cy].
  unfold collinear, center_det; cbn [x y fadd fsub fmul of_int PyReal].
  split; intros Hc; lra.
Qed.

Lemma sq_dist_zero (p q : Point R) : sq_dist p q = 0 -> p = q.
Proof.
  destruct p as [px py], q as [qx qy]. unfold sq_dist; cbn [x y].
  intros Hz. apply Rplus_sqr_eq_0 in Hz. destruct Hz as [Hx Hy].
  f_equal; lra.
Qed.

Lemma det_coincident (p q : Point R) :
  center_det p p q = 0 /\ center_det p q q = 0 /\ center_det p q p = 0.
Proof.
  destruct p as [px py], q as [qx qy].
  unfold center_det; cbn [x y fadd fsub fmul of_int PyReal].
  repeat split; ring.
Qed.

Lemma distance_pos (p1 p2 p3 : Point R) :
  center_det p1 p2 p3 <> 0 ->
  0 < distance p1 p2 /\ 0 < distance p2 p3 /\ 0 < distance p3 p1.
Proof.
  intros Hd.
  assert (Hpos : forall p q, p <> q -> 0 < distance p q).
  { intros p q Hpq. rewrite distance_real. apply sqrt_lt_R0.
    destruct (sq_dist_nonneg p q) as [Hlt|Heq]; [exact Hlt|].
    symmetry in Heq. apply sq_dist_zero in Heq. contradiction. }
  repeat split; apply Hpos; intros Heq; apply Hd; subst;
    apply det_coincident.
Qed.

(** A point at distance [rho] from the three points is the centre of the
    formula. *)
Lemma centro_real_unique (p1 p2 p3 c : Point R) :
  center_det p1 p2 p3 <> 0 ->
  sq_dist c p1 = sq_dist c p2 -> sq_dist c p1 = sq_dist c p3 ->
  c = centro_real p1 p2 p3.
Proof.
  destruct p1 as [ax ay], p2 as [bx by_], p3 as [cx cy], c as [u v].
  unfold centro_real, sq_dist, center_det.
  cbn [x y fadd fsub fmul of_int PyReal]. intros Hd H12 H13.
  set (d := 2 * (ax * (by_ - cy) + bx * (cy - ay) + cx * (ay - by_))) in *.
  f_equal.
  - apply (Rmult_eq_reg_r d); [|exact Hd]. unfold Rdiv.
    rewrite Rmult_assoc, Rinv_l, Rmult_1_r by exact Hd.
    pose proof (f_equal (Rmult (cy - ay)) H12) as K1.
    pose proof (f_equal (Rmult (by_ - ay)) H13) as K2.
    unfold d. nra.
  - apply (Rmult_eq_reg_r d); [|exact Hd]. unfold Rdiv.
    rewrite Rmult_assoc, Rinv_l, Rmult_1_r by exact Hd.
    pose proof (f_equal (Rmult (cx - ax)) H12) as K1.
    pose proof (f_equal (Rmult (bx - ax)) H13) as K2.
    unfold d. nra.
Qed.


Lemma radio_real_pos (p1 p2 p3 : Point R) :
  center_det p1 p2 p3 <> 0 -> 0 < radio_real p1 p2 p3.
Proof.
  intros Hd. unfold radio_real.
  destruct (distance_pos p1 p2 p3 Hd) as (Ha & Hb & Hc).
  pose proof (Rabs_pos_lt _ Hd) as Habs.
  apply Rdiv_lt_0_compat; [|lra].
  apply Rmult_lt_0_compat; [apply Rmult_lt_0_compat|]; assumption.
Qed.

Lemma radio_real_sqr (p1 p2 p3 : Point R) :
  center_det p1 p2 p3 <> 0 ->
  radio_real p1 p2 p3 * radio_real p1 p2 p3 =
  sq_dist p1 p2 * sq_dist p2 p3 * sq_dist p3 p1 /
  (center_det p1 p2 p3 * center_det p1 p2 p3).
Proof.
  intros Hd. unfold radio_real.
  rewrite <- !distance_sqr.
  set (d := center_det p1 p2 p3) in *.
  assert (Habs : Rabs d * Rabs d = d * d).
  { rewrite <- Rabs_mult. apply Rabs_right, Rle_ge, Rle_0_sqr. }
  rewrite <- Habs.
  pose proof (Rabs_pos_lt _ Hd) as Hpos.
  field. lra.
Qed.

(** Every point at squared distance [r^2] is at distance [r]. *)
Lemma distance_of_sq_dist (c p : Point R) (r : R) :
  0 <= r -> sq_dist c p = r * r -> distance c p = r.
Proof.
  intros Hr Hsq. rewrite distance_real.
  apply sqrt_lem_1; [apply sq_dist_nonneg|exact Hr|now symmetry].
Qed.

Lemma centro_real_distance (p1 p2 p3 : Point R) :
  center_det p1 p2 p3 <> 0 ->
  let c := centro_real p1 p2 p3 in
  let r := radio_real p1 p2 p3 in
  distance c p1 = r /\ distance c p2 = r /\ distance c p3 = r.
Proof.
  intros Hd c r.
  destruct (centro_real_sq_dist p1 p2 p3 Hd) as (H1 & H2 & H3).
  pose proof (radio_real_pos p1 p2 p3 Hd) as Hr.
  pose proof (radio_real_sqr p1 p2 p3 Hd) as Hsq.
  repeat split; apply distance_of_sq_dist; try (unfold r; lra);
    unfold r, c; rewrite Hsq; assumption.
Qed.

End RealGeometry.

(** The formulas in exact arithmetic.  Over the reals, for three points
    that are not collinear [circle_radius] returns a positive [r], and [r]
    is the radius of the one circle through the three points: some centre
    is at distance [r] from all three, and every point equidistant from
    the three is at that distance.  [circle_center] returns such a centre
    when the determinant [d] passes its tolerance test [|d| >= 1e-9]; when
    [|d| < 1e-9] it returns no centre although the points are not
    collinear. *)
Lemma circumcircle_real (p1 p2 p3 : Point R) :
  ~ collinear p1 p2 p3 ->
  exists r : R,
    circle_radius p1 p2 p3 = Ok (Some r) /\ (0 < r)%R /\
    (exists c, distance c p1 = r /\ distance c p2 = r /\ distance c p3 = r) /\
    (forall c rho,
        distance c p1 = rho -> distance c p2 = rho -> distance c p3 = rho ->
        rho = r) /\
    ((/ 10 ^ 9 <= Rabs (center_det p1 p2 p3))%R ->
     exists c, circle_center p1 p2 p3 = Ok (Some c) /\
               distance c p1 = r /\ distance c p2 = r /\ distance c p3 = r) /\
    ((Rabs (center_det p1 p2 p3) < / 10 ^ 9)%R ->
     circle_center p1 p2 p3 = Ok None).
Proof.
  intros Hnc.
  assert (Hd : center_det p1 p2 p3 <> 0%R)
    by (intros Hz; apply Hnc, collinear_det, Hz).
  exists (radio_real p1 p2 p3).
  pose proof (centro_real_distance p1 p2 p3 Hd) as Hdist. cbv zeta in Hdist.
  split; [|split; [|split; [|split; [|split]]]].
  - rewrite circle_radius_real.
    apply Reqb_false in Hd. now rewrite Hd.
  - now apply radio_real_pos.
  - now exists (centro_real p1 p2 p3).
  - intros c rho H1 H2 H3.
    assert (Hc : c = centro_real p1 p2 p3).
    { apply centro_real_unique; [exact Hd| |].
      - rewrite <- !distance_sqr, H1, H2. reflexivity.
      - rewrite <- !distance_sqr, H1, H3. reflexivity. }
    subst c. destruct Hdist as (Hr & _). congruence.
  - intros Htol. exists (centro_real p1 p2 p3). split; [|exact Hdist].
    rewrite circle_center_real.
    apply Rltb_false in Htol. now rewrite Htol.
  - intros Htol. rewrite circle_center_real.
    apply Rltb_true in Htol. now rewrite Htol.
Qed.

(* ------------------------------------------------------------------ *)
(** *** The solver in binary64 *)

(** A distance is a square root: not below zero, or not a number. *)
Lemma distance_no_neg (p q : Point float) : no_neg_o_nan (ver (distance p q)).
Proof. apply no_neg_o_nan_sqrt. Qed.

(** A radius that [circle_radius] returns is not a number, or a zero, or
    a positive finite number.  The sides are not below zero, so an
    infinite quotient would need an infinite product of the sides over a
    finite area, or a finite product more than 2^1023 times the area; in
    both cases the half perimeter, which is below 2^297 when the area is
    finite, is too small for the product. *)
Lemma circle_radius_bien (p1 p2 p3 : Point float) (r : float) :
  circle_radius p1 p2 p3 = Ok (Some r) -> bien (ver r).
Proof.
  intros Hr. apply circle_radius_some in Hr. destruct Hr as (_ & Hz & ->).
  exact (radio_bien _ _ _ (distance_no_neg p1 p2) (distance_no_neg p2 p3)
           (distance_no_neg p3 p1) Hz).
Qed.

Lemma moderado_cota (p : Point float) :
  moderado p = true -> acotada 201 (ver (x p)) /\ acotada 201 (ver (y p)).
Proof.
  unfold moderado. intros Hm. apply andb_prop in Hm. destruct Hm as [Hx Hy].
  split; now apply cota_de_ltb.
Qed.

(** With coordinates below 2^200 in absolute value nothing in the formula
    overflows, and a radius that [circle_radius] returns is finite and
    not below zero. *)
Lemma circle_radius_finito (p1 p2 p3 : Point float) (r : float) :
  moderado p1 = true -> moderado p2 = true -> moderado p3 = true ->
  circle_radius p1 p2 p3 = Ok (Some r) -> finita_no_neg (ver r).
Proof.
  intros H1 H2 H3 Hr.
  apply circle_radius_some in Hr. destruct Hr as (Hneg & Hz & ->).
  destruct (moderado_cota p1 H1) as [Hx1 Hy1].
  destruct (moderado_cota p2 H2) as [Hx2 Hy2].
  destruct (moderado_cota p3 H3) as [Hx3 Hy3].
  destruct (distancia_cota _ _ _ _ Hx1 Hy1 Hx2 Hy2) as [Han Ha].
  destruct (distancia_cota _ _ _ _ Hx2 Hy2 Hx3 Hy3) as [Hbn Hb].
  destruct (distancia_cota _ _ _ _ Hx3 Hy3 Hx1 Hy1) as [Hcn Hc].
  exact (radio_finito (distance p1 p2) (distance p2 p3) (distance p3 p1)
           Han Hbn Hcn Ha Hb Hc Hneg Hz).
Qed.



(* ------------------------------------------------------------------ *)
(** *** Degenerate triplets *)

(** C4 (amended).  In binary64: when the argument of the square root in
    Heron's formula is negative, or the area is zero, [circle_radius]
    returns [None]; for every input it returns normally, never propagating
    an exception; it never returns an infinity; and with coordinates below
    2^200 in absolute value it never returns NaN.  (With larger
    coordinates it can.) *)
Theorem circle_radius_signals_degenerate (p1 p2 p3 : Point float) :
  let arg := heron_arg (distance p1 p2) (distance p2 p3) (distance p3 p1) in
  (fltb arg (of_int 0) = true \/ feqb (fsqrt arg) (of_int 0) = true ->
   circle_radius p1 p2 p3 = Ok None) /\
  (exists v, circle_radius p1 p2 p3 = Ok v) /\
  (forall r, circle_radius p1 p2 p3 = Ok (Some r) ->
             PrimFloat.is_infinity r = false) /\
  (moderado p1 = true -> moderado p2 = true -> moderado p3 = true ->
   forall r, circle_radius p1 p2 p3 = Ok (Some r) ->
             PrimFloat.is_nan r = false).
Proof.
  intros arg. split; [|split; [|split]].
  - intros [Hneg|Hzero].
    + now apply circle_radius_negative.
    + apply circle_radius_zero_area; [exact float64_cuatro_por_cero|exact Hzero].
  - apply circle_radius_returns.
  - intros r Hr. apply bien_no_inf. exact (circle_radius_bien p1 p2 p3 r Hr).
  - intros H1 H2 H3 r Hr.
    exact (proj1 (finita_no_neg_clases r
                    (circle_radius_finito p1 p2 p3 r H1 H2 H3 Hr))).
Qed.

(** C4 witness: binary64, the collinear points (0,0), (1,0), (2,0), whose
    area is zero. *)
Lemma circle_radius_signals_degenerate_witness :
  let p1 : Point float := QgsPointXY 0%float 0%float in
  let p2 : Point float := QgsPointXY 1%float 0%float in
  let p3 : Point float := QgsPointXY 2%float 0%float in
  feqb (fsqrt (heron_arg (distance p1 p2) (distance p2 p3) (distance p3 p1)))
       (of_int 0) = true /\
  circle_radius p1 p2 p3 = Ok None /\
  (exists v, circle_radius p1 p2 p3 = Ok v) /\
  (forall r, circle_radius p1 p2 p3 = Ok (Some r) ->
             PrimFloat.is_infinity r = false) /\
  moderado p1 = true /\ moderado p2 = true /\ moderado p3 = true /\
  (forall r, circle_radius p1 p2 p3 = Ok (Some r) ->
             PrimFloat.is_nan r = false).
Proof.
  intros p1 p2 p3.
  pose proof (circle_radius_signals_degenerate p1 p2 p3)
    as (Hnone & Hret & Hinf & Hnan).
  assert (Hzero : feqb (fsqrt (heron_arg (distance p1 p2) (distance p2 p3)
                                 (distance p3 p1))) (of_int 0) = true)
    by (vm_compute; reflexivity).
  split; [exact Hzero|].
  split; [apply Hnone; right; exact Hzero|]. split; [exact Hret|].
  split; [exact Hinf|].
  split; [reflexivity|]. split; [reflexivity|]. split; [reflexivity|].
  exact (Hnan eq_refl eq_refl eq_refl).
Defined.

(** C4 (as stated) fails: [circle_radius] can return NaN.  For the right
    triangle with legs 2^500 the products [a*b*c] and [s(s-a)(s-b)(s-c)]
    overflow to infinity, [math.sqrt] returns infinity without raising, and
    the quotient of the two infinities is NaN. *)
Lemma circle_radius_overflow_nan :
  let p1 : Point float := QgsPointXY 0%float 0%float in
  let p2 : Point float := QgsPointXY 0x1p500%float 0%float in
  let p3 : Point float := QgsPointXY 0%float 0x1p500%float in
  exists r : float,
    circle_radius p1 p2 p3 = Ok (Some r) /\ PrimFloat.is_nan r = true.
Proof.
  cbv zeta. exists PrimFloat.nan. split; vm_compute; reflexivity.
Qed.

(** In exact arithmetic collinear points are degenerate for both
    functions. *)
Lemma collinear_degenerate_real (p1 p2 p3 : Point R) :
  collinear p1 p2 p3 ->
  circle_radius p1 p2 p3 = Ok None /\ circle_center p1 p2 p3 = Ok None.
Proof.
  intros Hc. apply collinear_det in Hc. split.
  - rewrite circle_radius_real, Hc.
    replace (Reqb 0 0) with true; [reflexivity|].
    symmetry. now apply Reqb_true.
  - rewrite circle_center_real, Hc, Rabs_R0.
    replace (Rltb 0 (/ 10 ^ 9)) with true; [reflexivity|].
    symmetry. apply Rltb_true. simpl. lra.
Qed.

(** The example of the spec in binary64: (0,0), (1,0), (2,0). *)
Lemma collinear_example_float :
  let p1 : Point float := QgsPointXY 0%float 0%float in
  let p2 : Point float := QgsPointXY 1%float 0%float in
  let p3 : Point float := QgsPointXY 2%float 0%float in
  circle_radius p1 p2 p3 = Ok None /\ circle_center p1 p2 p3 = Ok None.
Proof. cbv zeta. split; vm_compute; reflexivity. Qed.

(** C8 fails on the code: the points (0,0), (1,1), (3,3) lie on one line
    and [circle_center] returns [None] for them, but [circle_radius]
    returns a radius.  The side lengths sqrt 2, sqrt 8 and sqrt 18 are
    rounded, [s - c] comes out as one unit in the last place instead of
    zero, and the area is 1.2e-7 instead of zero, so no exception is
    raised. *)
Theorem collinear_radius_not_degenerate :
  let p1 : Point float := QgsPointXY 0%float 0%float in
  let p2 : Point float := QgsPointXY 1%float 1%float in
  let p3 : Point float := QgsPointXY 3%float 3%float in
  center_det p1 p2 p3 = 0%float /\
  circle_center p1 p2 p3 = Ok None /\
  circle_radius p1 p2 p3 = Ok (Some 0x1.07a673243a6b3p+25%float).
Proof. cbv zeta. repeat split; vm_compute; reflexivity. Qed.

(* ================================================================== *)
(** ** The segment extractor *)

Section Extractor.

Context {F : Type} `{PyNum F}.

Variable prm : Parametros F.

Lemma circle_center_returns (p1 p2 p3 : Point F) :
  ley_tolerancia F -> exists v, circle_center p1 p2 p3 = Ok v.
Proof.
  intros Htol. unfold circle_center.
  destruct (fltb (fabs (center_det p1 p2 p3)) lit_1e_9) eqn:Hd; [eauto|].
  unfold py_div. rewrite (Htol _ Hd). py_bind. eauto.
Qed.

(** What one triplet does to [segmentos]: nothing, or one new segment whose
    radius passed both filters. *)
Lemma procesar_tripleta_cases (p1 p2 p3 : Point F) (segmentos : list (Segmento F)) :
  ley_tolerancia F ->
  procesar_tripleta prm p1 p2 p3 segmentos = Ok segmentos \/
  exists r center,
    fltb (distance p1 p2) (md prm) = false /\
    fltb (distance p2 p3) (md prm) = false /\
    circle_radius p1 p2 p3 = Ok (Some r) /\
    truthy r = true /\ fltb (rmin prm) r = true /\ fltb r (rmax prm) = true /\
    procesar_tripleta prm p1 p2 p3 segmentos =
    Ok (segmentos ++ [ {| geom := [p1; p2; p3]; radio := r;
                          long := polyline_length p1 p2 p3;
                          centro := center |} ]).
Proof.
  intros Htol. unfold procesar_tripleta.
  destruct (fltb (distance p1 p2) (md prm)) eqn:H12; [now left|].
  destruct (fltb (distance p2 p3) (md prm)) eqn:H23; [now left|].
  cbn [orb].
  destruct (circle_radius_returns p1 p2 p3) as [[r|] Hr]; rewrite Hr; py_bind;
    [|now left].
  destruct (truthy r) eqn:Ht; [|now left].
  destruct (fltb (rmin prm) r) eqn:Hmin; [|now left].
  destruct (fltb r (rmax prm)) eqn:Hmax; [|now left].
  cbn [andb]. right.
  destruct (incluir_ctr prm).
  - destruct (circle_center_returns p1 p2 p3 Htol) as [center ->]. py_bind.
    exists r, center. repeat split; assumption || reflexivity.
  - py_bind. exists r, None. repeat split; assumption || reflexivity.
Qed.


(** C7.  A triplet with [dist(p1,p2)] or [dist(p2,p3)] below
    [minVertexSpacing] leaves [segmentos] as it was, whatever its radius:
    the test comes before the radius is computed. *)
Theorem spacing_filter_rejects
  (p1 p2 p3 : Point F) (segmentos : list (Segmento F)) :
  fltb (distance p1 p2) (md prm) = true \/
  fltb (distance p2 p3) (md prm) = true ->
  procesar_tripleta prm p1 p2 p3 segmentos = Ok segmentos.
Proof.
  intros Hclose. unfold procesar_tripleta.
  destruct Hclose as [-> | ->]; [reflexivity|].
  now rewrite orb_true_r.
Qed.

(** C5.  A triplet adds a segment only when [rmin < r < rmax], with both
    comparisons strict: a radius equal to [rmin] or to [rmax] adds
    nothing. *)
Theorem range_filter_strict
  (p1 p2 p3 : Point F) (segmentos : list (Segmento F)) :
  ley_igual_no_menor F ->
  (forall segmentos',
      procesar_tripleta prm p1 p2 p3 segmentos = Ok segmentos' ->
      segmentos' <> segmentos ->
      exists r, circle_radius p1 p2 p3 = Ok (Some r) /\
                fltb (rmin prm) r = true /\ fltb r (rmax prm) = true) /\
  (forall r,
      circle_radius p1 p2 p3 = Ok (Some r) ->
      feqb r (rmin prm) = true \/ feqb r (rmax prm) = true ->
      procesar_tripleta prm p1 p2 p3 segmentos = Ok segmentos).
Proof.
  intros Hlaw. split.
  - intros segmentos' Hrun Hnew. unfold procesar_tripleta in Hrun.
    destruct (_ || _); [congruence|].
    destruct (circle_radius p1 p2 p3) as [[r|]|e]; py_bind in Hrun;
      try congruence.
    destruct (truthy r); cbn [andb] in Hrun; [|congruence].
    destruct (fltb (rmin prm) r) eqn:Hmin; cbn [andb] in Hrun; [|congruence].
    destruct (fltb r (rmax prm)) eqn:Hmax; [|congruence].
    now exists r.
  - intros r Hr Heq. unfold procesar_tripleta.
    destruct (_ || _); [reflexivity|].
    rewrite Hr. py_bind.
    destruct Heq as [Heq|Heq]; apply Hlaw in Heq; destruct Heq as [H1 H2].
    + rewrite H2, andb_false_r. reflexivity.
    + rewrite H1, andb_false_r. reflexivity.
Qed.

(** [range(len(line) - 2)] visits exactly the triplets of [tripletas]. *)
Lemma for_each_ext {A S : Type} (xs : list A) (f g : A -> S -> result S) (s : S) :
  (forall a s, f a s = g a s) -> for_each xs f s = for_each xs g s.
Proof.
  intros Hfg. revert s. induction xs as [|a xs IH]; intros s; [reflexivity|].
  cbn. rewrite Hfg. destruct (g a s); cbn; [apply IH|reflexivity].
Qed.

Lemma tripletas_cons (p1 p2 p3 : Point F) (rest : list (Point F)) :
  tripletas (p1 :: p2 :: p3 :: rest) =
  (p1, p2, p3) :: tripletas (p2 :: p3 :: rest).
Proof. reflexivity. Qed.

Lemma for_each_indices (pre rest : list (Point F)) (segmentos : list (Segmento F)) :
  for_each (seq (length pre) (length rest - 2))
    (fun j segmentos =>
       p1 ← py_index (pre ++ rest) j;
       p2 ← py_index (pre ++ rest) (j + 1);
       p3 ← py_index (pre ++ rest) (j + 2);
       procesar_tripleta prm p1 p2 p3 segmentos) segmentos =
  for_each (tripletas rest)
    (fun '(p1, p2, p3) segmentos => procesar_tripleta prm p1 p2 p3 segmentos)
    segmentos.
Proof.
  revert pre segmentos.
  induction rest as [|p1 rest IH]; intros pre segmentos; [reflexivity|].
  destruct rest as [|p2 [|p3 rest]]; [reflexivity|reflexivity|].
  rewrite tripletas_cons. cbn [length Nat.sub seq for_each].
  assert (Hj : forall k q,
             (p1 :: p2 :: p3 :: rest) !! k = Some q ->
             py_index (pre ++ p1 :: p2 :: p3 :: rest) (length pre + k) = Ok q).
  { intros k q Hk. unfold py_index.
    rewrite lookup_app_r by lia.
    replace (length pre + k - length pre)%nat with k by lia.
    now rewrite Hk. }
  rewrite <- (Nat.add_0_r (length pre)) at 1.
  rewrite (Hj 0%nat p1), (Hj 1%nat p2), (Hj 2%nat p3) by reflexivity.
  py_bind.
  destruct (procesar_tripleta prm p1 p2 p3 segmentos) as [segmentos'|e];
    cbn [bind]; [|reflexivity].
  specialize (IH (pre ++ [p1]) segmentos').
  rewrite length_app, Nat.add_1_r in IH.
  cbn [length Nat.sub] in IH. rewrite Nat.sub_0_r in IH.
  rewrite <- IH. apply for_each_ext. intros j s.
  now rewrite <- !app_assoc.
Qed.

Lemma procesar_linea_tripletas (line : list (Point F)) (segmentos : list (Segmento F)) :
  procesar_linea prm line segmentos =
  for_each (tripletas line)
    (fun '(p1, p2, p3) segmentos => procesar_tripleta prm p1 p2 p3 segmentos)
    segmentos.
Proof.
  unfold procesar_linea, py_range.
  replace (Z.to_nat (Z.of_nat (length line) - 2)) with (length line - 2)%nat
    by lia.
  exact (for_each_indices [] line segmentos).
Qed.

Lemma length_tripletas (line : list (Point F)) :
  length (tripletas line) = (length line - 2)%nat.
Proof.
  induction line as [|p1 rest IH]; [reflexivity|].
  destruct rest as [|p2 [|p3 rest]]; [reflexivity|reflexivity|].
  rewrite tripletas_cons. cbn [length] in *. rewrite IH. lia.
Qed.



(** A run over a list of triplets appends at most one segment per triplet,
    each made from one of the triplets. *)
Lemma for_each_tripletas
  (ts : list (Point F * Point F * Point F)) (segmentos : list (Segmento F)) :
  ley_tolerancia F ->
  exists nuevos,
    for_each ts
      (fun '(p1, p2, p3) segmentos => procesar_tripleta prm p1 p2 p3 segmentos)
      segmentos = Ok (segmentos ++ nuevos) /\
    (length nuevos <= length ts)%nat /\
    Forall (fun seg => exists t, t ∈ ts /\ aceptada prm t seg) nuevos.
Proof.
  intros Htol. revert segmentos.
  induction ts as [|[[p1 p2] p3] ts IH]; intros segmentos.
  - exists []. rewrite app_nil_r. repeat split; [cbn; lia|constructor].
  - cbn [for_each].
    destruct (procesar_tripleta_cases p1 p2 p3 segmentos Htol)
      as [Hskip|(r & center & H12 & H23 & Hr & _ & Hmin & Hmax & Hadd)].
    + rewrite Hskip. cbn [bind].
      destruct (IH segmentos) as (nuevos & Hrun & Hlen & Hall).
      exists nuevos. repeat split; [exact Hrun|cbn; lia|].
      eapply Forall_impl; [exact Hall|].
      intros seg (t & Ht & Hacc). exists t. split; [now right|exact Hacc].
    + rewrite Hadd. cbn [bind].
      destruct (IH (segmentos ++ [ {| geom := [p1; p2; p3]; radio := r;
                  long := polyline_length p1 p2 p3;
                  centro := center |} ])) as (nuevos & Hrun & Hlen & Hall).
      eexists (_ :: nuevos). rewrite Hrun, <- app_assoc.
      repeat split; [cbn; lia|]. constructor.
      * exists (p1, p2, p3). split; [now left|].
        repeat split; assumption.
      * eapply Forall_impl; [exact Hall|].
        intros seg (t & Ht & Hacc). exists t. split; [now right|exact Hacc].
Qed.


(** One part: the loop returns, and what it appends comes from the
    triplets of that part. *)
Lemma procesar_linea_total (line : list (Point F)) (segmentos : list (Segmento F)) :
  ley_tolerancia F ->
  exists nuevos,
    procesar_linea prm line segmentos = Ok (segmentos ++ nuevos) /\
    (length nuevos <= length (tripletas line))%nat /\
    Forall (fun seg => exists t, t ∈ tripletas line /\ aceptada prm t seg) nuevos.
Proof.
  intros Htol. rewrite procesar_linea_tripletas.
  now apply for_each_tripletas.
Qed.

(** One record: the loop over the parts returns, and every segment it
    appends comes from the triplets of a single part. *)
Lemma procesar_partes_total
  (parts : list (list (Point F))) (segmentos : list (Segmento F)) :
  ley_tolerancia F ->
  exists nuevos,
    for_each parts (procesar_linea prm) segmentos = Ok (segmentos ++ nuevos) /\
    Forall (fun seg => exists line t,
                line ∈ parts /\ t ∈ tripletas line /\ aceptada prm t seg) nuevos.
Proof.
  intros Htol. revert segmentos.
  induction parts as [|line parts IH]; intros segmentos.
  - exists []. rewrite app_nil_r. split; [reflexivity|constructor].
  - cbn [for_each].
    destruct (procesar_linea_total line segmentos Htol)
      as (nuevos1 & -> & _ & Hall1). cbn [bind].
    destruct (IH (segmentos ++ nuevos1)) as (nuevos2 & -> & Hall2).
    exists (nuevos1 ++ nuevos2). rewrite app_assoc. split; [reflexivity|].
    apply Forall_app. split.
    + eapply Forall_impl; [exact Hall1|].
      intros seg (t & Ht & Hacc). exists line, t.
      split; [now left|now split].
    + eapply Forall_impl; [exact Hall2|].
      intros seg (line' & t & Hl & Ht & Hacc). exists line', t.
      split; [now right|now split].
Qed.



(** The extraction loop returns, whatever the cancellation answers. *)
Lemma extraer_desde_total
  (canceled : Feedback) (feats : list (QgsGeometry F)) (i : nat)
  (segmentos : list (Segmento F)) :
  ley_tolerancia F ->
  exists nuevos,
    extraer_desde prm canceled i feats segmentos = Ok (segmentos ++ nuevos).
Proof.
  intros Htol. revert i segmentos.
  induction feats as [|feat feats IH]; intros i segmentos.
  - exists []. now rewrite app_nil_r.
  - cbn [extraer_desde]. destruct (canceled i).
    + exists []. now rewrite app_nil_r.
    + unfold procesar_feature.
      destruct (procesar_partes_total (partes feat) segmentos Htol)
        as (nuevos1 & -> & _). py_bind.
      destruct (IH (S i) (segmentos ++ nuevos1)) as (nuevos2 & ->).
      exists (nuevos1 ++ nuevos2). now rewrite app_assoc.
Qed.

(** A cancellation seen at the poll of record [k] cuts the loop down to
    the first [k] records. *)
Lemma extraer_desde_cancel
  (canceled : Feedback) (k : nat) (feats : list (QgsGeometry F)) (i : nat)
  (segmentos : list (Segmento F)) :
  (forall j, (j < k)%nat -> canceled (i + j)%nat = false) ->
  canceled (i + k)%nat = true ->
  extraer_desde prm canceled i feats segmentos =
  extraer_desde prm (fun _ => false) i (take k feats) segmentos.
Proof.
  revert feats i segmentos.
  induction k as [|k IH]; intros feats i segmentos Hbefore Hat.
  - rewrite Nat.add_0_r in Hat.
    destruct feats as [|feat feats]; cbn; [reflexivity|]. now rewrite Hat.
  - destruct feats as [|feat feats]; [reflexivity|].
    cbn [take extraer_desde].
    pose proof (Hbefore 0%nat ltac:(lia)) as H0.
    rewrite Nat.add_0_r in H0. rewrite H0.
    destruct (procesar_feature prm feat segmentos) as [segmentos'|e];
      py_bind; [|reflexivity].
    apply IH.
    + intros j Hj. replace (S i + j)%nat with (i + S j)%nat by lia.
      apply Hbefore. lia.
    + now replace (S i + k)%nat with (i + S k)%nat by lia.
Qed.

End Extractor.


(* ================================================================== *)
(** ** The incremental clusterer *)

Section Clusterer.

Context {F : Type} `{PyNum F}.

Variable prm : Parametros F.
Variable segmentos : list (Segmento F).

Lemma comprehension_centros {B : Type} (f : Point F -> B)
  (ks : list nat) (cs : list (Point F)) :
  Forall2 (es_centro segmentos) ks cs ->
  comprehension (fun k => c ← centro_de segmentos k; Ok (f c)) ks
  = Ok (map f cs).
Proof.
  induction 1 as [|k c ks cs (seg & Hk & Hc) _ IH]; [reflexivity|].
  cbn [comprehension map]. unfold centro_de at 1, py_index.
  rewrite Hk. py_bind. rewrite Hc. py_bind. rewrite IH. reflexivity.
Qed.

Lemma agregar_ok (idx : nat) (seg : Segmento F) (pt : Point F)
  (cl : Cluster F) (cs : list (Point F)) :
  Forall2 (es_centro segmentos) (indices cl) cs -> es_centro segmentos idx pt ->
  agregar segmentos idx seg cl =
  Ok {| centroid := media (cs ++ [pt]);
        indices := indices cl ++ [idx];
        sum_r := fadd (sum_r cl) (radio seg) |}.
Proof.
  intros Hcs Hpt. unfold agregar.
  assert (Hall : Forall2 (es_centro segmentos) (indices cl ++ [idx]) (cs ++ [pt])).
  { apply Forall2_app; [exact Hcs|]. constructor; [exact Hpt|constructor]. }
  rewrite !(comprehension_centros _ _ _ Hall). py_bind.
  unfold py_div_int. rewrite !length_map.
  assert (Hz : (Z.of_nat (length (cs ++ [pt])) =? 0)%Z = false)
    by (apply Z.eqb_neq; rewrite length_app; cbn; lia).
  rewrite Hz. py_bind. reflexivity.
Qed.

(** The scan stops at the first cluster in range. *)
Lemma asignar_primero (idx : nat) (seg : Segmento F) (pt : Point F)
  (clusters : list (Cluster F)) (cid0 i : nat)
  (cl : Cluster F) (cs : list (Point F)) :
  es_centro segmentos idx pt ->
  clusters !! i = Some cl -> en_rango prm pt cl = true ->
  (forall j cl0, (j < i)%nat -> clusters !! j = Some cl0 ->
                 en_rango prm pt cl0 = false) ->
  Forall2 (es_centro segmentos) (indices cl) cs ->
  asignar prm segmentos idx seg pt cid0 clusters =
  Ok (Some (<[i := {| centroid := media (cs ++ [pt]);
                      indices := indices cl ++ [idx];
                      sum_r := fadd (sum_r cl) (radio seg) |}]> clusters,
            (cid0 + i)%nat)).
Proof.
  intros Hpt. revert cid0 i.
  induction clusters as [|c0 rest IH]; intros cid0 i Hi Hin Hfirst Hcs.
  - discriminate.
  - cbn [asignar]. destruct i as [|i].
    + injection Hi as ->. unfold en_rango in Hin. rewrite Hin.
      rewrite (agregar_ok idx seg pt cl cs Hcs Hpt). py_bind.
      rewrite Nat.add_0_r. reflexivity.
    + pose proof (Hfirst 0%nat c0 ltac:(lia) eq_refl) as H0.
      unfold en_rango in H0. rewrite H0.
      rewrite (IH (S cid0) i Hi Hin); [|intros j cl0 Hj Hl|exact Hcs].
      * py_bind. replace (S cid0 + i)%nat with (cid0 + S i)%nat by lia.
        reflexivity.
      * apply (Hfirst (S j) cl0); [lia|exact Hl].
Qed.

(** With no cluster in range the scan ends without assignment. *)
Lemma asignar_ninguno (idx : nat) (seg : Segmento F) (pt : Point F)
  (clusters : list (Cluster F)) (cid0 : nat) :
  Forall (fun cl => en_rango prm pt cl = false) clusters ->
  asignar prm segmentos idx seg pt cid0 clusters = Ok None.
Proof.
  intros Hall. revert cid0.
  induction Hall as [|c0 rest H0 _ IH]; intros cid0; [reflexivity|].
  cbn [asignar]. unfold en_rango in H0. rewrite H0, IH. reflexivity.
Qed.

(** Either no cluster is in range, or there is a first one. *)
Lemma primero_o_ninguno (pt : Point F) (clusters : list (Cluster F)) :
  Forall (fun cl => en_rango prm pt cl = false) clusters \/
  exists i cl, clusters !! i = Some cl /\ en_rango prm pt cl = true /\
    forall j cl0, (j < i)%nat -> clusters !! j = Some cl0 ->
                  en_rango prm pt cl0 = false.
Proof.
  induction clusters as [|c0 rest IH]; [left; constructor|].
  destruct (en_rango prm pt c0) eqn:H0.
  - right. exists 0%nat, c0. repeat split; [exact H0|]. intros j cl0 Hj. lia.
  - destruct IH as [Hnone|(i & cl & Hi & Hin & Hfirst)].
    + left. now constructor.
    + right. exists (S i), cl. repeat split; [exact Hi|exact Hin|].
      intros [|j] cl0 Hj Hl.
      * injection Hl as <-. exact H0.
      * apply (Hfirst j cl0); [lia|exact Hl].
Qed.

(** The two outcomes of one step for a segment with a centre. *)
Lemma agrupar_paso_cases (idx : nat) (seg : Segmento F) (pt : Point F)
  (clusters : list (Cluster F)) (mapa_cluster : gmap nat nat) :
  segmentos !! idx = Some seg -> centro seg = Some pt ->
  Forall (miembros_validos segmentos) clusters ->
  (Forall (fun cl => en_rango prm pt cl = false) clusters /\
   agrupar_paso prm segmentos (idx, seg) (clusters, mapa_cluster) =
   Ok (clusters ++ [ {| centroid := pt; indices := [idx];
                        sum_r := radio seg |} ],
       <[idx := length clusters]> mapa_cluster)) \/
  (exists cid cl cs,
      clusters !! cid = Some cl /\ en_rango prm pt cl = true /\
      (forall j cl0, (j < cid)%nat -> clusters !! j = Some cl0 ->
                     en_rango prm pt cl0 = false) /\
      Forall2 (es_centro segmentos) (indices cl) cs /\
      agrupar_paso prm segmentos (idx, seg) (clusters, mapa_cluster) =
      Ok (<[cid := {| centroid := media (cs ++ [pt]);
                      indices := indices cl ++ [idx];
                      sum_r := fadd (sum_r cl) (radio seg) |}]> clusters,
          <[idx := cid]> mapa_cluster)).
Proof.
  intros Hidx Hpt Hval.
  assert (Hc : es_centro segmentos idx pt) by (now exists seg).
  unfold agrupar_paso. rewrite Hpt.
  destruct (primero_o_ninguno pt clusters)
    as [Hnone|(cid & cl & Hcid & Hin & Hfirst)].
  - left. split; [exact Hnone|].
    rewrite (asignar_ninguno idx seg pt clusters 0 Hnone). py_bind.
    rewrite length_app. cbn [length].
    replace (length clusters + 1 - 1)%nat with (length clusters) by lia.
    reflexivity.
  - right.
    assert (Hcl : miembros_validos segmentos cl).
    { rewrite Forall_lookup in Hval. exact (Hval cid cl Hcid). }
    destruct Hcl as [cs Hcs].
    exists cid, cl, cs. repeat split; try assumption.
    rewrite (asignar_primero idx seg pt clusters 0 cid cl cs
               Hc Hcid Hin Hfirst Hcs).
    py_bind. reflexivity.
Qed.


Lemma mismo_numero_refl (a : F) : mismo_numero a a.
Proof. now left. Qed.

Lemma mismo_numero_sym (a b : F) : mismo_numero a b -> mismo_numero b a.
Proof. intros [->|[Ha Hb]]; [now left|right; now split]. Qed.

Lemma mismo_punto_refl (p : Point F) : mismo_punto p p.
Proof. split; apply mismo_numero_refl. Qed.

(** The mean of one point is that point, as numbers. *)
Lemma media_uno (pt : Point F) :
  ley_media_de_uno F -> mismo_punto pt (media [pt]).
Proof.
  intros Hone. destruct pt as [px py]. unfold media, py_sum, mismo_punto.
  cbn [map fold_left length x y Z.of_nat Pos.of_succ_nat].
  split; apply mismo_numero_sym, Hone.
Qed.

(** One step keeps every centroid equal to the mean of its members. *)
Lemma agrupar_paso_centroide (idx : nat) (seg : Segmento F)
  (clusters : list (Cluster F)) (mapa_cluster : gmap nat nat) :
  ley_media_de_uno F ->
  segmentos !! idx = Some seg ->
  Forall (centroide_es_media segmentos) clusters ->
  exists clusters' mapa_cluster',
    agrupar_paso prm segmentos (idx, seg) (clusters, mapa_cluster) =
    Ok (clusters', mapa_cluster') /\
    Forall (centroide_es_media segmentos) clusters'.
Proof.
  intros Hone Hidx Hinv.
  destruct (centro seg) as [pt|] eqn:Hpt.
  2:{ exists clusters, mapa_cluster. unfold agrupar_paso. now rewrite Hpt. }
  assert (Hc : es_centro segmentos idx pt) by (now exists seg).
  assert (Hval : Forall (miembros_validos segmentos) clusters).
  { eapply Forall_impl; [exact Hinv|]. intros cl (cs & Hcs & _). now exists cs. }
  destruct (agrupar_paso_cases idx seg pt clusters mapa_cluster
              Hidx Hpt Hval)
    as [[_ Hrun]|(cid & cl & cs & Hcid & _ & _ & Hcs & Hrun)];
    rewrite Hrun; eexists _, _; (split; [reflexivity|]).
  - apply Forall_app. split; [exact Hinv|]. constructor; [|constructor].
    exists [pt]. split.
    + constructor; [exact Hc|constructor].
    + cbn [centroid]. now apply media_uno.
  - apply Forall_insert; [exact Hinv|].
    exists (cs ++ [pt]). split; [|apply mismo_punto_refl].
    cbn [indices]. apply Forall2_app; [exact Hcs|].
    constructor; [exact Hc|constructor].
Qed.

Lemma agrupar_pares_centroide (pares : list (nat * Segmento F))
  (clusters : list (Cluster F)) (mapa_cluster : gmap nat nat) :
  ley_media_de_uno F ->
  (forall idx seg, (idx, seg) ∈ pares -> segmentos !! idx = Some seg) ->
  Forall (centroide_es_media segmentos) clusters ->
  exists clusters' mapa_cluster',
    for_each pares (agrupar_paso prm segmentos) (clusters, mapa_cluster) =
    Ok (clusters', mapa_cluster') /\
    Forall (centroide_es_media segmentos) clusters'.
Proof.
  intros Hone. revert clusters mapa_cluster.
  induction pares as [|[idx seg] pares IH]; intros clusters mapa Hpares Hinv.
  - now exists clusters, mapa.
  - cbn [for_each].
    destruct (agrupar_paso_centroide idx seg clusters mapa Hone)
      as (clusters1 & mapa1 & -> & Hinv1);
      [apply Hpares; now left|exact Hinv|].
    cbn [bind]. apply IH; [|exact Hinv1].
    intros idx' seg' Hin. apply Hpares. now right.
Qed.

Lemma enumerate_lookup {A : Type} (xs : list A) (i : nat) (a : A) :
  (i, a) ∈ enumerate xs -> xs !! i = Some a.
Proof.
  unfold enumerate. intros Hin.
  apply list_elem_of_lookup in Hin. destruct Hin as [j Hj].
  apply lookup_zip_with_Some in Hj.
  destruct Hj as (i' & a' & [= -> ->] & Hseq & Hxs).
  apply lookup_seq in Hseq. destruct Hseq as [-> _]. exact Hxs.
Qed.

(** After any number of steps of the grouping loop every centroid is the
    mean of the centres of its members. *)
Lemma agrupar_prefijo_centroide (n : nat) :
  ley_media_de_uno F ->
  exists clusters mapa_cluster,
    for_each (take n (enumerate segmentos)) (agrupar_paso prm segmentos)
      ([], ∅) = Ok (clusters, mapa_cluster) /\
    Forall (centroide_es_media segmentos) clusters.
Proof.
  intros Hone.
  apply agrupar_pares_centroide; [exact Hone| |constructor].
  intros idx seg Hin. apply enumerate_lookup.
  apply elem_of_take in Hin. destruct Hin as (i & Hi & _).
  now apply list_elem_of_lookup_2 in Hi.
Qed.

(** And so it is in what [agrupar] returns. *)
Lemma agrupar_centroide :
  ley_media_de_uno F ->
  exists clusters mapa_cluster,
    agrupar prm segmentos = Ok (clusters, mapa_cluster) /\
    Forall (centroide_es_media segmentos) clusters.
Proof.
  intros Hone. unfold agrupar. destruct (incluir_ctr prm).
  - destruct (agrupar_prefijo_centroide (length (enumerate segmentos)) Hone)
      as (clusters & mapa & Hrun & Hinv).
    rewrite firstn_all in Hrun. now exists clusters, mapa.
  - exists [], ∅. split; [reflexivity|constructor].
Qed.



Lemma inv_asignacion_paso (n : nat) (seg : Segmento F) (st : Agrupacion F) :
  segmentos !! n = Some seg ->
  inv_asignacion segmentos n st ->
  exists st', agrupar_paso prm segmentos (n, seg) st = Ok st' /\
              inv_asignacion segmentos (S n) st'.
Proof.
  intros Hn. destruct st as [clusters mapa].
  intros (Hval & Hnd & Hmap). cbn [fst snd] in *.
  assert (Hweak : Forall (fun cl => NoDup (indices cl) /\
                    Forall (fun k => (k < S n)%nat) (indices cl)) clusters).
  { eapply Forall_impl; [exact Hnd|]. intros cl [Hd Hlt]. split; [exact Hd|].
    eapply Forall_impl; [exact Hlt|]. cbn. lia. }
  assert (Hfresh : forall cid cl, clusters !! cid = Some cl -> n ∉ indices cl).
  { intros cid cl Hcid Hin. rewrite Forall_lookup in Hnd.
    destruct (Hnd cid cl Hcid) as [_ Hlt].
    rewrite Forall_forall in Hlt. specialize (Hlt n Hin). lia. }
  destruct (centro seg) as [pt|] eqn:Hpt.
  2:{ exists (clusters, mapa). unfold agrupar_paso. rewrite Hpt.
      split; [reflexivity|]. repeat split; assumption || apply Hmap. }
  assert (Hc : es_centro segmentos n pt) by (now exists seg).
  destruct (agrupar_paso_cases n seg pt clusters mapa Hn Hpt Hval)
    as [[_ Hrun]|(cid & cl & cs & Hcid & _ & _ & Hcs & Hrun)];
    rewrite Hrun; eexists; (split; [reflexivity|]);
    (split; [|split]); cbn [fst snd].
  - apply Forall_app. split; [exact Hval|]. constructor; [|constructor].
    exists [pt]. constructor; [exact Hc|constructor].
  - apply Forall_app. split; [exact Hweak|]. constructor; [|constructor].
    cbn [indices]. split.
    + apply NoDup_singleton.
    + constructor; [lia|constructor].
  - intros idx cid. rewrite lookup_insert_Some.
    setoid_rewrite lookup_snoc_Some. split.
    + intros [[<- <-]|[Hne Hold]].
      * eexists. split; [right; split; reflexivity|]. cbn. now left.
      * apply Hmap in Hold. destruct Hold as (cl & Hcl & Hin).
        exists cl. split; [left; split; [|exact Hcl]|exact Hin].
        now apply lookup_lt_Some in Hcl.
    + intros (cl & [[Hlt Hcl]|[-> <-]] & Hin).
      * right. split.
        -- intros <-. exact (Hfresh cid cl Hcl Hin).
        -- apply Hmap. now exists cl.
      * cbn [indices] in Hin. apply list_elem_of_singleton in Hin.
        left. now split.
  - apply Forall_insert; [exact Hval|].
    exists (cs ++ [pt]). cbn [indices].
    apply Forall2_app; [exact Hcs|]. constructor; [exact Hc|constructor].
  - apply Forall_insert; [exact Hweak|]. cbn [indices].
    rewrite Forall_lookup in Hweak. destruct (Hweak cid cl Hcid) as [Hd Hlt].
    split.
    + apply NoDup_app. split; [exact Hd|]. split; [|apply NoDup_singleton].
      intros k Hk Hk'. apply list_elem_of_singleton in Hk'. subst k.
      exact (Hfresh cid cl Hcid Hk).
    + apply Forall_app. split; [exact Hlt|]. constructor; [lia|constructor].
  - pose proof (lookup_lt_Some _ _ _ Hcid) as Hcidlt.
    intros idx cid'. rewrite lookup_insert_Some.
    setoid_rewrite list_lookup_insert_Some. split.
    + intros [[<- <-]|[Hne Hold]].
      * eexists. split; [left; split; [reflexivity|split; [reflexivity|lia]]|].
        cbn [indices]. apply elem_of_app. right. now left.
      * apply Hmap in Hold. destruct Hold as (cl0 & Hcl0 & Hin).
        destruct (decide (cid = cid')) as [<-|Hcne].
        -- eexists. split; [left; split; [reflexivity|split; [reflexivity|lia]]|].
           cbn [indices]. apply elem_of_app. left. congruence.
        -- exists cl0. split; [right; now split|exact Hin].
    + intros (cl0 & [(<- & <- & _)|[Hcne Hcl0]] & Hin).
      * cbn [indices] in Hin. apply elem_of_app in Hin.
        destruct Hin as [Hin|Hin].
        -- destruct (decide (n = idx)) as [<-|Hne]; [now left|].
           right. split; [exact Hne|]. apply Hmap. now exists cl.
        -- apply list_elem_of_singleton in Hin. now left.
      * right. split.
        -- intros <-. exact (Hfresh cid' cl0 Hcl0 Hin).
        -- apply Hmap. now exists cl0.
Qed.

Lemma inv_asignacion_desde (rest pre : list (Segmento F)) (st : Agrupacion F) :
  segmentos = pre ++ rest ->
  inv_asignacion segmentos (length pre) st ->
  exists st',
    for_each (zip (seq (length pre) (length rest)) rest)
      (agrupar_paso prm segmentos) st = Ok st' /\
    inv_asignacion segmentos (length segmentos) st'.
Proof.
  revert pre st.
  induction rest as [|seg rest IH]; intros pre st Hsplit Hinv.
  - exists st. split; [reflexivity|].
    replace (length segmentos) with (length pre); [exact Hinv|].
    rewrite Hsplit, length_app. cbn. lia.
  - cbn [length seq zip zip_with for_each].
    destruct (inv_asignacion_paso (length pre) seg st) as (st1 & -> & Hinv1);
      [|exact Hinv|].
    { rewrite Hsplit, lookup_app_r by lia.
      now rewrite Nat.sub_diag. }
    cbn [bind].
    specialize (IH (pre ++ [seg]) st1).
    rewrite length_app, Nat.add_1_r in IH. apply IH; [|exact Hinv1].
    now rewrite <- app_assoc.
Qed.


Lemma enumerate_lookup_Some {A : Type} (xs : list A) (i : nat) (a : A) :
  xs !! i = Some a -> enumerate xs !! i = Some (i, a).
Proof.
  intros Hi. unfold enumerate. rewrite lookup_zip_with.
  rewrite lookup_seq_lt by (now apply lookup_lt_Some in Hi).
  rewrite Hi. reflexivity.
Qed.

Lemma length_enumerate {A : Type} (xs : list A) :
  length (enumerate xs) = length xs.
Proof.
  unfold enumerate. rewrite length_zip_with, length_seq. lia.
Qed.

(** The grouping returns and its result satisfies the invariant. *)
Lemma agrupar_inv :
  exists st, agrupar prm segmentos = Ok st /\
             inv_asignacion segmentos (length segmentos) st.
Proof.
  assert (Hinit : forall n, inv_asignacion segmentos n ([], ∅)).
  { intros n. repeat split; try constructor; cbn [fst snd].
    - intros Hm. now apply lookup_empty_Some in Hm.
    - intros (cl & Hcl & _). discriminate. }
  unfold agrupar. destruct (incluir_ctr prm).
  - exact (inv_asignacion_desde segmentos [] ([], ∅) eq_refl (Hinit _)).
  - exists ([], ∅). split; [reflexivity|apply Hinit].
Qed.

(** A loop over two lists, one after the other. *)
Lemma for_each_app {A S : Type} (xs ys : list A) (body : A -> S -> result S)
  (s : S) :
  for_each (xs ++ ys) body s = bind (for_each xs body s) (for_each ys body).
Proof.
  revert s. induction xs as [|a xs IH]; intros s; [reflexivity|].
  cbn [app for_each]. destruct (body a s) as [s'|e]; cbn [bind];
    [apply IH|reflexivity].
Qed.

Lemma enumerate_lookup_inv {A : Type} (xs : list A) (j idx : nat) (a : A) :
  enumerate xs !! j = Some (idx, a) -> idx = j /\ xs !! j = Some a.
Proof.
  unfold enumerate. intros Hj. apply lookup_zip_with_Some in Hj.
  destruct Hj as (i' & a' & [= -> ->] & Hseq & Hxs).
  apply lookup_seq in Hseq. destruct Hseq as [-> _]. now split.
Qed.

(** The state of the grouping loop after its first [n] steps, with the
    invariant. *)
Lemma agrupar_prefijo (n : nat) :
  exists st,
    for_each (take n (enumerate segmentos)) (agrupar_paso prm segmentos)
      ([], ∅) = Ok st /\
    inv_asignacion segmentos (n `min` length segmentos) st.
Proof.
  induction n as [|n (st & Hrun & Hinv)].
  - exists ([], ∅). split; [reflexivity|].
    repeat split; try constructor; cbn [fst snd].
    + intros Hm. now apply lookup_empty_Some in Hm.
    + intros (cl & Hcl & _). discriminate.
  - destruct (segmentos !! n) as [seg|] eqn:Hn.
    + pose proof (lookup_lt_Some _ _ _ Hn) as Hlt.
      rewrite Nat.min_l in Hinv by lia.
      destruct (inv_asignacion_paso n seg st Hn Hinv) as (st' & Hpaso & Hinv').
      exists st'. split; [|now rewrite Nat.min_l by lia].
      rewrite (take_S_r _ _ _ (enumerate_lookup_Some _ _ _ Hn)).
      rewrite for_each_app, Hrun. cbn [bind for_each]. now rewrite Hpaso.
    + apply lookup_ge_None in Hn. exists st.
      rewrite Nat.min_r in * by lia. split; [|exact Hinv].
      rewrite take_ge in * by (rewrite length_enumerate; lia). exact Hrun.
Qed.

(** A step writes no entry of [mapa_cluster] but that of its own
    segment. *)
Lemma agrupar_paso_mapa (idx k : nat) (seg : Segmento F)
  (st st' : Agrupacion F) :
  agrupar_paso prm segmentos (idx, seg) st = Ok st' -> k <> idx ->
  st'.2 !! k = st.2 !! k.
Proof.
  destruct st as [clusters mapa]. unfold agrupar_paso.
  destruct (centro seg) as [pt|]; [|now intros [= <-]].
  destruct (asignar prm segmentos idx seg pt 0 clusters) as [[[cls cid]|]|e];
    py_bind; [| |discriminate]; intros [= <-] Hne; cbn [snd];
    now rewrite lookup_insert_ne.
Qed.

Lemma agrupar_pares_mapa (k : nat) (pares : list (nat * Segmento F))
  (st st' : Agrupacion F) :
  (forall idx seg, (idx, seg) ∈ pares -> idx <> k) ->
  for_each pares (agrupar_paso prm segmentos) st = Ok st' ->
  st'.2 !! k = st.2 !! k.
Proof.
  revert st. induction pares as [|[idx seg] pares IH]; intros st Hne.
  - now intros [= <-].
  - cbn [for_each].
    destruct (agrupar_paso prm segmentos (idx, seg) st) as [st1|e] eqn:Hpaso;
      cbn [bind]; [|discriminate].
    intros Hrun. rewrite (IH st1);
      [|intros i s Hin; apply (Hne i s); now right|exact Hrun].
    apply (agrupar_paso_mapa idx k seg st st1 Hpaso).
    intros ->. apply (Hne idx seg); [now left|reflexivity].
Qed.

(** C2.  In the grouping loop of [agrupar], take the segment of index [n],
    with a centre, the state [(clusters, mapa_cluster)] that the loop has
    reached after its first [n] steps, and the state after the step of
    that segment.  If the centre is within [dist_agrup] (inclusive) of the
    centroid of some cluster, the step changes the first such cluster, in
    creation order, and no other, whatever the distances of the clusters
    after it: the segment is appended to its members and named in
    [mapa_cluster].  If no cluster is in range, a new cluster is appended
    that holds this segment alone.  The assignment stands until the loop
    ends: the result of [agrupar] names that cluster for the segment and
    lists the segment among its members. *)
Theorem first_fit_assignment (n : nat) (seg : Segmento F) (pt : Point F) :
  incluir_ctr prm = true ->
  segmentos !! n = Some seg -> centro seg = Some pt ->
  exists clusters mapa_cluster clusters' mapa_cluster' finales mapa_final,
    for_each (take n (enumerate segmentos)) (agrupar_paso prm segmentos)
      ([], ∅) = Ok (clusters, mapa_cluster) /\
    for_each (take (S n) (enumerate segmentos)) (agrupar_paso prm segmentos)
      ([], ∅) = Ok (clusters', mapa_cluster') /\
    agrupar prm segmentos = Ok (finales, mapa_final) /\
    ((exists j cl, clusters !! j = Some cl /\ en_rango prm pt cl = true) ->
     exists cid cl cl' clf,
       clusters !! cid = Some cl /\ en_rango prm pt cl = true /\
       (forall j cl0, (j < cid)%nat -> clusters !! j = Some cl0 ->
                      en_rango prm pt cl0 = false) /\
       indices cl' = indices cl ++ [n] /\
       sum_r cl' = fadd (sum_r cl) (radio seg) /\
       clusters' = <[cid := cl']> clusters /\
       mapa_cluster' = <[n := cid]> mapa_cluster /\
       mapa_final !! n = Some cid /\
       finales !! cid = Some clf /\ n ∈ indices clf) /\
    ((forall j cl, clusters !! j = Some cl -> en_rango prm pt cl = false) ->
     exists clf,
       clusters' = clusters ++ [ {| centroid := pt; indices := [n];
                                    sum_r := radio seg |} ] /\
       mapa_cluster' = <[n := length clusters]> mapa_cluster /\
       mapa_final !! n = Some (length clusters) /\
       finales !! length clusters = Some clf /\ n ∈ indices clf).
Proof.
  intros Hinc Hn Hpt.
  pose proof (lookup_lt_Some _ _ _ Hn) as Hlt.
  destruct (agrupar_prefijo n) as ([clusters mapa] & Hrun & Hinv).
  rewrite Nat.min_l in Hinv by lia.
  destruct Hinv as (Hval & _). cbn [fst] in Hval.
  destruct agrupar_inv as ([finales mapa_final] & Hfin & _ & _ & Hmapf).
  cbn [fst snd] in Hmapf.
  (* the step of the segment *)
  assert (Hstep : forall st',
             agrupar_paso prm segmentos (n, seg) (clusters, mapa) = Ok st' ->
             for_each (take (S n) (enumerate segmentos))
               (agrupar_paso prm segmentos) ([], ∅) = Ok st' /\
             mapa_final !! n = st'.2 !! n).
  { intros st' Hpaso.
    assert (Hrun' : for_each (take (S n) (enumerate segmentos))
                      (agrupar_paso prm segmentos) ([], ∅) = Ok st').
    { rewrite (take_S_r _ _ _ (enumerate_lookup_Some _ _ _ Hn)).
      rewrite for_each_app, Hrun. cbn [bind for_each]. now rewrite Hpaso. }
    split; [exact Hrun'|].
    unfold agrupar in Hfin. rewrite Hinc in Hfin.
    rewrite <- (take_drop (S n) (enumerate segmentos)) in Hfin.
    rewrite for_each_app, Hrun' in Hfin. cbn [bind] in Hfin.
    refine (agrupar_pares_mapa n (drop (S n) (enumerate segmentos)) st'
              (finales, mapa_final) _ Hfin).
    intros idx s Hin. apply list_elem_of_lookup in Hin. destruct Hin as [j Hj].
    rewrite lookup_drop in Hj. apply enumerate_lookup_inv in Hj. lia. }
  destruct (agrupar_paso_cases n seg pt clusters mapa Hn Hpt Hval)
    as [[Hnone Hpaso]|(cid & cl & cs & Hcid & Hin & Hfirst & Hcs & Hpaso)];
    destruct (Hstep _ Hpaso) as [Hrun' Hkeep]; cbn [snd] in Hkeep;
    rewrite lookup_insert_eq in Hkeep;
    eexists clusters, mapa, _, _, finales, mapa_final;
    (split; [exact Hrun|]); (split; [exact Hrun'|]); (split; [exact Hfin|]);
    split.
  - intros (j & cl & Hj & Hin). rewrite Forall_lookup in Hnone.
    rewrite (Hnone j cl Hj) in Hin. discriminate.
  - intros _. destruct (proj1 (Hmapf _ _) Hkeep) as (clf & Hclf & Hmem).
    exists clf. split; [reflexivity|]. split; [reflexivity|].
    split; [exact Hkeep|]. split; [exact Hclf|exact Hmem].
  - intros _. destruct (proj1 (Hmapf _ _) Hkeep) as (clf & Hclf & Hmem).
    exists cid, cl,
      {| centroid := media (cs ++ [pt]); indices := indices cl ++ [n];
         sum_r := fadd (sum_r cl) (radio seg) |}, clf.
    split; [exact Hcid|]. split; [exact Hin|]. split; [exact Hfirst|].
    split; [reflexivity|]. split; [reflexivity|]. split; [reflexivity|].
    split; [reflexivity|]. split; [exact Hkeep|]. split; [exact Hclf|exact Hmem].
  - intros Hnone. rewrite (Hnone cid cl Hcid) in Hin. discriminate.
Qed.

(** C9.  The grouping gives every segment at most one cluster: an index is
    listed by at most one cluster, once, and [mapa_cluster] names that
    cluster.  Every segment has its curve record; the record of a segment
    with no centre, or of any segment when clustering is off, has cluster
    id -1. *)
Theorem single_cluster_assignment :
  exists clusters mapa_cluster,
    agrupar prm segmentos = Ok (clusters, mapa_cluster) /\
    (forall idx cid,
        mapa_cluster !! idx = Some cid <->
        exists cl, clusters !! cid = Some cl /\ idx ∈ indices cl) /\
    (forall idx cid1 cid2 cl1 cl2,
        clusters !! cid1 = Some cl1 -> idx ∈ indices cl1 ->
        clusters !! cid2 = Some cl2 -> idx ∈ indices cl2 -> cid1 = cid2) /\
    Forall (fun cl => NoDup (indices cl)) clusters /\
    length (capa_curvas segmentos mapa_cluster) = length segmentos /\
    (forall idx seg,
        segmentos !! idx = Some seg ->
        exists c,
          capa_curvas segmentos mapa_cluster !! idx = Some c /\
          ID_Curva c = Z.of_nat idx /\ Radio c = radio seg /\
          Longitud c = long seg /\ curva_geom c = geom seg /\
          ID_Centroide c = get_cluster mapa_cluster idx /\
          (incluir_ctr prm = false \/ centro seg = None ->
           ID_Centroide c = (-1)%Z)).
Proof.
  destruct agrupar_inv as ([clusters mapa] & Hrun & Hval & Hnd & Hmap).
  cbn [fst snd] in *.
  exists clusters, mapa. split; [exact Hrun|]. split; [exact Hmap|].
  split; [|split; [|split]].
  - intros idx cid1 cid2 cl1 cl2 H1 Hin1 H2 Hin2.
    assert (Hm1 : mapa !! idx = Some cid1) by (apply Hmap; now exists cl1).
    assert (Hm2 : mapa !! idx = Some cid2) by (apply Hmap; now exists cl2).
    congruence.
  - eapply Forall_impl; [exact Hnd|]. now intros cl [Hd _].
  - unfold capa_curvas. now rewrite length_map, length_enumerate.
  - intros idx seg Hidx. unfold capa_curvas.
    rewrite list_lookup_fmap, (enumerate_lookup_Some _ _ _ Hidx).
    eexists. split; [reflexivity|]. cbn.
    repeat split. intros Hno. unfold get_cluster.
    destruct (mapa !! idx) as [cid|] eqn:Hm; [exfalso|reflexivity].
    destruct Hno as [Hoff|Hnone].
    + unfold agrupar in Hrun. rewrite Hoff in Hrun.
      injection Hrun as <- <-. now apply lookup_empty_Some in Hm.
    + apply Hmap in Hm. destruct Hm as (cl & Hcl & Hin).
      rewrite Forall_lookup in Hval. destruct (Hval cid cl Hcl) as [cs Hcs].
      apply list_elem_of_lookup in Hin. destruct Hin as [i Hi].
      destruct (Forall2_lookup_l _ _ _ _ _ Hcs Hi) as (c & _ & seg' & Hs & Hc).
      congruence.
Qed.

End Clusterer.

(** C3.  In binary64, after any number [n] of steps of the grouping loop,
    and in what [agrupar] returns, the centroid of every cluster is the
    arithmetic mean of the centres of the segments in its member list:
    the two have the same coordinates, up to the sign of a zero
    coordinate ([sum([-0.0]) / 1] is [0.0], so a new cluster around a
    centre with a coordinate [-0.0] keeps [-0.0] where the mean has
    [0.0]). *)
Theorem centroid_is_mean_of_members
  (prm : Parametros float) (segmentos : list (Segmento float)) :
  (forall n,
      exists clusters mapa_cluster,
        for_each (take n (enumerate segmentos)) (agrupar_paso prm segmentos)
          ([], ∅) = Ok (clusters, mapa_cluster) /\
        Forall (centroide_es_media segmentos) clusters) /\
  (exists clusters mapa_cluster,
      agrupar prm segmentos = Ok (clusters, mapa_cluster) /\
      Forall (centroide_es_media segmentos) clusters).
Proof.
  split.
  - intros n.
    exact (agrupar_prefijo_centroide prm segmentos n float64_media_de_uno).
  - exact (agrupar_centroide prm segmentos float64_media_de_uno).
Qed.



(* ================================================================== *)
(** ** The cluster layer returns *)

Section Centroides.

Context {F : Type} `{PyNum F}.

Variable prm : Parametros F.

Lemma comprehension_returns {A B : Type} (f : A -> result B) (xs : list A) :
  (forall a, exists b, f a = Ok b) -> exists bs, comprehension f xs = Ok bs.
Proof.
  intros Hf. induction xs as [|a xs [bs IH]]; [now exists []|].
  destruct (Hf a) as [b Hb]. exists (b :: bs).
  cbn [comprehension]. now rewrite Hb, IH.
Qed.

Lemma capa_centroides_returns (clusters : list (Cluster F)) :
  exists centros, capa_centroides clusters = Ok centros.
Proof.
  apply comprehension_returns. intros [cid cl].
  destruct (length (indices cl)) as [|cnt] eqn:Hcnt; cbn [Nat.eqb].
  - py_bind. eauto.
  - unfold py_div_int.
    replace (Z.of_nat (S cnt) =? 0)%Z with false
      by (symmetry; apply Z.eqb_neq; lia).
    py_bind. eauto.
Qed.

End Centroides.

(* ================================================================== *)
(** ** The theorems at concrete inputs *)

(** C7 witness: binary64, the 3-4-5 triangle with [md = 5].  Its radius
    2.5 lies between [rmin = 1] and [rmax = 100], but the first edge has
    length 4. *)
Lemma spacing_filter_rejects_witness :
  let prm : Parametros float :=
    {| intervalo := 15; rmin := 1; rmax := 100; md := 5;
       incluir_ctr := true; dist_agrup := 10 |}%float in
  let p1 : Point float := QgsPointXY 0%float 0%float in
  let p2 : Point float := QgsPointXY 4%float 0%float in
  let p3 : Point float := QgsPointXY 4%float 3%float in
  (fltb (distance p1 p2) (md prm) = true \/
   fltb (distance p2 p3) (md prm) = true) /\
  circle_radius p1 p2 p3 = Ok (Some 2.5%float) /\
  procesar_tripleta prm p1 p2 p3 [] = Ok [].
Proof.
  intros prm p1 p2 p3.
  assert (Hclose : fltb (distance p1 p2) (md prm) = true \/
                   fltb (distance p2 p3) (md prm) = true)
    by (left; vm_compute; reflexivity).
  split; [exact Hclose|].
  split; [vm_compute; reflexivity|].
  exact (spacing_filter_rejects prm p1 p2 p3 [] Hclose).
Defined.

(** C5 witness: binary64, the 3-4-5 triangle, whose radius is 2.5, with
    [rmax = 2.5]. *)
Lemma range_filter_strict_witness :
  let prm : Parametros float :=
    {| intervalo := 15; rmin := 1; rmax := 2.5; md := 0;
       incluir_ctr := true; dist_agrup := 10 |}%float in
  let p1 : Point float := QgsPointXY 0%float 0%float in
  let p2 : Point float := QgsPointXY 4%float 0%float in
  let p3 : Point float := QgsPointXY 4%float 3%float in
  ley_igual_no_menor float /\
  circle_radius p1 p2 p3 = Ok (Some 2.5%float) /\
  feqb 2.5%float (rmax prm) = true /\
  procesar_tripleta prm p1 p2 p3 [] = Ok [].
Proof.
  intros prm p1 p2 p3.
  destruct (range_filter_strict prm p1 p2 p3 [] float64_igual_no_menor)
    as [_ Hreject].
  assert (Hr : circle_radius p1 p2 p3 = Ok (Some 2.5%float))
    by (vm_compute; reflexivity).
  assert (Heq : feqb 2.5%float (rmax prm) = true) by (vm_compute; reflexivity).
  split; [exact float64_igual_no_menor|].
  split; [exact Hr|]. split; [exact Heq|].
  exact (Hreject 2.5%float Hr (or_intror Heq)).
Defined.


(** C2 witness: binary64.  The centres (0,0) and (15,0) open the clusters
    0 and 1; the segment 2 has its centre at (9,0), within
    [dist_agrup = 10] of both centroids and nearer to that of cluster
    1. *)
Lemma first_fit_assignment_witness :
  let prm : Parametros float :=
    {| intervalo := 15; rmin := 1; rmax := 100; md := 0;
       incluir_ctr := true; dist_agrup := 10 |}%float in
  let seg (cx : float) : Segmento float :=
    {| geom := []; radio := 5%float; long := 1%float;
       centro := Some (QgsPointXY cx 0%float) |} in
  let segmentos := [seg 0%float; seg 15%float; seg 9%float] in
  let pt : Point float := QgsPointXY 9%float 0%float in
  incluir_ctr prm = true /\
  segmentos !! 2%nat = Some (seg 9%float) /\
  centro (seg 9%float) = Some pt /\
  exists clusters mapa_cluster clusters' mapa_cluster' finales mapa_final,
    for_each (take 2 (enumerate segmentos)) (agrupar_paso prm segmentos)
      ([], ∅) = Ok (clusters, mapa_cluster) /\
    for_each (take 3 (enumerate segmentos)) (agrupar_paso prm segmentos)
      ([], ∅) = Ok (clusters', mapa_cluster') /\
    agrupar prm segmentos = Ok (finales, mapa_final) /\
    ((exists j cl, clusters !! j = Some cl /\ en_rango prm pt cl = true) ->
     exists cid cl cl' clf,
       clusters !! cid = Some cl /\ en_rango prm pt cl = true /\
       (forall j cl0, (j < cid)%nat -> clusters !! j = Some cl0 ->
                      en_rango prm pt cl0 = false) /\
       indices cl' = indices cl ++ [2%nat] /\
       sum_r cl' = fadd (sum_r cl) (radio (seg 9%float)) /\
       clusters' = <[cid := cl']> clusters /\
       mapa_cluster' = <[2%nat := cid]> mapa_cluster /\
       mapa_final !! 2%nat = Some cid /\
       finales !! cid = Some clf /\ 2%nat ∈ indices clf) /\
    ((forall j cl, clusters !! j = Some cl -> en_rango prm pt cl = false) ->
     exists clf,
       clusters' = clusters ++ [ {| centroid := pt; indices := [2%nat];
                                    sum_r := radio (seg 9%float) |} ] /\
       mapa_cluster' = <[2%nat := length clusters]> mapa_cluster /\
       mapa_final !! 2%nat = Some (length clusters) /\
       finales !! length clusters = Some clf /\ 2%nat ∈ indices clf).
Proof.
  intros prm seg segmentos pt.
  split; [reflexivity|]. split; [reflexivity|]. split; [reflexivity|].
  exact (first_fit_assignment prm segmentos 2%nat (seg 9%float) pt
           eq_refl eq_refl eq_refl).
Defined.

(** First fit in binary64: the centres (0,0) and (15,0) open the clusters
    0 and 1; the centre (9,0) is within [dist_agrup = 10] of both and
    nearer to cluster 1, and joins cluster 0. *)
Lemma first_fit_not_nearest_float :
  let prm : Parametros float :=
    {| intervalo := 15; rmin := 1; rmax := 100; md := 0;
       incluir_ctr := true; dist_agrup := 10 |}%float in
  let seg (cx : float) : Segmento float :=
    {| geom := []; radio := 5%float; long := 1%float;
       centro := Some (QgsPointXY cx 0%float) |} in
  exists clusters mapa_cluster,
    agrupar prm [seg 0%float; seg 15%float; seg 9%float]
    = Ok (clusters, mapa_cluster) /\
    map indices clusters = [[0; 2]; [1]]%nat /\
    map centroid clusters = [QgsPointXY 4.5 0; QgsPointXY 15 0]%float /\
    mapa_cluster !! 2%nat = Some 0%nat.
Proof.
  cbv zeta. eexists _, _. split; [vm_compute; reflexivity|].
  repeat split; vm_compute; reflexivity.
Qed.

(** The range is inclusive, in binary64: a centre at distance exactly
    [dist_agrup = 10] from the centroid joins the cluster. *)
Lemma inclusive_range_float :
  let prm : Parametros float :=
    {| intervalo := 15; rmin := 1; rmax := 100; md := 0;
       incluir_ctr := true; dist_agrup := 10 |}%float in
  let seg (cx : float) : Segmento float :=
    {| geom := []; radio := 5%float; long := 1%float;
       centro := Some (QgsPointXY cx 0%float) |} in
  exists clusters mapa_cluster,
    agrupar prm [seg 0%float; seg 10%float] = Ok (clusters, mapa_cluster) /\
    map indices clusters = [[0; 1]]%nat /\
    map centroid clusters = [QgsPointXY 5 0]%float.
Proof.
  cbv zeta. eexists _, _. split; [vm_compute; reflexivity|].
  split; vm_compute; reflexivity.
Qed.

(** C3 at a concrete input: binary64, the centre (-0.0, -0.0) that
    [circle_center] gives for (-5,0), (0,5), (5,0), a segment without a
    centre, and the centre (1, 0). *)
Lemma centroid_is_mean_of_members_witness :
  let prm : Parametros float :=
    {| intervalo := 15; rmin := 1; rmax := 100; md := 0;
       incluir_ctr := true; dist_agrup := 10 |}%float in
  let seg (c : option (Point float)) : Segmento float :=
    {| geom := []; radio := 5%float; long := 1%float; centro := c |} in
  let segmentos :=
    [seg (Some (QgsPointXY (-0) (-0))); seg None;
     seg (Some (QgsPointXY 1 0))]%float in
  (forall n,
      exists clusters mapa_cluster,
        for_each (take n (enumerate segmentos)) (agrupar_paso prm segmentos)
          ([], ∅) = Ok (clusters, mapa_cluster) /\
        Forall (centroide_es_media segmentos) clusters) /\
  (exists clusters mapa_cluster,
      agrupar prm segmentos = Ok (clusters, mapa_cluster) /\
      Forall (centroide_es_media segmentos) clusters).
Proof.
  intros prm seg segmentos.
  exact (centroid_is_mean_of_members prm segmentos).
Defined.

(** Why the sign of zero is left open: in binary64 the points (-5,0),
    (0,5), (5,0) have the centre (-0.0, -0.0); the first step of the loop
    makes it the centroid of a new cluster, and the mean of that one
    centre is (0.0, 0.0). *)
Lemma centroid_zero_sign_float :
  let prm : Parametros float :=
    {| intervalo := 15; rmin := 1; rmax := 100; md := 0;
       incluir_ctr := true; dist_agrup := 10 |}%float in
  let layer : list (QgsGeometry float) :=
    [Polyline [QgsPointXY (-5) 0; QgsPointXY 0 5; QgsPointXY 5 0]%float] in
  exists seg c cl mapa_cluster,
    extraer prm (fun _ => false) layer = Ok [seg] /\
    centro seg = Some c /\
    agrupar prm [seg] = Ok ([cl], mapa_cluster) /\
    indices cl = [0%nat] /\
    centroid cl = c /\
    map Prim2SF [x c; y c] = [S754_zero true; S754_zero true] /\
    map Prim2SF [x (media [c]); y (media [c])] =
      [S754_zero false; S754_zero false].
Proof.
  cbv zeta. eexists _, _, _, _. split; [vm_compute; reflexivity|].
  repeat split; vm_compute; reflexivity.
Qed.

(** Over the reals the centroid equals the mean, for every list of
    segments. *)
Lemma centroid_is_mean_real
  (prm : Parametros R) (segmentos : list (Segmento R)) (n : nat) :
  exists clusters mapa_cluster,
    for_each (take n (enumerate segmentos)) (agrupar_paso prm segmentos)
      ([], ∅) = Ok (clusters, mapa_cluster) /\
    Forall (fun cl => exists cs,
                Forall2 (es_centro segmentos) (indices cl) cs /\
                centroid cl = media cs) clusters.
Proof.
  destruct (agrupar_prefijo_centroide prm segmentos n real_media_de_uno)
    as (clusters & mapa & Hrun & Hinv).
  exists clusters, mapa. split; [exact Hrun|].
  eapply Forall_impl; [exact Hinv|].
  intros cl (cs & Hcs & Hx & Hy). exists cs. split; [exact Hcs|].
  apply mismo_numero_real in Hx, Hy.
  destruct (centroid cl), (media cs). cbn [x y] in Hx, Hy. congruence.
Qed.

(** C9 at a concrete input: binary64, two segments with a centre and one
    without. *)
Lemma single_cluster_assignment_witness :
  let prm : Parametros float :=
    {| intervalo := 15; rmin := 1; rmax := 100; md := 0;
       incluir_ctr := true; dist_agrup := 10 |}%float in
  let seg (c : option (Point float)) : Segmento float :=
    {| geom := []; radio := 5%float; long := 1%float; centro := c |} in
  let segmentos :=
    [seg (Some (QgsPointXY 0 0)); seg None; seg (Some (QgsPointXY 1 0))]%float in
  exists clusters mapa_cluster,
    agrupar prm segmentos = Ok (clusters, mapa_cluster) /\
    (forall idx cid1 cid2 cl1 cl2,
        clusters !! cid1 = Some cl1 -> idx ∈ indices cl1 ->
        clusters !! cid2 = Some cl2 -> idx ∈ indices cl2 -> cid1 = cid2) /\
    length (capa_curvas segmentos mapa_cluster) = 3%nat /\
    exists c, capa_curvas segmentos mapa_cluster !! 1%nat = Some c /\
              ID_Curva c = 1%Z /\ ID_Centroide c = (-1)%Z.
Proof.
  intros prm seg segmentos.
  destruct (single_cluster_assignment prm segmentos)
    as (clusters & mapa & Hrun & _ & Huniq & _ & Hlen & Hrec).
  exists clusters, mapa. split; [exact Hrun|]. split; [exact Huniq|].
  split; [exact Hlen|].
  destruct (Hrec 1%nat (seg None) eq_refl)
    as (c & Hc & Hid & _ & _ & _ & _ & Hminus).
  exists c. split; [exact Hc|]. split; [exact Hid|].
  apply Hminus. now right.
Defined.

(** A whole run in binary64 on the collinear points (0,0), (1,1), (3,3)
    with a wide radius range: the rounded Heron area gives them a radius,
    [circle_center] gives no centre, and the curve record has cluster
    id -1. *)
Lemma collinear_segment_float :
  let prm : Parametros float :=
    {| intervalo := 15; rmin := 1; rmax := 0x1p+30; md := 0;
       incluir_ctr := true; dist_agrup := 10 |}%float in
  let layer : list (QgsGeometry float) :=
    [Polyline [QgsPointXY 0 0; QgsPointXY 1 1; QgsPointXY 3 3]%float] in
  exists res,
    processAlgorithm prm (fun _ l => l) (Some layer) (fun _ => false) = Ok res /\
    map ID_Centroide (OUTPUT_CURVES res) = [(-1)%Z] /\
    map Radio (OUTPUT_CURVES res) = [0x1.07a673243a6b3p+25%float] /\
    OUTPUT_CENTERS res = Some [].
Proof.
  cbv zeta. eexists. split; [vm_compute; reflexivity|].
  repeat split; vm_compute; reflexivity.
Qed.


(** The solver in binary64 on the 3-4-5 triangle: radius 2.5 and centre
    (2, 1.5), at distance 2.5 from the three points. *)
Lemma circumcircle_example_float :
  let p1 : Point float := QgsPointXY 0%float 0%float in
  let p2 : Point float := QgsPointXY 4%float 0%float in
  let p3 : Point float := QgsPointXY 4%float 3%float in
  let c : Point float := QgsPointXY 2%float 1.5%float in
  circle_radius p1 p2 p3 = Ok (Some 2.5%float) /\
  circle_center p1 p2 p3 = Ok (Some c) /\
  map (distance c) [p1; p2; p3] = [2.5; 2.5; 2.5]%float.
Proof. cbv zeta. repeat split; vm_compute; reflexivity. Qed.

(** The end-to-end scenario of the spec in binary64: the vertices (0,0),
    (5,0), (10,1), (15,4), (20,9) with [rmin = 1], [rmax = 100] and
    [md = 0] give three curves, all in one cluster, with radii strictly
    between 1 and 100. *)
Lemma end_to_end_example_float :
  let prm : Parametros float :=
    {| intervalo := 15; rmin := 1; rmax := 100; md := 0;
       incluir_ctr := true; dist_agrup := 10 |}%float in
  let layer : list (QgsGeometry float) :=
    [Polyline [QgsPointXY 0 0; QgsPointXY 5 0; QgsPointXY 10 1;
               QgsPointXY 15 4; QgsPointXY 20 9]%float] in
  exists res,
    processAlgorithm prm (fun _ l => l) (Some layer) (fun _ => false) = Ok res /\
    map ID_Curva (OUTPUT_CURVES res) = [0; 1; 2]%Z /\
    map ID_Centroide (OUTPUT_CURVES res) = [0; 0; 0]%Z /\
    forallb (fun c => fltb 1%float (Radio c) && fltb (Radio c) 100%float)
            (OUTPUT_CURVES res) = true /\
    option_map (map Conteo) (OUTPUT_CENTERS res) = Some [3%Z].
Proof.
  cbv zeta. eexists. split; [vm_compute; reflexivity|].
  repeat split; vm_compute; reflexivity.
Qed.


(* ================================================================== *)
(** ** The order law holds *)

Lemma SFcompare_orden (a b c : spec_float) :
  SFleb c a = true -> SFltb a b = true -> SFltb b c = false.
Proof.
  unfold SFleb, SFltb.
  destruct a as [sa|sa| |sa ma ea], b as [sb|sb| |sb mb eb],
    c as [sc|sc| |sc mc ec]; cbn [SFcompare];
    try discriminate; try reflexivity;
    repeat match goal with
           | s : bool |- _ => destruct s
           end;
    try discriminate; try reflexivity;
    repeat match goal with
           | |- context [Z.compare ?x ?y] => destruct (Z.compare_spec x y)
           | |- context [Pos.compare_cont Eq ?x ?y] =>
               change (Pos.compare_cont Eq x y) with (Pos.compare x y);
               destruct (Pos.compare_spec x y)
           end;
    cbn [CompOpp]; try discriminate; try reflexivity; try lia.
Qed.

Lemma float64_orden : ley_orden float.
Proof.
  intros a b c. cbn [fleb fltb PyFloat64].
  rewrite FloatAxioms.leb_spec, !FloatAxioms.ltb_spec.
  apply SFcompare_orden.
Qed.

Lemma real_orden : ley_orden R.
Proof.
  intros a b c. cbn [fleb fltb PyReal].
  unfold Rleb. destruct (Rle_dec c a); [|discriminate].
  rewrite Rltb_true, Rltb_false. lra.
Qed.

(* ================================================================== *)
(** ** The validation of the parameters *)

Section ValidacionProps.

Context {F : Type} `{PyNum F}.

Lemma join_not_empty (sep s : string) (rest : list string) :
  s <> ""%string -> join sep (s :: rest) <> ""%string.
Proof.
  intros Hs. destruct rest as [|t rest]; [exact Hs|].
  cbn [join]. destruct s as [|a s]; [congruence|]. discriminate.
Qed.

(** The four tests of [checkParameterValues], each against its
    condition. *)
Lemma intervalo_valido_test (v : option F) :
  ~ intervalo_valido v <->
  match v with Some i => fleb i (of_int 0) | None => true end = true.
Proof.
  unfold intervalo_valido. destruct v as [i|].
  - split.
    + intros Hn. destruct (fleb i (of_int 0)) eqn:E; [reflexivity|].
      exfalso. apply Hn. now exists i.
    + intros E (j & [= <-] & E'). congruence.
  - split; [reflexivity|]. intros _ (i & Hv & _). discriminate.
Qed.

Lemma distancia_valida_test (v : option F) :
  ~ distancia_valida v <->
  match v with Some m => fltb m (of_int 0) | None => true end = true.
Proof.
  unfold distancia_valida. destruct v as [m|].
  - split.
    + intros Hn. destruct (fltb m (of_int 0)) eqn:E; [reflexivity|].
      exfalso. apply Hn. now exists m.
    + intros E (j & [= <-] & E'). congruence.
  - split; [reflexivity|]. intros _ (i & Hv & _). discriminate.
Qed.

Lemma radios_validos_test (vmin vmax : option F) :
  ~ radios_validos vmin vmax <->
  match vmin, vmax with Some a, Some b => fleb b a | _, _ => true end = true.
Proof.
  unfold radios_validos. destruct vmin as [a|], vmax as [b|];
    try (split; [reflexivity|]; intros _ (x & y & Hx & Hy & _); discriminate).
  split.
  - intros Hn. destruct (fleb b a) eqn:E; [reflexivity|].
    exfalso. apply Hn. now exists a, b.
  - intros E (x & y & [= <-] & [= <-] & E'). congruence.
Qed.

(** [errores] when the five parameters are present. *)
Lemma errores_de_presentes
  (parameters : gmap string (option F)) (vi vd vmin vmax vc : option F) :
  parameters !! INTERVAL = Some vi ->
  parameters !! MIN_DIST = Some vd ->
  parameters !! MIN_RADIUS = Some vmin ->
  parameters !! MAX_RADIUS = Some vmax ->
  parameters !! CLUSTER_DISTANCE = Some vc ->
  errores_de parameters =
  Found
    ((if match vi with Some v => fleb v (of_int 0) | None => true end
      then [msg_intervalo] else []) ++
     (if match vd with Some v => fltb v (of_int 0) | None => true end
      then [msg_distancia] else []) ++
     (if match vmin, vmax with Some a, Some b => fleb b a | _, _ => true end
      then [msg_radios] else []) ++
     (if match vc with Some v => fltb v (of_int 0) | None => true end
      then [msg_agrupacion] else [])).
Proof.
  intros Hi Hd Hmin Hmax Hc.
  unfold errores_de, dict_get. rewrite Hi, Hd, Hmin, Hmax, Hc.
  cbn [mbind dict_result_bind].
  destruct vi, vd, vmin, vmax, vc;
    repeat match goal with
           | |- context [if ?b then _ else _] => destruct b
           end;
    reflexivity.
Qed.

(** The listed messages, decided by evaluation. *)
Ltac decide_msg :=
  match goal with
  | |- _ ∈ _ => apply (bool_decide_unpack _); vm_compute; exact I
  | |- NoDup _ => apply (bool_decide_unpack _); vm_compute; exact I
  | |- _ `sublist_of` _ =>
      repeat first [apply sublist_nil | apply sublist_skip | apply sublist_cons]
  end.

(** X1.  With the five parameters present, [errores] lists each message
    exactly when its condition fails, once, in the order of the checks. *)
Theorem checkParameterValues_report
  (parameters : gmap string (option F)) (vi vd vmin vmax vc : option F) :
  parameters !! INTERVAL = Some vi ->
  parameters !! MIN_DIST = Some vd ->
  parameters !! MIN_RADIUS = Some vmin ->
  parameters !! MAX_RADIUS = Some vmax ->
  parameters !! CLUSTER_DISTANCE = Some vc ->
  exists errores,
    errores_de parameters = Found errores /\
    (msg_intervalo ∈ errores <-> ~ intervalo_valido vi) /\
    (msg_distancia ∈ errores <-> ~ distancia_valida vd) /\
    (msg_radios ∈ errores <-> ~ radios_validos vmin vmax) /\
    (msg_agrupacion ∈ errores <-> ~ distancia_valida vc) /\
    NoDup errores /\
    errores `sublist_of`
      [msg_intervalo; msg_distancia; msg_radios; msg_agrupacion].
Proof.
  intros Hi Hd Hmin Hmax Hc.
  rewrite (errores_de_presentes _ _ _ _ _ _ Hi Hd Hmin Hmax Hc).
  eexists. split; [reflexivity|].
  rewrite intervalo_valido_test, !distancia_valida_test, radios_validos_test.
  generalize (match vi with Some v => fleb v (of_int 0) | None => true end),
    (match vd with Some v => fltb v (of_int 0) | None => true end),
    (match vmin, vmax with Some a, Some b => fleb b a | _, _ => true end),
    (match vc with Some v => fltb v (of_int 0) | None => true end).
  intros [] [] [] []; cbn [app];
    (split; [|split; [|split; [|split; [|split]]]]);
    try (split; [intros _; reflexivity|intros _; decide_msg]);
    try (split; [intros Hin; exfalso; apply (bool_decide_pack _) in Hin;
                 vm_compute in Hin; exact Hin|discriminate]);
    decide_msg.
Qed.

(** X2.  With the five parameters present, [checkParameterValues] answers
    [True] exactly when no value is [None] and none of the four tests
    [intervalo <= 0], [md < 0], [rmin >= rmax], [cd < 0] holds; the
    message is empty exactly when the answer is [True]. *)
Theorem checkParameterValues_verdict
  (parameters : gmap string (option F)) (vi vd vmin vmax vc : option F) :
  parameters !! INTERVAL = Some vi ->
  parameters !! MIN_DIST = Some vd ->
  parameters !! MIN_RADIUS = Some vmin ->
  parameters !! MAX_RADIUS = Some vmax ->
  parameters !! CLUSTER_DISTANCE = Some vc ->
  exists ok msg,
    checkParameterValues parameters = Found (ok, msg) /\
    (ok = true <->
     intervalo_valido vi /\ distancia_valida vd /\
     radios_validos vmin vmax /\ distancia_valida vc) /\
    (ok = true <-> msg = ""%string).
Proof.
  intros Hi Hd Hmin Hmax Hc. unfold checkParameterValues.
  rewrite (errores_de_presentes _ _ _ _ _ _ Hi Hd Hmin Hmax Hc).
  cbn [mbind dict_result_bind].
  assert (Hsi : forall (P : Prop) (b : bool),
             (~ P <-> b = true) -> (P \/ ~ P) -> (P <-> b = false)).
  { intros P b HP Hdec. split.
    - intros HPt. destruct b; [|reflexivity].
      exfalso. now apply (proj2 HP).
    - intros ->. destruct Hdec as [HPt|HPf]; [exact HPt|].
      apply HP in HPf. discriminate. }
  assert (Vi : intervalo_valido vi \/ ~ intervalo_valido vi).
  { unfold intervalo_valido. destruct vi as [i|];
      [|right; intros (? & ? & _); discriminate].
    destruct (fleb i (of_int 0)) eqn:E; [right|left; eauto].
    intros (? & [= <-] & ?). congruence. }
  assert (Vdist : forall v, distancia_valida v \/ ~ distancia_valida v).
  { intros v. unfold distancia_valida. destruct v as [m|];
      [|right; intros (? & ? & _); discriminate].
    destruct (fltb m (of_int 0)) eqn:E; [right|left; eauto].
    intros (? & [= <-] & ?). congruence. }
  assert (Vr : radios_validos vmin vmax \/ ~ radios_validos vmin vmax).
  { unfold radios_validos. destruct vmin as [a|];
      [|right; intros (? & ? & ? & _); discriminate].
    destruct vmax as [b|];
      [|right; intros (? & ? & _ & ? & _); discriminate].
    destruct (fleb b a) eqn:E; [right|left; eauto].
    intros (? & ? & [= <-] & [= <-] & ?). congruence. }
  pose proof (Hsi _ _ (intervalo_valido_test vi) Vi) as Ti.
  pose proof (Hsi _ _ (distancia_valida_test vd) (Vdist vd)) as Td.
  pose proof (Hsi _ _ (radios_validos_test vmin vmax) Vr) as Tr.
  pose proof (Hsi _ _ (distancia_valida_test vc) (Vdist vc)) as Tc.
  revert Ti Td Tr Tc.
  generalize (match vi with Some v => fleb v (of_int 0) | None => true end),
    (match vd with Some v => fltb v (of_int 0) | None => true end),
    (match vmin, vmax with Some a, Some b => fleb b a | _, _ => true end),
    (match vc with Some v => fltb v (of_int 0) | None => true end).
  intros [] [] [] [] Ti Td Tr Tc; cbn [app]; eexists _, _;
    (split; [reflexivity|]); (split; [|split]);
    try (intros _; reflexivity);
    try (intros Hm; exfalso; revert Hm; apply join_not_empty; discriminate);
    try discriminate;
    try (split; [discriminate|]; intros (Pi & Pd & Pr & Pc);
         apply Ti in Pi; apply Td in Pd; apply Tr in Pr; apply Tc in Pc;
         discriminate).
  split; [intros _|reflexivity].
  repeat split; [apply Ti|apply Td|apply Tr|apply Tc]; reflexivity.
Qed.

(** The keys read before a given position are present. *)
Ltac previos :=
  match goal with
  | Hj : (?j < _)%nat, Hk : _ !! ?j = Some _ |- _ =>
      repeat first
        [ lia
        | destruct j as [|j]; [injection Hk as <-; eauto|] ]
  end.

(** X3.  [checkParameterValues] raises [KeyError] exactly when one of the
    five keys it reads is not in [parameters], and the key of the error is
    the first of them, in the order of the reads, that is missing. *)
Theorem checkParameterValues_key_error
  (parameters : gmap string (option F)) (key : string) :
  checkParameterValues parameters = KeyError key <->
  exists i,
    claves_leidas !! i = Some key /\ parameters !! key = None /\
    forall j k, (j < i)%nat -> claves_leidas !! j = Some k ->
                is_Some (parameters !! k).
Proof.
  unfold checkParameterValues, errores_de, dict_get, claves_leidas.
  split.
  - intros Hr.
    destruct (parameters !! INTERVAL) eqn:E0; cbn [mbind dict_result_bind] in Hr;
      [|injection Hr as <-; exists 0%nat; repeat split; [exact E0|];
        intros j k Hj Hk; previos].
    destruct (parameters !! MIN_DIST) eqn:E1; cbn [mbind dict_result_bind] in Hr;
      [|injection Hr as <-; exists 1%nat; repeat split; [exact E1|];
        intros j k Hj Hk; previos].
    destruct (parameters !! MIN_RADIUS) eqn:E2; cbn [mbind dict_result_bind] in Hr;
      [|injection Hr as <-; exists 2%nat; repeat split; [exact E2|];
        intros j k Hj Hk; previos].
    destruct (parameters !! MAX_RADIUS) eqn:E3; cbn [mbind dict_result_bind] in Hr;
      [|injection Hr as <-; exists 3%nat; repeat split; [exact E3|];
        intros j k Hj Hk; previos].
    destruct (parameters !! CLUSTER_DISTANCE) eqn:E4;
      cbn [mbind dict_result_bind] in Hr;
      [discriminate|injection Hr as <-; exists 4%nat; repeat split; [exact E4|];
        intros j k Hj Hk; previos].
  - intros (i & Hi & Hkey & Hprev).
    assert (Hp : forall j k, (j < i)%nat ->
               [INTERVAL; MIN_DIST; MIN_RADIUS; MAX_RADIUS; CLUSTER_DISTANCE]
                 !! j = Some k -> exists v, parameters !! k = Some v).
    { intros j k Hj Hk. exact (Hprev j k Hj Hk). }
    destruct i as [|[|[|[|[|i]]]]]; [..|discriminate];
      injection Hi as <-;
      repeat match goal with
             | |- context [parameters !! ?k] =>
                 first
                   [ rewrite Hkey; cbn [mbind dict_result_bind]; reflexivity
                   | let E := fresh in
                     let j := match k with
                              | INTERVAL => constr:(0%nat)
                              | MIN_DIST => constr:(1%nat)
                              | MIN_RADIUS => constr:(2%nat)
                              | MAX_RADIUS => constr:(3%nat)
                              end in
                     destruct (Hp j k ltac:(lia) eq_refl) as [? E];
                     rewrite E; cbn [mbind dict_result_bind] ]
             end.
Qed.

End ValidacionProps.

(* ================================================================== *)
(** ** More on the solver *)

Section SolverTotal.

Context {F : Type} `{PyNum F}.

(** X4.  [circle_center] raises nothing: the tolerance test keeps a zero
    divisor away.  It gives [None] exactly when the determinant is below
    the tolerance in absolute value, and a centre only for a determinant
    that is not zero. *)
Theorem circle_center_total (p1 p2 p3 : Point F) :
  ley_tolerancia F ->
  exists v,
    circle_center p1 p2 p3 = Ok v /\
    (v = None <-> fltb (fabs (center_det p1 p2 p3)) lit_1e_9 = true) /\
    (is_Some v -> feqb (center_det p1 p2 p3) (of_int 0) = false).
Proof.
  intros Htol. unfold circle_center.
  destruct (fltb (fabs (center_det p1 p2 p3)) lit_1e_9) eqn:Hd.
  - exists None. split; [reflexivity|]. split; [easy|].
    intros [c Hc]. discriminate.
  - unfold py_div. rewrite (Htol _ Hd). py_bind. eexists.
    split; [reflexivity|]. split; [split; discriminate|].
    intros _. reflexivity.
Qed.

End SolverTotal.

(* ================================================================== *)
(** ** The extraction, part by part *)

Section Extraccion.

Context {F : Type} `{PyNum F}.

Variable prm : Parametros F.

(** What one triplet does, whatever the list it is given: nothing, or it
    appends one segment of that triplet. *)
Lemma procesar_tripleta_registro (p1 p2 p3 : Point F) :
  ley_tolerancia F ->
  (forall segmentos, procesar_tripleta prm p1 p2 p3 segmentos = Ok segmentos) \/
  exists seg,
    segmento_de prm (p1, p2, p3) seg /\
    forall segmentos,
      procesar_tripleta prm p1 p2 p3 segmentos = Ok (segmentos ++ [seg]).
Proof.
  intros Htol. unfold procesar_tripleta.
  destruct (fltb (distance p1 p2) (md prm)) eqn:H12; [now left|].
  destruct (fltb (distance p2 p3) (md prm)) eqn:H23; [now left|].
  cbn [orb].
  destruct (circle_radius_returns p1 p2 p3) as [[r|] Hr]; rewrite Hr; py_bind;
    [|now left].
  unfold truthy.
  destruct (feqb r (of_int 0)) eqn:Ht; [now left|].
  destruct (fltb (rmin prm) r) eqn:Hmin; [|now left].
  destruct (fltb r (rmax prm)) eqn:Hmax; [|now left].
  cbn [negb andb]. right. unfold segmento_de, aceptada.
  destruct (incluir_ctr prm).
  - destruct (circle_center_returns p1 p2 p3 Htol) as [center Hc].
    rewrite Hc. py_bind. eexists. split; [|reflexivity].
    cbn [geom radio long centro]. repeat split; assumption.
  - py_bind. eexists. split; [|reflexivity].
    cbn [geom radio long centro]. repeat split; assumption.
Qed.

(** A loop over triplets appends the same segments to any list. *)
Lemma for_each_tripletas_nuevos (ts : list (Point F * Point F * Point F)) :
  ley_tolerancia F ->
  exists nuevos,
    (forall segmentos,
        for_each ts
          (fun '(p1, p2, p3) segmentos =>
             procesar_tripleta prm p1 p2 p3 segmentos)
          segmentos = Ok (segmentos ++ nuevos)) /\
    (length nuevos <= length ts)%nat /\
    Forall (fun seg => exists t, t ∈ ts /\ segmento_de prm t seg) nuevos.
Proof.
  intros Htol. induction ts as [|[[p1 p2] p3] ts (nuevos & Hrun & Hlen & Hall)].
  - exists []. split; [|split; [reflexivity|constructor]].
    intros segmentos. now rewrite app_nil_r.
  - assert (Hmas : Forall (fun seg => exists t,
                      t ∈ (p1, p2, p3) :: ts /\ segmento_de prm t seg) nuevos).
    { eapply Forall_impl; [exact Hall|].
      intros seg (t & Ht & Hseg). exists t. split; [now right|exact Hseg]. }
    destruct (procesar_tripleta_registro p1 p2 p3 Htol)
      as [Hskip|(seg & Hseg & Hadd)].
    + exists nuevos. split; [|split; [cbn [length]; lia|exact Hmas]].
      intros segmentos. cbn [for_each]. rewrite Hskip. cbn [bind]. apply Hrun.
    + exists (seg :: nuevos). split; [|split; [cbn [length]; lia|]].
      * intros segmentos. cbn [for_each]. rewrite Hadd. cbn [bind].
        rewrite Hrun, <- app_assoc. reflexivity.
      * constructor; [|exact Hmas]. exists (p1, p2, p3). split; [now left|].
        exact Hseg.
Qed.

(** The segments of one part. *)
Lemma procesar_linea_nuevos (line : list (Point F)) :
  ley_tolerancia F ->
  exists nuevos,
    (forall segmentos,
        procesar_linea prm line segmentos = Ok (segmentos ++ nuevos)) /\
    (length nuevos <= length line - 2)%nat /\
    Forall (fun seg => exists t, t ∈ tripletas line /\ segmento_de prm t seg)
           nuevos.
Proof.
  intros Htol.
  destruct (for_each_tripletas_nuevos (tripletas line) Htol)
    as (nuevos & Hrun & Hlen & Hall).
  exists nuevos. split; [|split; [now rewrite <- length_tripletas|exact Hall]].
  intros segmentos. rewrite procesar_linea_tripletas. apply Hrun.
Qed.

(** The segments of a list of parts: those of each part, one after the
    other. *)
Lemma procesar_partes_nuevos (parts : list (list (Point F))) :
  ley_tolerancia F ->
  exists por_linea,
    Forall2 (fun line nuevos =>
               procesar_linea prm line [] = Ok nuevos /\
               (length nuevos <= length line - 2)%nat /\
               Forall (fun seg => exists t,
                           t ∈ tripletas line /\ segmento_de prm t seg) nuevos)
            parts por_linea /\
    forall segmentos,
      for_each parts (procesar_linea prm) segmentos =
      Ok (segmentos ++ concat por_linea).
Proof.
  intros Htol. induction parts as [|line parts (por_linea & Hall & Hrun)].
  - exists []. split; [constructor|]. intros segmentos. cbn.
    now rewrite app_nil_r.
  - destruct (procesar_linea_nuevos line Htol) as (nuevos & Hline & Hlen & Hseg).
    exists (nuevos :: por_linea). split.
    + constructor; [|exact Hall]. split; [exact (Hline [])|now split].
    + intros segmentos. cbn [for_each concat]. rewrite Hline. cbn [bind].
      rewrite Hrun, <- app_assoc. reflexivity.
Qed.

(** The extraction loop is the loop over the parts of the records it
    works on. *)
Lemma extraer_desde_partes
  (canceled : Feedback) (feats : list (QgsGeometry F)) (i : nat)
  (segmentos : list (Segmento F)) :
  extraer_desde prm canceled i feats segmentos =
  for_each (todas_las_partes (vistos canceled i feats)) (procesar_linea prm)
    segmentos.
Proof.
  revert i segmentos. induction feats as [|feat feats IH]; intros i segmentos;
    [reflexivity|].
  cbn [extraer_desde vistos]. destruct (canceled i); [reflexivity|].
  unfold todas_las_partes. cbn [map concat]. unfold procesar_feature.
  generalize (partes feat). intros parts. revert segmentos.
  induction parts as [|line parts IHp]; intros segmentos.
  - cbn [for_each app]. py_bind. apply IH.
  - cbn [for_each app].
    destruct (procesar_linea prm line segmentos) as [segmentos'|e];
      cbn [bind]; [apply IHp|reflexivity].
Qed.

(** X6.  The extraction gives, one after the other, the segments that each
    part gives on its own, over the parts of the records reached before a
    cancellation; a part of [L] vertices gives at most [L - 2]. *)
Theorem extraction_by_parts
  (canceled : Feedback) (dens : list (QgsGeometry F)) :
  ley_tolerancia F ->
  exists por_linea,
    Forall2 (fun line nuevos =>
               procesar_linea prm line [] = Ok nuevos /\
               (length nuevos <= length line - 2)%nat)
            (todas_las_partes (vistos canceled 0 dens)) por_linea /\
    extraer prm canceled dens = Ok (concat por_linea).
Proof.
  intros Htol. unfold extraer. rewrite extraer_desde_partes.
  destruct (procesar_partes_nuevos
              (todas_las_partes (vistos canceled 0 dens)) Htol)
    as (por_linea & Hall & Hrun).
  exists por_linea. split; [|exact (Hrun [])].
  eapply Forall2_impl; [exact Hall|].
  intros line nuevos (Hline & Hlen & _). now split.
Qed.

Lemma vistos_sublist (canceled : Feedback) (i : nat) (feats : list (QgsGeometry F))
  (feat : QgsGeometry F) :
  feat ∈ vistos canceled i feats -> feat ∈ feats.
Proof.
  revert i. induction feats as [|f feats IH]; intros i; [easy|].
  cbn [vistos]. destruct (canceled i); [intros Hin; now apply elem_of_nil in Hin|].
  intros Hin. apply elem_of_cons in Hin. destruct Hin as [->|Hin]; [now left|].
  right. now apply (IH (S i)).
Qed.

(** Until the first poll that answers true, the loop works on the records
    in order: with that poll at record [k] they are the first [k]. *)
Lemma vistos_cancel (canceled : Feedback) (feats : list (QgsGeometry F))
  (i k : nat) :
  (forall j, (j < k)%nat -> canceled (i + j)%nat = false) ->
  canceled (i + k)%nat = true ->
  vistos canceled i feats = take k feats.
Proof.
  revert i k. induction feats as [|feat feats IH]; intros i k Hbefore Hat.
  - now rewrite take_nil.
  - destruct k as [|k]; cbn [vistos take].
    + rewrite Nat.add_0_r in Hat. now rewrite Hat.
    + pose proof (Hbefore 0%nat ltac:(lia)) as H0.
      rewrite Nat.add_0_r in H0. rewrite H0. f_equal.
      apply IH.
      * intros j Hj. replace (S i + j)%nat with (i + S j)%nat by lia.
        apply Hbefore. lia.
      * now replace (S i + k)%nat with (i + S k)%nat by lia.
Qed.

(** C10.  When the cancellation is first seen at the poll of record [k],
    the extraction of a list of line records stops there and returns
    normally: what it returns is, one after the other, what each part of
    the first [k] records gives on its own from an empty list, and every
    segment of it is the segment of a triplet of that part, accepted by
    the filters.  The records from [k] on add nothing. *)
Theorem cancellation_partial_result
  (canceled : Feedback) (dens : list (QgsGeometry F)) (k : nat) :
  ley_tolerancia F ->
  (forall j, (j < k)%nat -> canceled j = false) ->
  canceled k = true ->
  exists por_linea,
    Forall2 (fun line nuevos =>
               procesar_linea prm line [] = Ok nuevos /\
               Forall (fun seg => exists t,
                           t ∈ tripletas line /\ segmento_de prm t seg) nuevos)
            (todas_las_partes (take k dens)) por_linea /\
    extraer prm canceled dens = Ok (concat por_linea).
Proof.
  intros Htol Hbefore Hat. unfold extraer. rewrite extraer_desde_partes.
  rewrite (vistos_cancel canceled dens 0 k Hbefore Hat).
  destruct (procesar_partes_nuevos (todas_las_partes (take k dens)) Htol)
    as (por_linea & Hall & Hrun).
  exists por_linea. split; [|exact (Hrun [])].
  eapply Forall2_impl; [exact Hall|].
  intros line nuevos (Hline & _ & Hsegs). now split.
Qed.

(** Every extracted segment is the segment of a triplet of a part of a
    record. *)
Lemma extraer_segmentos
  (canceled : Feedback) (dens : list (QgsGeometry F)) :
  ley_tolerancia F ->
  exists segmentos,
    extraer prm canceled dens = Ok segmentos /\
    Forall (fun seg => exists feat line t,
                feat ∈ dens /\ line ∈ partes feat /\ t ∈ tripletas line /\
                segmento_de prm t seg) segmentos.
Proof.
  intros Htol. unfold extraer. rewrite extraer_desde_partes.
  destruct (procesar_partes_nuevos
              (todas_las_partes (vistos canceled 0 dens)) Htol)
    as (por_linea & Hall & Hrun).
  exists (concat por_linea). split; [exact (Hrun [])|].
  apply Forall_forall. intros seg Hseg.
  apply list_elem_of_In, in_concat in Hseg.
  destruct Hseg as (nuevos & Hnuevos & Hseg).
  apply list_elem_of_In in Hnuevos, Hseg.
  apply list_elem_of_lookup in Hnuevos. destruct Hnuevos as [j Hj].
  destruct (Forall2_lookup_r _ _ _ _ _ Hall Hj) as (line & Hline & _ & _ & Hsegs).
  rewrite Forall_forall in Hsegs. destruct (Hsegs seg Hseg) as (t & Ht & Hde).
  apply list_elem_of_lookup_2 in Hline. unfold todas_las_partes in Hline.
  apply list_elem_of_In, in_concat in Hline.
  destruct Hline as (parts & Hparts & Hline).
  apply list_elem_of_In in Hparts, Hline.
  apply list_elem_of_fmap in Hparts. destruct Hparts as (feat & -> & Hfeat).
  exists feat, line, t. repeat split; try assumption.
  now apply vistos_sublist in Hfeat.
Qed.

End Extraccion.

(* ================================================================== *)
(** ** More on the grouping *)

Section Grupos.

Context {F : Type} `{PyNum F}.

Variable prm : Parametros F.
Variable segmentos : list (Segmento F).

(** A rule for the grouping loop: what every step keeps, besides
    [inv_asignacion], holds of the result. *)
Lemma agrupar_desde_regla (P : nat -> Agrupacion F -> Prop) :
  (forall n seg st st',
      segmentos !! n = Some seg -> inv_asignacion segmentos n st -> P n st ->
      agrupar_paso prm segmentos (n, seg) st = Ok st' -> P (S n) st') ->
  forall rest pre st,
    segmentos = pre ++ rest ->
    inv_asignacion segmentos (length pre) st -> P (length pre) st ->
    exists st',
      for_each (zip (seq (length pre) (length rest)) rest)
        (agrupar_paso prm segmentos) st = Ok st' /\
      inv_asignacion segmentos (length segmentos) st' /\
      P (length segmentos) st'.
Proof.
  intros Hstep rest.
  induction rest as [|seg rest IH]; intros pre st Hsplit Hinv HP.
  - exists st. split; [reflexivity|].
    replace (length segmentos) with (length pre); [now split|].
    rewrite Hsplit, length_app. cbn. lia.
  - cbn [length seq zip_with for_each].
    assert (Hn : segmentos !! length pre = Some seg).
    { rewrite Hsplit, lookup_app_r by lia. now rewrite Nat.sub_diag. }
    destruct (inv_asignacion_paso prm segmentos (length pre) seg st Hn Hinv)
      as (st1 & Hrun & Hinv1).
    rewrite Hrun. cbn [bind].
    specialize (IH (pre ++ [seg]) st1).
    rewrite length_app, Nat.add_1_r in IH. apply IH.
    + now rewrite <- app_assoc.
    + exact Hinv1.
    + exact (Hstep _ _ _ _ Hn Hinv HP Hrun).
Qed.

Lemma agrupar_regla (P : nat -> Agrupacion F -> Prop) :
  (forall n seg st st',
      segmentos !! n = Some seg -> inv_asignacion segmentos n st -> P n st ->
      agrupar_paso prm segmentos (n, seg) st = Ok st' -> P (S n) st') ->
  P 0%nat ([], ∅) ->
  incluir_ctr prm = true ->
  exists st,
    agrupar prm segmentos = Ok st /\
    inv_asignacion segmentos (length segmentos) st /\
    P (length segmentos) st.
Proof.
  intros Hstep H0 Hon. unfold agrupar. rewrite Hon.
  apply (agrupar_desde_regla P Hstep segmentos [] ([], ∅) eq_refl); [|exact H0].
  repeat split; try constructor; cbn [fst snd].
  - intros Hm. now apply lookup_empty_Some in Hm.
  - intros (cl & Hcl & _). discriminate.
Qed.

Lemma creciente_snoc (ks : list nat) (n : nat) :
  creciente ks -> Forall (fun k => (k < n)%nat) ks -> creciente (ks ++ [n]).
Proof.
  intros Hks Hlt i j a b Hij Hi Hj.
  apply lookup_snoc_Some in Hj. destruct Hj as [[Hj Hb]|[-> <-]].
  - rewrite lookup_app_l in Hi by lia. exact (Hks i j a b Hij Hi Hb).
  - rewrite lookup_app_l in Hi by exact Hij.
    rewrite Forall_forall in Hlt. apply Hlt.
    now apply list_elem_of_lookup_2 in Hi.
Qed.

Lemma suma_en_orden_snoc (rs : list F) (s r : F) :
  suma_en_orden rs = Some s -> suma_en_orden (rs ++ [r]) = Some (fadd s r).
Proof.
  destruct rs as [|r0 rest]; [discriminate|]. cbn [suma_en_orden app].
  intros [= <-]. now rewrite fold_left_app.
Qed.

Lemma sum_list_with_insert {A : Type} (f : A -> nat) (l : list A) (i : nat)
  (a b : A) :
  l !! i = Some a ->
  (sum_list_with f (<[i := b]> l) + f a = sum_list_with f l + f b)%nat.
Proof.
  revert i. induction l as [|c l IH]; intros i Hi; [discriminate|].
  destruct i as [|i].
  - injection Hi as ->. cbn. lia.
  - specialize (IH i Hi).
    change (sum_list_with f (<[S i:=b]> (c :: l)))
      with (f c + sum_list_with f (<[i:=b]> l))%nat.
    change (sum_list_with f (c :: l)) with (f c + sum_list_with f l)%nat.
    lia.
Qed.

Lemma con_centro_take_S (n : nat) (seg : Segmento F) :
  segmentos !! n = Some seg ->
  con_centro (take (S n) segmentos) =
  (con_centro (take n segmentos) +
   match centro seg with Some _ => 1 | None => 0 end)%nat.
Proof.
  intros Hn. unfold con_centro.
  rewrite (take_S_r _ _ _ Hn), filter_app, length_app.
  f_equal. rewrite filter_singleton by exact [].
  destruct (centro seg); cbn.
  - destruct (decide _) as [_|Hno]; [reflexivity|]. exfalso. apply Hno. eauto.
  - destruct (decide _) as [[c Hc]|_]; [discriminate|reflexivity].
Qed.

(** One step keeps the second invariant. *)
Lemma inv_grupos_paso (n : nat) (seg : Segmento F) (st st' : Agrupacion F) :
  segmentos !! n = Some seg ->
  inv_asignacion segmentos n st -> inv_grupos segmentos n st ->
  agrupar_paso prm segmentos (n, seg) st = Ok st' ->
  inv_grupos segmentos (S n) st'.
Proof.
  intros Hn. destruct st as [clusters mapa].
  intros (Hval & Hnd & Hmap) (Hwf & Hsum & Hasg) Hrun. cbn [fst snd] in *.
  unfold inv_grupos. rewrite (con_centro_take_S n seg Hn).
  assert (Hold : forall mapa' : gmap nat nat,
             (forall idx, idx <> n -> mapa' !! idx = mapa !! idx) ->
             (is_Some (centro seg) -> is_Some (mapa' !! n)) ->
             forall idx seg0,
               (idx < S n)%nat -> segmentos !! idx = Some seg0 ->
               is_Some (centro seg0) -> is_Some (mapa' !! idx)).
  { intros mapa' Hsame Hnew idx seg0 Hidx Hs Hc.
    destruct (decide (idx = n)) as [->|Hne].
    - apply Hnew. congruence.
    - rewrite Hsame by exact Hne. apply (Hasg idx seg0); [lia|exact Hs|exact Hc]. }
  destruct (centro seg) as [pt|] eqn:Hpt.
  2:{ unfold agrupar_paso in Hrun. rewrite Hpt in Hrun. injection Hrun as <-.
      cbn [fst snd]. split; [exact Hwf|]. split; [lia|].
      apply Hold; [reflexivity|]. intros [c Hc]. discriminate. }
  destruct (agrupar_paso_cases prm segmentos n seg pt clusters mapa
              Hn Hpt Hval)
    as [[_ Hcase]|(cid & cl & cs & Hcid & _ & _ & Hcs & Hcase)];
    rewrite Hcase in Hrun; injection Hrun as <-; cbn [fst snd];
    (split; [|split]).
  - apply Forall_app. split; [exact Hwf|]. constructor; [|constructor].
    cbn [indices sum_r]. split; [discriminate|]. split.
    + intros i j a b Hij Hi Hj. apply lookup_lt_Some in Hj. cbn in Hj. lia.
    + exists [radio seg]. split; [|reflexivity].
      constructor; [now exists seg|constructor].
  - rewrite sum_list_with_app. cbn. lia.
  - apply Hold.
    + intros idx Hne. now rewrite lookup_insert_ne.
    + intros _. rewrite lookup_insert_eq. eauto.
  - apply Forall_insert; [exact Hwf|].
    rewrite Forall_lookup in Hwf. destruct (Hwf cid cl Hcid)
      as (Hne & Hinc & rs & Hrs & Hsuma).
    rewrite Forall_lookup in Hnd. destruct (Hnd cid cl Hcid) as [_ Hlt].
    cbn [indices sum_r]. split; [|split].
    + intros Happ. now apply app_eq_nil in Happ as [_ [=]].
    + now apply creciente_snoc.
    + exists (rs ++ [radio seg]). split.
      * apply Forall2_app; [exact Hrs|].
        constructor; [now exists seg|constructor].
      * now apply suma_en_orden_snoc.
  - pose proof (sum_list_with_insert (fun cl => length (indices cl)) clusters
                  cid cl
                  {| centroid := media (cs ++ [pt]);
                     indices := indices cl ++ [n];
                     sum_r := fadd (sum_r cl) (radio seg) |} Hcid) as Hins.
    cbn [indices] in Hins. rewrite length_app in Hins. cbn in Hins. lia.
  - apply Hold.
    + intros idx Hne. now rewrite lookup_insert_ne.
    + intros _. rewrite lookup_insert_eq. eauto.
Qed.

(** The grouping, when requested, returns a state with both invariants. *)
Lemma agrupar_inv_grupos :
  incluir_ctr prm = true ->
  exists st,
    agrupar prm segmentos = Ok st /\
    inv_asignacion segmentos (length segmentos) st /\
    inv_grupos segmentos (length segmentos) st.
Proof.
  intros Hon.
  apply (agrupar_regla (inv_grupos segmentos)); [|split; [|split]|exact Hon].
  - intros n seg st st'. apply inv_grupos_paso.
  - constructor.
  - reflexivity.
  - intros idx seg Hidx. lia.
Qed.


(** The grouping always returns; its clusters are well formed, and when it
    was requested both invariants hold of the result. *)
Lemma agrupar_estado :
  exists st,
    agrupar prm segmentos = Ok st /\
    inv_asignacion segmentos (length segmentos) st /\
    Forall (grupo_bien_formado segmentos) st.1 /\
    (incluir_ctr prm = true -> inv_grupos segmentos (length segmentos) st) /\
    (incluir_ctr prm = false -> st = ([], ∅)).
Proof.
  destruct (incluir_ctr prm) eqn:Hon.
  - destruct (agrupar_inv_grupos Hon) as (st & Hrun & Hinv & Hg).
    exists st. repeat split; try assumption; try apply Hinv; try apply Hg.
    discriminate.
  - destruct (agrupar_inv prm segmentos) as (st & Hrun & Hinv).
    pose proof Hrun as Hst. unfold agrupar in Hst. rewrite Hon in Hst.
    injection Hst as <-.
    exists ([], ∅). repeat split; try assumption; try apply Hinv;
      try constructor; try discriminate.
Qed.

(** X7.  With the grouping requested, a segment is in [mapa_cluster], and
    in the member list of the cluster named there, exactly when it has a
    centre; [mapa_cluster.get(idx, -1)] is -1 exactly when it has none. *)
Theorem every_centre_is_grouped :
  incluir_ctr prm = true ->
  exists clusters mapa_cluster,
    agrupar prm segmentos = Ok (clusters, mapa_cluster) /\
    forall idx seg,
      segmentos !! idx = Some seg ->
      ((exists cid cl, mapa_cluster !! idx = Some cid /\
                       clusters !! cid = Some cl /\ idx ∈ indices cl) <->
       is_Some (centro seg)) /\
      (get_cluster mapa_cluster idx = (-1)%Z <-> centro seg = None).
Proof.
  intros Hon.
  destruct agrupar_estado
    as ([clusters mapa] & Hrun & (Hval & _ & Hmap) & _ & Hg & _).
  destruct (Hg Hon) as (_ & _ & Hasg). cbn [fst snd] in *.
  exists clusters, mapa. split; [exact Hrun|]. intros idx seg Hidx.
  assert (Hiff : is_Some (mapa !! idx) <-> is_Some (centro seg)).
  { split.
    - intros [cid Hcid]. apply Hmap in Hcid. destruct Hcid as (cl & Hcl & Hin).
      rewrite Forall_lookup in Hval. destruct (Hval cid cl Hcl) as [cs Hcs].
      apply list_elem_of_lookup in Hin. destruct Hin as [i Hi].
      destruct (Forall2_lookup_l _ _ _ _ _ Hcs Hi) as (c & _ & seg' & Hs & Hc).
      exists c. congruence.
    - apply (Hasg idx seg); [|exact Hidx]. now apply lookup_lt_Some in Hidx. }
  split.
  - rewrite <- Hiff. split.
    + intros (cid & cl & Hcid & _). eauto.
    + intros [cid Hcid]. pose proof Hcid as Hm. apply Hmap in Hm.
      destruct Hm as (cl & Hcl & Hin). now exists cid, cl.
  - unfold get_cluster. destruct (mapa !! idx) as [cid|] eqn:Hm.
    + split; [lia|]. intros Hnone.
      destruct Hiff as [Hiff _]. destruct Hiff as [c Hc]; [eauto|].
      congruence.
    + split; [|reflexivity]. intros _.
      destruct (centro seg) as [c|]; [|reflexivity].
      destruct Hiff as [_ Hiff]. destruct Hiff as [cid Hcid]; [eauto|].
      discriminate.
Qed.

(** X8.  The clusters of the grouping are never empty, list their members
    in increasing order, and list only segments that have a centre. *)
Theorem clusters_are_well_formed :
  exists clusters mapa_cluster,
    agrupar prm segmentos = Ok (clusters, mapa_cluster) /\
    Forall (fun cl =>
              indices cl <> [] /\ creciente (indices cl) /\
              Forall (fun k => exists seg c,
                          segmentos !! k = Some seg /\ centro seg = Some c)
                     (indices cl)) clusters.
Proof.
  destruct agrupar_estado
    as ([clusters mapa] & Hrun & (Hval & _ & _) & Hwf & _).
  cbn [fst snd] in *. exists clusters, mapa. split; [exact Hrun|].
  rewrite Forall_lookup in *. intros cid cl Hcl.
  destruct (Hwf cid cl Hcl) as (Hne & Hinc & _).
  destruct (Hval cid cl Hcl) as [cs Hcs].
  split; [exact Hne|]. split; [exact Hinc|].
  rewrite Forall_lookup. intros i k Hk.
  destruct (Forall2_lookup_l _ _ _ _ _ Hcs Hk) as (c & _ & seg & Hs & Hc).
  now exists seg, c.
Qed.


Lemma comprehension_pure {A B : Type} (f : A -> result B) (g : A -> B)
  (xs : list A) :
  (forall a, a ∈ xs -> f a = Ok (g a)) -> comprehension f xs = Ok (map g xs).
Proof.
  induction xs as [|a xs IH]; intros Hf; [reflexivity|].
  cbn [comprehension map]. rewrite (Hf a) by now left.
  cbn [bind]. rewrite IH; [reflexivity|]. intros b Hb. apply Hf. now right.
Qed.

(** The cluster layer of clusters that are not empty: one record per
    cluster, in order, with the quotient as mean radius. *)
Lemma capa_centroides_registros (clusters : list (Cluster F)) :
  Forall (fun cl => indices cl <> []) clusters ->
  capa_centroides clusters =
  Ok (map (fun '(cid, cl) =>
             {| ctr_ID_Centroide := Z.of_nat cid;
                Radio_medio :=
                  fquot (sum_r cl) (of_int (Z.of_nat (length (indices cl))));
                Conteo := Z.of_nat (length (indices cl));
                ctr_geom := centroid cl |})
          (enumerate clusters)).
Proof.
  intros Hne. unfold capa_centroides. apply comprehension_pure.
  intros [cid cl] Hin. apply enumerate_lookup in Hin.
  rewrite Forall_lookup in Hne. specialize (Hne cid cl Hin).
  destruct (indices cl) as [|k ks]; [congruence|].
  cbn [length Nat.eqb]. unfold py_div_int.
  replace (Z.of_nat (S (length ks)) =? 0)%Z with false
    by (symmetry; apply Z.eqb_neq; lia).
  reflexivity.
Qed.

(** X9.  The cluster layer has one record per cluster, numbered in order of
    creation, at the centroid; its count is the number of members, at
    least 1, and its mean radius is the sum of the members' radii, added
    in member order, divided by the count. *)
Theorem cluster_records :
  exists clusters mapa_cluster centros,
    agrupar prm segmentos = Ok (clusters, mapa_cluster) /\
    capa_centroides clusters = Ok centros /\
    length centros = length clusters /\
    forall cid cl,
      clusters !! cid = Some cl ->
      exists c rs total,
        centros !! cid = Some c /\
        ctr_ID_Centroide c = Z.of_nat cid /\
        ctr_geom c = centroid cl /\
        Conteo c = Z.of_nat (length (indices cl)) /\ (1 <= Conteo c)%Z /\
        Forall2 (es_radio segmentos) (indices cl) rs /\
        suma_en_orden rs = Some total /\
        Radio_medio c = fquot total (of_int (Conteo c)).
Proof.
  destruct agrupar_estado as ([clusters mapa] & Hrun & _ & Hwf & _).
  cbn [fst snd] in *.
  assert (Hne : Forall (fun cl => indices cl <> []) clusters).
  { eapply Forall_impl; [exact Hwf|]. now intros cl (Hne & _). }
  exists clusters, mapa. eexists.
  split; [exact Hrun|]. split; [exact (capa_centroides_registros _ Hne)|].
  split; [now rewrite length_map, length_enumerate|].
  intros cid cl Hcl.
  rewrite Forall_lookup in Hwf.
  destruct (Hwf cid cl Hcl) as (Hne' & _ & rs & Hrs & Hsum).
  eexists _, rs, (sum_r cl).
  split.
  { change (map ?f ?l) with (f <$> l).
    rewrite list_lookup_fmap, (enumerate_lookup_Some _ _ _ Hcl). reflexivity. }
  cbn [ctr_ID_Centroide ctr_geom Conteo Radio_medio].
  repeat split; try assumption.
  destruct (indices cl); [congruence|]. cbn [length]. lia.
Qed.

Lemma suma_conteos (clusters : list (Cluster F)) :
  foldr Z.add 0%Z
    (map (fun cl => Z.of_nat (length (indices cl))) clusters) =
  Z.of_nat (sum_list_with (fun cl => length (indices cl)) clusters).
Proof.
  induction clusters as [|cl clusters IH]; [reflexivity|].
  cbn [map foldr]. rewrite IH.
  change (sum_list_with ?f (cl :: clusters))
    with (f cl + sum_list_with f clusters)%nat.
  cbn beta. lia.
Qed.

Lemma grupos_no_vacios_suma (clusters : list (Cluster F)) :
  Forall (fun cl => indices cl <> []) clusters ->
  (length clusters <= sum_list_with (fun cl => length (indices cl)) clusters)%nat.
Proof.
  induction 1 as [|cl clusters Hne _ IH]; [reflexivity|].
  change (sum_list_with ?f (cl :: clusters))
    with (f cl + sum_list_with f clusters)%nat.
  cbn beta. destruct (indices cl); [congruence|]. cbn [length]. lia.
Qed.

(** X10.  With the grouping requested, the counts of the cluster records add
    up to the number of segments that have a centre, and there are at
    most that many clusters. *)
Theorem cluster_counts_add_up :
  incluir_ctr prm = true ->
  exists clusters mapa_cluster centros,
    agrupar prm segmentos = Ok (clusters, mapa_cluster) /\
    capa_centroides clusters = Ok centros /\
    foldr Z.add 0%Z (map Conteo centros) = Z.of_nat (con_centro segmentos) /\
    (length centros <= con_centro segmentos)%nat.
Proof.
  intros Hon.
  destruct agrupar_estado as ([clusters mapa] & Hrun & _ & Hwf & Hg & _).
  destruct (Hg Hon) as (_ & Hsum & _). cbn [fst snd] in *.
  rewrite firstn_all in Hsum.
  assert (Hne : Forall (fun cl => indices cl <> []) clusters).
  { eapply Forall_impl; [exact Hwf|]. now intros cl (Hne & _). }
  exists clusters, mapa. eexists.
  split; [exact Hrun|]. split; [exact (capa_centroides_registros _ Hne)|].
  split.
  - rewrite <- Hsum, <- suma_conteos, map_map.
    unfold enumerate.
    rewrite <- (snd_zip (seq 0 (length clusters)) clusters) at 3
      by (rewrite length_seq; lia).
    change (?l.*2) with (map snd l). rewrite map_map.
    f_equal. apply map_ext. now intros [cid cl].
  - rewrite length_map, length_enumerate, <- Hsum.
    now apply grupos_no_vacios_suma.
Qed.

(** X11.  One step of the grouping never removes, reorders or shrinks a
    cluster: each cluster stays at its position with its member list
    extended at the end or unchanged, at most one cluster is added, and
    the entries of [mapa_cluster] for other segments stay. *)
Theorem clusters_only_grow (idx : nat) (seg : Segmento F)
  (clusters : list (Cluster F)) (mapa_cluster : gmap nat nat) :
  segmentos !! idx = Some seg ->
  Forall (miembros_validos segmentos) clusters ->
  exists clusters' mapa_cluster',
    agrupar_paso prm segmentos (idx, seg) (clusters, mapa_cluster) =
    Ok (clusters', mapa_cluster') /\
    (length clusters <= length clusters' <= S (length clusters))%nat /\
    (forall cid cl,
        clusters !! cid = Some cl ->
        exists cl', clusters' !! cid = Some cl' /\
                    indices cl `prefix_of` indices cl') /\
    (forall k, k <> idx -> mapa_cluster' !! k = mapa_cluster !! k).
Proof.
  intros Hidx Hval.
  destruct (centro seg) as [pt|] eqn:Hpt.
  2:{ exists clusters, mapa_cluster. unfold agrupar_paso. rewrite Hpt.
      split; [reflexivity|]. split; [lia|]. split; [|reflexivity].
      intros cid cl Hcl. now exists cl. }
  destruct (agrupar_paso_cases prm segmentos idx seg pt clusters mapa_cluster
              Hidx Hpt Hval)
    as [[_ Hrun]|(cid0 & cl0 & cs & Hcid0 & _ & _ & _ & Hrun)];
    rewrite Hrun; eexists _, _; (split; [reflexivity|]);
    (split; [|split]).
  - rewrite length_app. cbn. lia.
  - intros cid cl Hcl. exists cl. split; [|reflexivity].
    now apply lookup_app_l_Some.
  - intros k Hk. now rewrite lookup_insert_ne.
  - rewrite length_insert. lia.
  - intros cid cl Hcl. destruct (decide (cid = cid0)) as [->|Hne].
    + eexists. split.
      * apply list_lookup_insert_eq. now apply lookup_lt_Some in Hcl.
      * cbn [indices]. replace cl0 with cl by congruence.
        now apply prefix_app_r.
    + exists cl. split; [|reflexivity].
      now rewrite list_lookup_insert_ne.
  - intros k Hk. now rewrite lookup_insert_ne.
Qed.

End Grupos.

(* ================================================================== *)
(** ** The two layers of a run *)

Section Capas.

Context {F : Type} `{PyNum F}.

Variable prm : Parametros F.

Lemma capa_curvas_lookup (segmentos : list (Segmento F))
  (mapa_cluster : gmap nat nat) (i : nat) (c : Curva F) :
  capa_curvas segmentos mapa_cluster !! i = Some c ->
  exists seg,
    segmentos !! i = Some seg /\
    c = {| ID_Curva := Z.of_nat i;
           ID_Centroide := get_cluster mapa_cluster i;
           Radio := radio seg; Longitud := long seg;
           curva_geom := geom seg |}.
Proof.
  unfold capa_curvas. change (map ?f ?l) with (f <$> l).
  rewrite list_lookup_fmap. intros Hc.
  destruct (enumerate segmentos !! i) as [[idx seg]|] eqn:Hi; [|discriminate].
  injection Hc as <-.
  pose proof (list_elem_of_lookup_2 _ _ _ Hi) as Hin.
  apply enumerate_lookup in Hin.
  assert (idx = i) as ->.
  { unfold enumerate in Hi. apply lookup_zip_with_Some in Hi.
    destruct Hi as (a & b & [= <- <-] & Ha & _).
    apply lookup_seq in Ha. lia. }
  now exists seg.
Qed.

(** X12.  Every record of the curve layer carries its position as
    [ID_Curva], three consecutive vertices of a part of a densified
    record as geometry, their radius as [Radio] and the length of the two
    edges as [Longitud]; the radius is not zero and lies strictly between
    [rmin] and [rmax], and the test [< md] fails for both edges. *)
Theorem curve_records
  (densificar : F -> list (QgsGeometry F) -> list (QgsGeometry F))
  (layer : list (QgsGeometry F)) (canceled : Feedback) :
  ley_tolerancia F ->
  exists res,
    processAlgorithm prm densificar (Some layer) canceled = Ok res /\
    forall i c,
      OUTPUT_CURVES res !! i = Some c ->
      ID_Curva c = Z.of_nat i /\
      exists feat line p1 p2 p3,
        feat ∈ densificar (intervalo prm) layer /\ line ∈ partes feat /\
        (p1, p2, p3) ∈ tripletas line /\
        curva_geom c = [p1; p2; p3] /\
        circle_radius p1 p2 p3 = Ok (Some (Radio c)) /\
        Longitud c = polyline_length p1 p2 p3 /\
        feqb (Radio c) (of_int 0) = false /\
        fltb (rmin prm) (Radio c) = true /\
        fltb (Radio c) (rmax prm) = true /\
        fltb (distance p1 p2) (md prm) = false /\
        fltb (distance p2 p3) (md prm) = false.
Proof.
  intros Htol. unfold processAlgorithm.
  destruct (extraer_segmentos prm canceled (densificar (intervalo prm) layer)
              Htol) as (segmentos & -> & Hsegs). py_bind.
  destruct (agrupar_estado prm segmentos) as ([clusters mapa] & -> & _).
  py_bind.
  assert (Hcurvas : forall i c,
             capa_curvas segmentos mapa !! i = Some c ->
             ID_Curva c = Z.of_nat i /\
             exists feat line p1 p2 p3,
               feat ∈ densificar (intervalo prm) layer /\ line ∈ partes feat /\
               (p1, p2, p3) ∈ tripletas line /\
               curva_geom c = [p1; p2; p3] /\
               circle_radius p1 p2 p3 = Ok (Some (Radio c)) /\
               Longitud c = polyline_length p1 p2 p3 /\
               feqb (Radio c) (of_int 0) = false /\
               fltb (rmin prm) (Radio c) = true /\
               fltb (Radio c) (rmax prm) = true /\
               fltb (distance p1 p2) (md prm) = false /\
               fltb (distance p2 p3) (md prm) = false).
  { intros i c Hc. apply capa_curvas_lookup in Hc.
    destruct Hc as (seg & Hseg & ->). split; [reflexivity|].
    rewrite Forall_lookup in Hsegs.
    destruct (Hsegs i seg Hseg)
      as (feat & line & [[p1 p2] p3] & Hfeat & Hline & Ht & Hde).
    destruct Hde as ((Hg & H12 & H23 & Hr & Hmin & Hmax) & Hnz & Hlong & _).
    exists feat, line, p1, p2, p3. cbn [curva_geom Radio Longitud].
    repeat split; assumption. }
  destruct (incluir_ctr prm).
  - destruct (capa_centroides_returns clusters) as (centros & ->). py_bind.
    eexists. split; [reflexivity|exact Hcurvas].
  - eexists. split; [reflexivity|exact Hcurvas].
Qed.

(** Counting the positions of a list that are in a list of indices. *)
Lemma length_filter_fmap {A B : Type} (f : A -> B) (P : B -> Prop)
  `{forall b, Decision (P b)} (l : list A) :
  length (filter P (f <$> l)) = length (filter (fun a => P (f a)) l).
Proof.
  induction l as [|a l IH]; [reflexivity|].
  rewrite fmap_cons, !filter_cons. destruct (decide (P (f a))); cbn [length];
    now rewrite IH.
Qed.

Lemma cuenta_indices {A : Type} (xs : list A) (ks : list nat) :
  NoDup ks -> Forall (fun k => (k < length xs)%nat) ks ->
  length (filter (fun p : nat * A => p.1 ∈ ks) (enumerate xs)) = length ks.
Proof.
  intros Hnd Hlt.
  transitivity (length (filter (fun k => k ∈ ks) ((enumerate xs).*1)));
    [symmetry; exact (length_filter_fmap fst (fun k => k ∈ ks) _)|].
  unfold enumerate. rewrite fst_zip by (rewrite length_seq; lia).
  apply Permutation_length, NoDup_Permutation;
    [apply NoDup_filter, NoDup_seq|exact Hnd|].
  intros k. rewrite list_elem_of_filter, elem_of_seq.
  rewrite Forall_forall in Hlt. split; [now intros [Hk _]|].
  intros Hk. split; [exact Hk|]. specialize (Hlt k Hk). lia.
Qed.

(** X13.  With the grouping requested, the two layers agree: the
    [ID_Centroide] of a curve is -1 or the [ID_Centroide] of the record at
    that position of the cluster layer, and the [Conteo] of a cluster
    record is the number of curves that carry its [ID_Centroide]. *)
Theorem curve_cluster_reference
  (densificar : F -> list (QgsGeometry F) -> list (QgsGeometry F))
  (layer : list (QgsGeometry F)) (canceled : Feedback) :
  ley_tolerancia F ->
  incluir_ctr prm = true ->
  exists curvas centros,
    processAlgorithm prm densificar (Some layer) canceled =
    Ok {| OUTPUT_CURVES := curvas; OUTPUT_CENTERS := Some centros |} /\
    (forall c,
        c ∈ curvas ->
        ID_Centroide c = (-1)%Z \/
        exists ctr,
          (0 <= ID_Centroide c)%Z /\
          centros !! Z.to_nat (ID_Centroide c) = Some ctr /\
          ctr_ID_Centroide ctr = ID_Centroide c) /\
    (forall ctr,
        ctr ∈ centros ->
        Conteo ctr =
        Z.of_nat (length (filter (fun c => ID_Centroide c = ctr_ID_Centroide ctr)
                                 curvas))).
Proof.
  intros Htol Hon. unfold processAlgorithm.
  destruct (extraer_desde_total prm canceled (densificar (intervalo prm) layer)
              0 [] Htol) as (segmentos & Hext).
  unfold extraer. rewrite Hext. cbn [app]. py_bind.
  destruct (agrupar_estado prm segmentos)
    as ([clusters mapa] & -> & (Hval & Hnd & Hmap) & Hwf & _).
  cbn [fst snd] in *. py_bind. rewrite Hon.
  assert (Hne : Forall (fun cl => indices cl <> []) clusters).
  { eapply Forall_impl; [exact Hwf|]. now intros cl (Hne & _). }
  rewrite (capa_centroides_registros _ Hne). py_bind.
  eexists _, _. split; [reflexivity|]. split.
  - intros c Hc. apply list_elem_of_lookup in Hc. destruct Hc as [i Hc].
    apply capa_curvas_lookup in Hc. destruct Hc as (seg & Hseg & ->).
    cbn [ID_Centroide]. unfold get_cluster.
    destruct (mapa !! i) as [cid|] eqn:Hi; [right|now left].
    apply Hmap in Hi. destruct Hi as (cl & Hcl & _).
    eexists. split; [lia|]. rewrite Nat2Z.id.
    change (map ?f ?l) with (f <$> l).
    rewrite list_lookup_fmap, (enumerate_lookup_Some _ _ _ Hcl).
    split; reflexivity.
  - intros ctr Hctr. change (map ?f ?l) with (f <$> l) in Hctr.
    apply list_elem_of_fmap in Hctr. destruct Hctr as ([cid cl] & -> & Hin).
    apply enumerate_lookup in Hin. cbn [Conteo ctr_ID_Centroide]. f_equal.
    rewrite Forall_lookup in Hnd. destruct (Hnd cid cl Hin) as [Hnd' Hlt].
    rewrite <- (cuenta_indices segmentos (indices cl) Hnd' Hlt).
    unfold capa_curvas. change (map ?f ?l) with (f <$> l).
    rewrite length_filter_fmap. f_equal. apply list_filter_iff.
    intros [idx seg]. cbn [ID_Centroide fst]. unfold get_cluster. split.
    + intros Hidx.
      assert (Hi : mapa !! idx = Some cid) by (apply Hmap; eauto).
      now rewrite Hi.
    + intros Hk. destruct (mapa !! idx) as [cid'|] eqn:Hi; [|lia].
      assert (cid' = cid) as -> by lia.
      apply Hmap in Hi. destruct Hi as (cl' & Hcl' & Hidx). congruence.
Qed.

(** X14.  With the grouping requested, a curve is left without a cluster,
    [ID_Centroide = -1], exactly when the determinant of its three points
    is below the tolerance of [circle_center] in absolute value. *)
Theorem unassigned_curves
  (densificar : F -> list (QgsGeometry F) -> list (QgsGeometry F))
  (layer : list (QgsGeometry F)) (canceled : Feedback) :
  ley_tolerancia F ->
  incluir_ctr prm = true ->
  exists res,
    processAlgorithm prm densificar (Some layer) canceled = Ok res /\
    forall c,
      c ∈ OUTPUT_CURVES res ->
      exists p1 p2 p3,
        curva_geom c = [p1; p2; p3] /\
        (ID_Centroide c = (-1)%Z <->
         fltb (fabs (center_det p1 p2 p3)) lit_1e_9 = true).
Proof.
  intros Htol Hon. unfold processAlgorithm.
  destruct (extraer_segmentos prm canceled (densificar (intervalo prm) layer)
              Htol) as (segmentos & -> & Hsegs). py_bind.
  destruct (agrupar_estado prm segmentos)
    as ([clusters mapa] & -> & (Hval & _ & Hmap) & _ & Hg & _).
  destruct (Hg Hon) as (_ & _ & Htodos). cbn [fst snd] in *.
  py_bind. rewrite Hon.
  destruct (capa_centroides_returns clusters) as (centros & ->). py_bind.
  eexists. split; [reflexivity|]. cbn [OUTPUT_CURVES].
  intros c Hc. apply list_elem_of_lookup in Hc. destruct Hc as [i Hc].
  apply capa_curvas_lookup in Hc. destruct Hc as (seg & Hseg & ->).
  rewrite Forall_lookup in Hsegs.
  destruct (Hsegs i seg Hseg)
    as (feat & line & [[p1 p2] p3] & _ & _ & _ & Hde).
  destruct Hde as ((Hgeom & _) & _ & _ & Hctr). rewrite Hon in Hctr.
  exists p1, p2, p3. cbn [curva_geom ID_Centroide]. split; [exact Hgeom|].
  assert (Hnone : centro seg = None <->
                  fltb (fabs (center_det p1 p2 p3)) lit_1e_9 = true).
  { unfold circle_center in Hctr.
    destruct (fltb (fabs (center_det p1 p2 p3)) lit_1e_9) eqn:Hd.
    - split; [reflexivity|]. intros _. congruence.
    - split; [|discriminate]. intros Hn.
      unfold py_div in Hctr. rewrite (Htol _ Hd) in Hctr. py_bind in Hctr.
      congruence. }
  rewrite <- Hnone. unfold get_cluster. split.
  - intros Hid. destruct (centro seg) as [pt|] eqn:Hpt; [|reflexivity].
    destruct (Htodos i seg) as [cid Hcid];
      [now apply lookup_lt_Some in Hseg|exact Hseg|now rewrite Hpt|].
    rewrite Hcid in Hid. lia.
  - intros Hpt. destruct (mapa !! i) as [cid|] eqn:Hi; [|reflexivity].
    exfalso. apply Hmap in Hi. destruct Hi as (cl & Hcl & Hidx).
    rewrite Forall_lookup in Hval. destruct (Hval cid cl Hcl) as (cs & Hcs).
    apply list_elem_of_lookup in Hidx. destruct Hidx as [j Hj].
    destruct (Forall2_lookup_l _ _ _ _ _ Hcs Hj) as (pt & _ & seg' & Hseg' & Hc).
    congruence.
Qed.


(** With [rmin >= rmax] no radius passes the range test. *)
Lemma procesar_tripleta_rango_vacio (p1 p2 p3 : Point F)
  (segmentos : list (Segmento F)) :
  ley_orden F ->
  fleb (rmax prm) (rmin prm) = true ->
  procesar_tripleta prm p1 p2 p3 segmentos = Ok segmentos.
Proof.
  intros Hord Hinv. unfold procesar_tripleta.
  destruct (_ || _); [reflexivity|].
  destruct (circle_radius_returns p1 p2 p3) as [[r|] ->]; py_bind;
    [|reflexivity].
  destruct (fltb (rmin prm) r) eqn:Hmin;
    [|now rewrite andb_false_r].
  rewrite (Hord _ _ _ Hinv Hmin). now rewrite andb_false_r.
Qed.

Lemma for_each_nada {A S : Type} (xs : list A) (body : A -> S -> result S) :
  (forall a s, body a s = Ok s) -> forall s, for_each xs body s = Ok s.
Proof.
  intros Hbody s. induction xs as [|a xs IH]; [reflexivity|].
  cbn [for_each]. rewrite Hbody. exact IH.
Qed.

Lemma extraer_rango_vacio (canceled : Feedback) (dens : list (QgsGeometry F)) :
  ley_orden F ->
  fleb (rmax prm) (rmin prm) = true ->
  extraer prm canceled dens = Ok [].
Proof.
  intros Hord Hinv. unfold extraer. rewrite extraer_desde_partes.
  apply for_each_nada. intros line segmentos.
  rewrite procesar_linea_tripletas. apply for_each_nada.
  intros [[p1 p2] p3] segs. now apply procesar_tripleta_rango_vacio.
Qed.

(** X15.  With [rmin >= rmax], the condition that [checkParameterValues]
    reports, a run returns a curve layer with no record, and a cluster
    layer with no record when the grouping is requested. *)
Theorem inverted_range_no_curves
  (densificar : F -> list (QgsGeometry F) -> list (QgsGeometry F))
  (layer : list (QgsGeometry F)) (canceled : Feedback) :
  ley_orden F ->
  fleb (rmax prm) (rmin prm) = true ->
  processAlgorithm prm densificar (Some layer) canceled =
  Ok {| OUTPUT_CURVES := [];
        OUTPUT_CENTERS := if incluir_ctr prm then Some [] else None |}.
Proof.
  intros Hord Hinv. unfold processAlgorithm.
  rewrite (extraer_rango_vacio _ _ Hord Hinv). py_bind.
  unfold agrupar. destruct (incluir_ctr prm); reflexivity.
Qed.

(** The extraction without centres gives the same segments, each without
    its centre. *)
Lemma procesar_tripleta_sin_centros (p1 p2 p3 : Point F)
  (segmentos segmentos' : list (Segmento F)) :
  procesar_tripleta prm p1 p2 p3 segmentos = Ok segmentos' ->
  procesar_tripleta (sin_centros prm) p1 p2 p3 (map sin_centro segmentos) =
  Ok (map sin_centro segmentos').
Proof.
  unfold procesar_tripleta. cbn [md rmin rmax incluir_ctr sin_centros].
  destruct (_ || _); [now intros [= <-]|].
  destruct (circle_radius p1 p2 p3) as [[r|]|e]; py_bind;
    [|now intros [= <-]|discriminate].
  destruct (truthy r && fltb (rmin prm) r && fltb r (rmax prm));
    [|now intros [= <-]].
  destruct (if incluir_ctr prm then circle_center p1 p2 p3 else Ok None)
    as [center|e]; py_bind; [|discriminate].
  intros [= <-]. now rewrite map_app.
Qed.

Lemma for_each_sim {A S T : Type} (phi : S -> T) (xs : list A)
  (f : A -> S -> result S) (g : A -> T -> result T) :
  (forall a s s', f a s = Ok s' -> g a (phi s) = Ok (phi s')) ->
  forall s s', for_each xs f s = Ok s' -> for_each xs g (phi s) = Ok (phi s').
Proof.
  intros Hfg. induction xs as [|a xs IH]; intros s s'.
  - now intros [= <-].
  - cbn [for_each]. destruct (f a s) as [s1|e] eqn:Hf; cbn [bind];
      [|discriminate].
    rewrite (Hfg _ _ _ Hf). cbn [bind]. apply IH.
Qed.

Lemma procesar_linea_sin_centros (line : list (Point F))
  (segmentos segmentos' : list (Segmento F)) :
  procesar_linea prm line segmentos = Ok segmentos' ->
  procesar_linea (sin_centros prm) line (map sin_centro segmentos) =
  Ok (map sin_centro segmentos').
Proof.
  rewrite !procesar_linea_tripletas.
  apply (for_each_sim (map sin_centro)).
  intros [[p1 p2] p3] s s'. apply procesar_tripleta_sin_centros.
Qed.

Lemma extraer_sin_centros (canceled : Feedback) (dens : list (QgsGeometry F))
  (segmentos : list (Segmento F)) :
  extraer prm canceled dens = Ok segmentos ->
  extraer (sin_centros prm) canceled dens = Ok (map sin_centro segmentos).
Proof.
  unfold extraer. rewrite !extraer_desde_partes.
  apply (for_each_sim (map sin_centro) _ _ _ procesar_linea_sin_centros []).
Qed.

Lemma capa_curvas_sin_centros (segmentos : list (Segmento F))
  (mapa_cluster : gmap nat nat) :
  capa_curvas (map sin_centro segmentos) ∅ =
  map sin_centroide (capa_curvas segmentos mapa_cluster).
Proof.
  unfold capa_curvas, enumerate. rewrite length_map, map_map.
  generalize 0%nat. induction segmentos as [|seg segmentos IH]; intros i;
    [reflexivity|].
  cbn [length seq map zip zip_with]. f_equal. apply IH.
Qed.

(** X16.  The flag of the centres changes nothing in the curve layer but
    [ID_Centroide]: the run without centres gives the curves of the run
    with them, each with [ID_Centroide = -1], and no cluster layer. *)
Theorem centres_flag_independent
  (densificar : F -> list (QgsGeometry F) -> list (QgsGeometry F))
  (layer : list (QgsGeometry F)) (canceled : Feedback) :
  ley_tolerancia F ->
  exists res,
    processAlgorithm prm densificar (Some layer) canceled = Ok res /\
    processAlgorithm (sin_centros prm) densificar (Some layer) canceled =
    Ok {| OUTPUT_CURVES := map sin_centroide (OUTPUT_CURVES res);
          OUTPUT_CENTERS := None |}.
Proof.
  intros Htol. unfold processAlgorithm.
  cbn [intervalo incluir_ctr sin_centros].
  destruct (extraer_desde_total prm canceled (densificar (intervalo prm) layer)
              0 [] Htol) as (segmentos & Hext).
  change (extraer prm canceled (densificar (intervalo prm) layer) =
          Ok segmentos) in Hext.
  rewrite Hext, (extraer_sin_centros _ _ _ Hext). py_bind.
  destruct (agrupar_estado prm segmentos) as ([clusters mapa] & -> & _).
  py_bind. unfold agrupar at 1. cbn [incluir_ctr sin_centros]. py_bind.
  rewrite (capa_curvas_sin_centros segmentos mapa).
  destruct (incluir_ctr prm).
  - destruct (capa_centroides_returns clusters) as (centros & ->). py_bind.
    eexists. split; reflexivity.
  - eexists. split; reflexivity.
Qed.

End Capas.

(* ================================================================== *)
(** ** The further theorems at concrete inputs *)

(** The report of [checkParameterValues] in binary64: an interval of
    zero, equal radii and no grouping distance give three messages. *)
Lemma checkParameterValues_report_witness :
  let parameters : gmap string (option float) :=
    <[INTERVAL := Some 0%float]>
    (<[MIN_RADIUS := Some 5%float]>
    (<[MAX_RADIUS := Some 5%float]>
    (<[MIN_DIST := Some 0.5%float]>
    (<[CLUSTER_DISTANCE := None]> ∅)))) in
  parameters !! INTERVAL = Some (Some 0%float) /\
  parameters !! MIN_DIST = Some (Some 0.5%float) /\
  parameters !! MIN_RADIUS = Some (Some 5%float) /\
  parameters !! MAX_RADIUS = Some (Some 5%float) /\
  parameters !! CLUSTER_DISTANCE = Some None /\
  exists errores,
    errores_de parameters = Found errores /\
    (msg_intervalo ∈ errores <-> ~ intervalo_valido (Some 0%float)) /\
    (msg_distancia ∈ errores <-> ~ distancia_valida (Some 0.5%float)) /\
    (msg_radios ∈ errores <->
     ~ radios_validos (Some 5%float) (Some 5%float)) /\
    (msg_agrupacion ∈ errores <-> ~ distancia_valida (None : option float)) /\
    NoDup errores /\
    errores `sublist_of`
      [msg_intervalo; msg_distancia; msg_radios; msg_agrupacion].
Proof.
  intros parameters.
  assert (Hi : parameters !! INTERVAL = Some (Some 0%float))
    by (vm_compute; reflexivity).
  assert (Hd : parameters !! MIN_DIST = Some (Some 0.5%float))
    by (vm_compute; reflexivity).
  assert (Hmin : parameters !! MIN_RADIUS = Some (Some 5%float))
    by (vm_compute; reflexivity).
  assert (Hmax : parameters !! MAX_RADIUS = Some (Some 5%float))
    by (vm_compute; reflexivity).
  assert (Hc : parameters !! CLUSTER_DISTANCE = Some None)
    by (vm_compute; reflexivity).
  split; [exact Hi|]. split; [exact Hd|]. split; [exact Hmin|].
  split; [exact Hmax|]. split; [exact Hc|].
  exact (checkParameterValues_report parameters _ _ _ _ _ Hi Hd Hmin Hmax Hc).
Defined.

(** The report of the set above, evaluated. *)
Lemma checkParameterValues_example_float :
  checkParameterValues
    (<[INTERVAL := Some 0%float]>
     (<[MIN_RADIUS := Some 5%float]>
     (<[MAX_RADIUS := Some 5%float]>
     (<[MIN_DIST := Some 0.5%float]>
     (<[CLUSTER_DISTANCE := None]> ∅))))) =
  Found (false,
         join salto [msg_intervalo; msg_radios; msg_agrupacion]).
Proof. vm_compute. reflexivity. Qed.

(** The verdict of [checkParameterValues] in binary64, at the default
    values that [initAlgorithm] declares. *)
Lemma checkParameterValues_verdict_witness :
  valores_por_defecto !! INTERVAL = Some (Some 15%float) /\
  valores_por_defecto !! MIN_DIST = Some (Some 0.5%float) /\
  valores_por_defecto !! MIN_RADIUS = Some (Some 2%float) /\
  valores_por_defecto !! MAX_RADIUS = Some (Some 50%float) /\
  valores_por_defecto !! CLUSTER_DISTANCE = Some (Some 10%float) /\
  exists ok msg,
    checkParameterValues valores_por_defecto = Found (ok, msg) /\
    (ok = true <->
     intervalo_valido (Some 15%float) /\ distancia_valida (Some 0.5%float) /\
     radios_validos (Some 2%float) (Some 50%float) /\
     distancia_valida (Some 10%float)) /\
    (ok = true <-> msg = ""%string).
Proof.
  assert (Hi : valores_por_defecto !! INTERVAL = Some (Some 15%float))
    by (vm_compute; reflexivity).
  assert (Hd : valores_por_defecto !! MIN_DIST = Some (Some 0.5%float))
    by (vm_compute; reflexivity).
  assert (Hmin : valores_por_defecto !! MIN_RADIUS = Some (Some 2%float))
    by (vm_compute; reflexivity).
  assert (Hmax : valores_por_defecto !! MAX_RADIUS = Some (Some 50%float))
    by (vm_compute; reflexivity).
  assert (Hc : valores_por_defecto !! CLUSTER_DISTANCE = Some (Some 10%float))
    by (vm_compute; reflexivity).
  split; [exact Hi|]. split; [exact Hd|]. split; [exact Hmin|].
  split; [exact Hmax|]. split; [exact Hc|].
  exact (checkParameterValues_verdict valores_por_defecto _ _ _ _ _
           Hi Hd Hmin Hmax Hc).
Defined.

(** The default values are accepted; a [nan] passes every test, all its
    comparisons being false. *)
Lemma checkParameterValues_defaults_float :
  checkParameterValues valores_por_defecto = Found (true, ""%string) /\
  checkParameterValues
    (<[INTERVAL := Some nan]> (<[MIN_DIST := Some nan]> valores_por_defecto)) =
  Found (true, ""%string).
Proof. split; vm_compute; reflexivity. Qed.

(** [circle_center] in binary64 on the 3-4-5 triangle. *)
Lemma circle_center_total_witness :
  let p1 : Point float := QgsPointXY 0%float 0%float in
  let p2 : Point float := QgsPointXY 4%float 0%float in
  let p3 : Point float := QgsPointXY 4%float 3%float in
  ley_tolerancia float /\
  exists v,
    circle_center p1 p2 p3 = Ok v /\
    (v = None <-> fltb (fabs (center_det p1 p2 p3)) lit_1e_9 = true) /\
    (is_Some v -> feqb (center_det p1 p2 p3) (of_int 0) = false).
Proof.
  intros p1 p2 p3. split; [exact float64_tolerancia|].
  exact (circle_center_total p1 p2 p3 float64_tolerancia).
Defined.

(** The extraction part by part in binary64: a record of two parts and a
    record of one part, with the cancellation seen at the third poll. *)
Lemma extraction_by_parts_witness :
  let prm : Parametros float :=
    {| intervalo := 15; rmin := 1; rmax := 100; md := 0;
       incluir_ctr := true; dist_agrup := 10 |}%float in
  let line : list (Point float) :=
    [QgsPointXY 0 0; QgsPointXY 5 0; QgsPointXY 10 1; QgsPointXY 15 4;
     QgsPointXY 20 9]%float in
  let dens : list (QgsGeometry float) :=
    [MultiPolyline [line; [QgsPointXY 30 0; QgsPointXY 31 0]%float];
     Polyline line; Polyline line] in
  let canceled : Feedback := fun i => (1 <? i)%nat in
  ley_tolerancia float /\
  exists por_linea,
    Forall2 (fun line nuevos =>
               procesar_linea prm line [] = Ok nuevos /\
               (length nuevos <= length line - 2)%nat)
            (todas_las_partes (vistos canceled 0 dens)) por_linea /\
    extraer prm canceled dens = Ok (concat por_linea).
Proof.
  intros prm line dens canceled. split; [exact float64_tolerancia|].
  exact (extraction_by_parts prm canceled dens float64_tolerancia).
Defined.

(** C10 witness: binary64, three records, cancellation seen at the poll of
    the second one. *)
Lemma cancellation_partial_result_witness :
  let prm : Parametros float :=
    {| intervalo := 15; rmin := 1; rmax := 100; md := 0;
       incluir_ctr := true; dist_agrup := 10 |}%float in
  let line : list (Point float) :=
    [QgsPointXY 0 0; QgsPointXY 5 0; QgsPointXY 10 1; QgsPointXY 15 4;
     QgsPointXY 20 9]%float in
  let dens : list (QgsGeometry float) :=
    [Polyline line; Polyline line; Polyline line] in
  let canceled : Feedback := fun i => (0 <? i)%nat in
  ley_tolerancia float /\
  (forall j, (j < 1)%nat -> canceled j = false) /\
  canceled 1%nat = true /\
  exists por_linea,
    Forall2 (fun line nuevos =>
               procesar_linea prm line [] = Ok nuevos /\
               Forall (fun seg => exists t,
                           t ∈ tripletas line /\ segmento_de prm t seg) nuevos)
            [line] por_linea /\
    extraer prm canceled dens = Ok (concat por_linea).
Proof.
  intros prm line dens canceled.
  assert (Hbefore : forall j, (j < 1)%nat -> canceled j = false).
  { intros j Hj. destruct j as [|j]; [reflexivity|lia]. }
  assert (Hat : canceled 1%nat = true) by reflexivity.
  split; [exact float64_tolerancia|].
  split; [exact Hbefore|]. split; [exact Hat|].
  exact (cancellation_partial_result prm canceled dens 1
           float64_tolerancia Hbefore Hat).
Defined.

(** The scenario of the spec in binary64: with the cancellation seen after
    the first of three records, the extraction returns the three segments
    of that record. *)
Lemma cancellation_example_float :
  let prm : Parametros float :=
    {| intervalo := 15; rmin := 1; rmax := 100; md := 0;
       incluir_ctr := true; dist_agrup := 10 |}%float in
  let line : list (Point float) :=
    [QgsPointXY 0 0; QgsPointXY 5 0; QgsPointXY 10 1; QgsPointXY 15 4;
     QgsPointXY 20 9]%float in
  let dens : list (QgsGeometry float) :=
    [Polyline line; Polyline line; Polyline line] in
  exists segmentos,
    extraer prm (fun i => (0 <? i)%nat) dens = Ok segmentos /\
    procesar_linea prm line [] = Ok segmentos /\
    map geom segmentos =
      [[QgsPointXY 0 0; QgsPointXY 5 0; QgsPointXY 10 1];
       [QgsPointXY 5 0; QgsPointXY 10 1; QgsPointXY 15 4];
       [QgsPointXY 10 1; QgsPointXY 15 4; QgsPointXY 20 9]]%float.
Proof.
  cbv zeta. eexists. split; [vm_compute; reflexivity|].
  split; vm_compute; reflexivity.
Qed.

(** The curve records of a run in binary64. *)
Lemma curve_records_witness :
  let prm : Parametros float :=
    {| intervalo := 15; rmin := 1; rmax := 100; md := 0;
       incluir_ctr := true; dist_agrup := 10 |}%float in
  let layer : list (QgsGeometry float) :=
    [Polyline [QgsPointXY 0 0; QgsPointXY 5 0; QgsPointXY 10 1;
               QgsPointXY 15 4; QgsPointXY 20 9]%float] in
  ley_tolerancia float /\
  exists res,
    processAlgorithm prm (fun _ l => l) (Some layer) (fun _ => false) = Ok res /\
    forall i c,
      OUTPUT_CURVES res !! i = Some c ->
      ID_Curva c = Z.of_nat i /\
      exists feat line p1 p2 p3,
        feat ∈ layer /\ line ∈ partes feat /\
        (p1, p2, p3) ∈ tripletas line /\
        curva_geom c = [p1; p2; p3] /\
        circle_radius p1 p2 p3 = Ok (Some (Radio c)) /\
        Longitud c = polyline_length p1 p2 p3 /\
        feqb (Radio c) (of_int 0) = false /\
        fltb (rmin prm) (Radio c) = true /\
        fltb (Radio c) (rmax prm) = true /\
        fltb (distance p1 p2) (md prm) = false /\
        fltb (distance p2 p3) (md prm) = false.
Proof.
  intros prm layer. split; [exact float64_tolerancia|].
  exact (curve_records prm (fun _ l => l) layer (fun _ => false)
           float64_tolerancia).
Defined.

(** An inverted radius range in binary64: [rmin = 100] and [rmax = 1]. *)
Lemma inverted_range_no_curves_witness :
  let prm : Parametros float :=
    {| intervalo := 15; rmin := 100; rmax := 1; md := 0;
       incluir_ctr := true; dist_agrup := 10 |}%float in
  let layer : list (QgsGeometry float) :=
    [Polyline [QgsPointXY 0 0; QgsPointXY 5 0; QgsPointXY 10 1;
               QgsPointXY 15 4; QgsPointXY 20 9]%float] in
  ley_orden float /\
  fleb (rmax prm) (rmin prm) = true /\
  processAlgorithm prm (fun _ l => l) (Some layer) (fun _ => false) =
  Ok {| OUTPUT_CURVES := []; OUTPUT_CENTERS := Some [] |}.
Proof.
  intros prm layer.
  assert (Hinv : fleb (rmax prm) (rmin prm) = true) by (vm_compute; reflexivity).
  split; [exact float64_orden|]. split; [exact Hinv|].
  exact (inverted_range_no_curves prm (fun _ l => l) layer (fun _ => false)
           float64_orden Hinv).
Defined.

(** The grouping in binary64 of two segments with a centre and one
    without. *)
Lemma every_centre_is_grouped_witness :
  let prm : Parametros float :=
    {| intervalo := 15; rmin := 1; rmax := 100; md := 0;
       incluir_ctr := true; dist_agrup := 10 |}%float in
  let seg (c : option (Point float)) : Segmento float :=
    {| geom := []; radio := 5%float; long := 1%float; centro := c |} in
  let segmentos :=
    [seg (Some (QgsPointXY 0 0)); seg None; seg (Some (QgsPointXY 1 0))]%float in
  incluir_ctr prm = true /\
  exists clusters mapa_cluster,
    agrupar prm segmentos = Ok (clusters, mapa_cluster) /\
    forall idx seg,
      segmentos !! idx = Some seg ->
      ((exists cid cl, mapa_cluster !! idx = Some cid /\
                       clusters !! cid = Some cl /\ idx ∈ indices cl) <->
       is_Some (centro seg)) /\
      (get_cluster mapa_cluster idx = (-1)%Z <-> centro seg = None).
Proof.
  intros prm seg segmentos. split; [reflexivity|].
  exact (every_centre_is_grouped prm segmentos eq_refl).
Defined.

(** One step of the grouping in binary64: the centre (9,0) joins the
    first of two clusters. *)
Lemma clusters_only_grow_witness :
  let prm : Parametros float :=
    {| intervalo := 15; rmin := 1; rmax := 100; md := 0;
       incluir_ctr := true; dist_agrup := 10 |}%float in
  let seg (cx : float) : Segmento float :=
    {| geom := []; radio := 5%float; long := 1%float;
       centro := Some (QgsPointXY cx 0%float) |} in
  let segmentos := [seg 0%float; seg 15%float; seg 9%float] in
  let clusters : list (Cluster float) :=
    [ {| centroid := QgsPointXY 0%float 0%float; indices := [0%nat];
         sum_r := 5%float |};
      {| centroid := QgsPointXY 15%float 0%float; indices := [1%nat];
         sum_r := 5%float |} ] in
  let mapa_cluster : gmap nat nat := <[1%nat := 1%nat]> (<[0%nat := 0%nat]> ∅) in
  segmentos !! 2%nat = Some (seg 9%float) /\
  Forall (miembros_validos segmentos) clusters /\
  exists clusters' mapa_cluster',
    agrupar_paso prm segmentos (2%nat, seg 9%float) (clusters, mapa_cluster) =
    Ok (clusters', mapa_cluster') /\
    (length clusters <= length clusters' <= S (length clusters))%nat /\
    (forall cid cl,
        clusters !! cid = Some cl ->
        exists cl', clusters' !! cid = Some cl' /\
                    indices cl `prefix_of` indices cl') /\
    (forall k, k <> 2%nat -> mapa_cluster' !! k = mapa_cluster !! k).
Proof.
  intros prm seg segmentos clusters mapa_cluster.
  assert (Hval : Forall (miembros_validos segmentos) clusters).
  { constructor; [|constructor; [|constructor]].
    - exists [QgsPointXY 0%float 0%float]. constructor; [|constructor].
      exists (seg 0%float). split; reflexivity.
    - exists [QgsPointXY 15%float 0%float]. constructor; [|constructor].
      exists (seg 15%float). split; reflexivity. }
  split; [reflexivity|]. split; [exact Hval|].
  exact (clusters_only_grow prm segmentos 2%nat (seg 9%float) clusters
           mapa_cluster eq_refl Hval).
Defined.

(** The counts of the cluster layer in binary64. *)
Lemma cluster_counts_add_up_witness :
  let prm : Parametros float :=
    {| intervalo := 15; rmin := 1; rmax := 100; md := 0;
       incluir_ctr := true; dist_agrup := 10 |}%float in
  let seg (c : option (Point float)) : Segmento float :=
    {| geom := []; radio := 5%float; long := 1%float; centro := c |} in
  let segmentos :=
    [seg (Some (QgsPointXY 0 0)); seg None; seg (Some (QgsPointXY 1 0));
     seg (Some (QgsPointXY 50 0))]%float in
  incluir_ctr prm = true /\
  con_centro segmentos = 3%nat /\
  exists clusters mapa_cluster centros,
    agrupar prm segmentos = Ok (clusters, mapa_cluster) /\
    capa_centroides clusters = Ok centros /\
    foldr Z.add 0%Z (map Conteo centros) = Z.of_nat (con_centro segmentos) /\
    (length centros <= con_centro segmentos)%nat.
Proof.
  intros prm seg segmentos. split; [reflexivity|].
  split; [vm_compute; reflexivity|].
  exact (cluster_counts_add_up prm segmentos eq_refl).
Defined.

(** The two layers of a run in binary64. *)
Lemma curve_cluster_reference_witness :
  let prm : Parametros float :=
    {| intervalo := 15; rmin := 1; rmax := 100; md := 0;
       incluir_ctr := true; dist_agrup := 10 |}%float in
  let layer : list (QgsGeometry float) :=
    [Polyline [QgsPointXY 0 0; QgsPointXY 5 0; QgsPointXY 10 1;
               QgsPointXY 15 4; QgsPointXY 20 9]%float] in
  ley_tolerancia float /\
  incluir_ctr prm = true /\
  exists curvas centros,
    processAlgorithm prm (fun _ l => l) (Some layer) (fun _ => false) =
    Ok {| OUTPUT_CURVES := curvas; OUTPUT_CENTERS := Some centros |} /\
    (forall c,
        c ∈ curvas ->
        ID_Centroide c = (-1)%Z \/
        exists ctr,
          (0 <= ID_Centroide c)%Z /\
          centros !! Z.to_nat (ID_Centroide c) = Some ctr /\
          ctr_ID_Centroide ctr = ID_Centroide c) /\
    (forall ctr,
        ctr ∈ centros ->
        Conteo ctr =
        Z.of_nat (length (filter (fun c => ID_Centroide c = ctr_ID_Centroide ctr)
                                 curvas))).
Proof.
  intros prm layer. split; [exact float64_tolerancia|].
  split; [reflexivity|].
  exact (curve_cluster_reference prm (fun _ l => l) layer (fun _ => false)
           float64_tolerancia eq_refl).
Defined.

(** The curves without a cluster in binary64, on the collinear points
    (0,0), (1,1), (3,3) with a wide radius range. *)
Lemma unassigned_curves_witness :
  let prm : Parametros float :=
    {| intervalo := 15; rmin := 1; rmax := 0x1p+30; md := 0;
       incluir_ctr := true; dist_agrup := 10 |}%float in
  let layer : list (QgsGeometry float) :=
    [Polyline [QgsPointXY 0 0; QgsPointXY 1 1; QgsPointXY 3 3]%float] in
  ley_tolerancia float /\
  incluir_ctr prm = true /\
  exists res,
    processAlgorithm prm (fun _ l => l) (Some layer) (fun _ => false) = Ok res /\
    forall c,
      c ∈ OUTPUT_CURVES res ->
      exists p1 p2 p3,
        curva_geom c = [p1; p2; p3] /\
        (ID_Centroide c = (-1)%Z <->
         fltb (fabs (center_det p1 p2 p3)) lit_1e_9 = true).
Proof.
  intros prm layer. split; [exact float64_tolerancia|].
  split; [reflexivity|].
  exact (unassigned_curves prm (fun _ l => l) layer (fun _ => false)
           float64_tolerancia eq_refl).
Defined.

(** The run with and without centres in binary64. *)
Lemma centres_flag_independent_witness :
  let prm : Parametros float :=
    {| intervalo := 15; rmin := 1; rmax := 100; md := 0;
       incluir_ctr := true; dist_agrup := 10 |}%float in
  let layer : list (QgsGeometry float) :=
    [Polyline [QgsPointXY 0 0; QgsPointXY 5 0; QgsPointXY 10 1;
               QgsPointXY 15 4; QgsPointXY 20 9]%float] in
  ley_tolerancia float /\
  exists res,
    processAlgorithm prm (fun _ l => l) (Some layer) (fun _ => false) = Ok res /\
    processAlgorithm (sin_centros prm) (fun _ l => l) (Some layer)
      (fun _ => false) =
    Ok {| OUTPUT_CURVES := map sin_centroide (OUTPUT_CURVES res);
          OUTPUT_CENTERS := None |}.
Proof.
  intros prm layer. split; [exact float64_tolerancia|].
  exact (centres_flag_independent prm (fun _ l => l) layer (fun _ => false)
           float64_tolerancia).
Defined.

